(** * causaltreat: sample splitting, proxy estimation and the BLP / GATES
      aggregators, embedded from [causaltreat.py].

    Conventions of the embedding.
    - numpy floating-point arrays are lists of rationals ([Q]); the
      treatment indicator, outcomes, propensities and predictions are all
      [vector]s, a feature matrix is a list of rows.  An infinite weight
      is [PInf].
    - Rounding to double precision ([round64]) is written out where a float
      decides a whole number or a text: the size of the main sample in
      [partition], the jitter that [gates] adds to the scores, and the
      labels of its table.  Elsewhere (the regression designs, the
      least-squares fit, the percentiles) the arithmetic is that of the
      rationals, so the values are those of the code up to rounding; a
      statement that turns on an order, an index or an equality of such
      values is limited to the cases rounding cannot change.
    - Python exceptions are the type [exn]; a function that can raise
      returns [result].
    - The global random source, the model instance (mutated by [fit]) and a
      log of the calls made to the collaborators are threaded explicitly in
      [world]; an exception keeps the world reached when it was raised.
    - The collaborators the file imports (the fit/predict model and the
      least-squares solver behind [WLS]) are interfaces. *)

From Stdlib Require Import QArith Qround Qabs Qpower Lqa ZArith Ascii String.
From stdpp Require Import base option list sorting strings pretty.

Local Open Scope Z_scope.
Local Open Scope nat_scope.

(** ** Values, exceptions, results *)

Abbreviation vector := (list Q).
Abbreviation matrix := (list (list Q)).

#[global] Instance Q_inhabited : Inhabited Q := populate 0%Q.

#[global] Instance Qle_dec (x y : Q) : Decision (x <= y)%Q :=
  match Qlt_le_dec y x with
  | left H => right (Qlt_not_le _ _ H)
  | right H => left H
  end.

#[global] Instance Qlt_dec (x y : Q) : Decision (x < y)%Q :=
  match Qlt_le_dec x y with
  | left H => left H
  | right H => right (Qle_not_lt _ _ H)
  end.

(** ** Double precision

    A Python float is an IEEE 754 binary64 number; its value is a rational.
    The result of an operation is the exact result rounded to the nearest
    double, ties to the even significand. *)

(** The nearest integer, ties to even. *)
Definition round_half_even (x : Q) : Z :=
  let f := Qfloor x in
  let r := (x - inject_Z f)%Q in
  if decide (r < 1 # 2)%Q then f
  else if decide (1 # 2 < r)%Q then (f + 1)%Z
  else if Z.even f then f else (f + 1)%Z.

(** The exponent [e] of a positive [x]: [2^e <= x < 2^(e+1)]. *)
Definition binade (x : Q) : Z :=
  let e := (Z.log2 (Qnum x) - Z.log2 (Zpos (Qden x)))%Z in
  if decide (2 ^ e <= x)%Q then e else (e - 1)%Z.

(** The spacing of the doubles around [x]: 53 significant bits, and
    [2^-1074] in the subnormal range. *)
Definition ulp (x : Q) : Q :=
  (2 ^ (Z.max (binade (Qabs x) - 52) (-1074)))%Q.

(** The double nearest to [x]. Overflow to infinity is not modelled. *)
Definition round64 (x : Q) : Q :=
  Qred (inject_Z (round_half_even (x / ulp x)) * ulp x).

(** [x * y], [x + y] and [x / y] on floats; [float(n)] for an integer. *)
Definition fmul (x y : Q) : Q := round64 (x * y).
Definition fadd (x y : Q) : Q := round64 (x + y).
Definition fdiv (x y : Q) : Q := round64 (x / y).
Definition float_of_nat (n : nat) : Q := round64 (inject_Z (Z.of_nat n)).

(** A float that may be [+inf]. *)
Inductive ext := Fin (x : Q) | PInf.

Inductive exn :=
| ValueError (msg : string)
| IndexError (msg : string)
| CollaboratorError (msg : string).

Definition result (A : Type) : Type := exn + A.

Definition ok {A} (a : A) : result A := inr a.
Definition raise {A} (e : exn) : result A := inl e.

Definition rbind {A B} (r : result A) (k : A → result B) : result B :=
  match r with
  | inl e => inl e
  | inr a => k a
  end.

#[global] Instance result_ret : MRet result := @ok.
#[global] Instance result_bind : MBind result := λ A B k r, rbind r k.

(** ** The collaborators *)

(** Anything with [fit] and [predict]; [fit] returns the mutated instance. *)
Class Model (M : Type) := {
  fit : M → matrix → vector → result M;
  predict : M → matrix → result vector
}.

(** The solver behind [WLS(...).fit().params]:
    design matrix, response, weights ↦ coefficients. *)
Class Solver := {
  lstsq : matrix → vector → vector → result vector
}.

Inductive event :=
| EvChoice (a : list nat) (size : Z) (out : list nat)
| EvUniform (out : vector)
| EvFit (X : matrix) (y : vector)
| EvPredict (X : matrix)
| EvLstsq (X : matrix) (y : vector) (w : vector)
| EvPrint (labels : list string).

Record world (M : Type) := World {
  rng : list nat;
  model : M;
  trace : list event
}.
Arguments World {M} _ _ _.
Arguments rng {M} _.
Arguments model {M} _.
Arguments trace {M} _.

Definition prog (M A : Type) : Type := world M → result A * world M.

Definition pret {M A} (a : A) : prog M A := λ w, (inr a, w).

Definition pbind {M A B} (p : prog M A) (k : A → prog M B) : prog M B :=
  λ w, match p w with
       | (inl e, w') => (inl e, w')
       | (inr a, w') => k a w'
       end.

#[global] Instance prog_ret {M} : MRet (prog M) := @pret M.
#[global] Instance prog_bind {M} : MBind (prog M) := λ A B k p, pbind p k.

Definition lift {M A} (r : result A) : prog M A := λ w, (r, w).

Definition emit {M} (e : event) : prog M unit :=
  λ w, (inr (), World (rng w) (model w) (trace w ++ [e])).

(** ** numpy: element-wise operations, masks, indexing *)

(** Broadcasting of two one-dimensional arrays. *)
Definition broadcast2 {A B C} (f : A → B → C) (l1 : list A) (l2 : list B)
  : result (list C) :=
  if decide (length l1 = length l2) then ok (zip_with f l1 l2)
  else match l1, l2 with
       | [a], _ => ok (f a <$> l2)
       | _, [b] => ok ((λ a, f a b) <$> l1)
       | _, _ => raise (ValueError "operands could not be broadcast together")
       end.

(** [d == v] *)
Definition eq_scalar (d : vector) (v : Q) : list bool :=
  (λ x, Qeq_bool x v) <$> d.

(** [sample == s] *)
Definition eq_label (sample : list string) (s : string) : list bool :=
  (λ x, bool_decide (x = s)) <$> sample.

(** [np.where(mask)[0]]: the positions that hold [True], ascending. *)
Definition where_ (mask : list bool) : list nat :=
  filter (λ i, mask !! i = Some true) (seq 0 (length mask)).

(** The elements of [a] at the [True] positions of [mask]. *)
Fixpoint compress {A} (mask : list bool) (a : list A) : list A :=
  match mask, a with
  | b :: mask', x :: a' =>
      if b then x :: compress mask' a' else compress mask' a'
  | _, _ => []
  end.

(** [a[mask]] for a boolean [mask]. *)
Definition mask_index {A} (a : list A) (mask : list bool) : result (list A) :=
  if decide (length mask = length a) then ok (compress mask a)
  else raise (IndexError "boolean index did not match indexed array").

(** [a[idx]] for an array of non-negative positions. *)
Definition take_idx {A} (a : list A) (idx : list nat) : list A :=
  omap (λ i, a !! i) idx.

(** [a[idx] = v] for an array of non-negative positions. *)
Definition set_items {A} (a : list A) (idx : list nat) (v : A)
  : result (list A) :=
  if decide (Forall (λ i, i < length a) idx)
  then ok (foldl (λ acc i, <[i := v]> acc) a idx)
  else raise (IndexError "index out of bounds").

(** [np.floor(x).astype(int)] *)
Definition floor_int (x : Q) : Z := Qfloor x.

(** [np.floor(prob_m * len(rows)).astype(int)]: the length becomes a float,
    the product is rounded to a double, and the double is floored. *)
Definition main_size (prob_m : Q) (rows : list nat) : Z :=
  floor_int (fmul prob_m (float_of_nat (length rows))).

Definition of_len {A} (l : list A) : Q := inject_Z (Z.of_nat (length l)).

(** ** numpy.random (the legacy global generator)

    The generator state is the stream of raw words it will produce; a
    bounded integer and a uniform float each consume one word. *)

Definition next_word {M} : prog M nat :=
  λ w, match rng w with
       | [] => (inr 0, w)
       | r :: rest => (inr r, World rest (model w) (trace w))
       end.

(** A uniform integer in [[0, max]]. *)
Definition random_interval {M} (max : nat) : prog M nat :=
  r ← next_word; mret (r mod (S max)).

(** [x[i], x[j] = x[j], x[i]] *)
Definition swap {A} (x : list A) (i j : nat) : list A :=
  match x !! i, x !! j with
  | Some xi, Some xj => <[i := xj]> (<[j := xi]> x)
  | _, _ => x
  end.

(** [shuffle]: for i in reversed(range(1, n)): j = random_interval(i); swap.
    The argument [i] counts down from [n - 1]. *)
Fixpoint shuffle_from {M A} (i : nat) (x : list A) : prog M (list A) :=
  match i with
  | O => mret x
  | S i' => j ← random_interval i; shuffle_from i' (swap x i j)
  end.

Definition shuffle {M A} (x : list A) : prog M (list A) :=
  shuffle_from (length x - 1) x.

(** [permutation(n)]: a shuffled [arange(n)]. *)
Definition permutation {M} (n : nat) : prog M (list nat) :=
  shuffle (seq 0 n).

(** [np.random.choice(a, size, replace=False)] *)
Definition choice {M} (a : list nat) (size : Z) : prog M (list nat) :=
  let pop_size := length a in
  if bool_decide (pop_size = 0) && negb (bool_decide (size = 0%Z))
  then lift (raise (ValueError "'a' cannot be empty unless no samples are taken"))
  else if bool_decide (Z.of_nat pop_size < size)%Z
  then lift (raise (ValueError
         "Cannot take a larger sample than population when 'replace=False'"))
  else if bool_decide (size < 0)%Z
  then lift (raise (ValueError "negative dimensions are not allowed"))
  else
    idx ← permutation pop_size;
    let out := take_idx a (take (Z.to_nat size) idx) in
    _ ← emit (EvChoice a size out);
    mret out.

(** ** partition *)

Definition partition {M} (d : vector) (prob_m : Q) : prog M (list string) :=
  let rowid_treat := where_ (eq_scalar d 1) in
  let rowid_ctrl := where_ (eq_scalar d 0) in
  rowid_treat_main ←
    choice rowid_treat (main_size prob_m rowid_treat);
  rowid_ctrl_main ←
    choice rowid_ctrl (main_size prob_m rowid_ctrl);
  let sample := replicate (length d) "a"%string in
  let rowid_main := rowid_treat_main ++ rowid_ctrl_main in
  lift (set_items sample rowid_main "m"%string).

(** ** ml_proxy *)

(** [model.fit(X, y)]: the instance in the world is replaced by the fitted
    one.  The interface gives no instance for a [fit] that raises: the
    world then keeps the one it had, and what a failed [fit] leaves behind
    in the Python object is outside the embedding. *)
Definition model_fit {M} `{Model M} (X : matrix) (y : vector) : prog M unit :=
  λ w, let t := trace w ++ [EvFit X y] in
       match fit (model w) X y with
       | inl e => (inl e, World (rng w) (model w) t)
       | inr m' => (inr (), World (rng w) m' t)
       end.

(** [model.predict(X)] *)
Definition model_predict {M} `{Model M} (X : matrix) : prog M vector :=
  λ w, (predict (model w) X,
        World (rng w) (model w) (trace w ++ [EvPredict X])).

Definition ml_proxy {M} `{Model M} (x : matrix) (y d : vector)
    (sample : list string) : prog M (vector * vector) :=
  id_ctrl_a ← lift (broadcast2 andb (eq_label sample "a") (eq_scalar d 0));
  x_ctrl ← lift (mask_index x id_ctrl_a);
  y_ctrl ← lift (mask_index y id_ctrl_a);
  _ ← model_fit x_ctrl y_ctrl;
  pred_ctrl ← model_predict x;
  id_treat_a ← lift (broadcast2 andb (eq_label sample "a") (eq_scalar d 1));
  x_treat ← lift (mask_index x id_treat_a);
  y_treat ← lift (mask_index y id_treat_a);
  p_treat ← lift (mask_index pred_ctrl id_treat_a);
  target ← lift (broadcast2 Qminus y_treat p_treat);
  _ ← model_fit x_treat target;
  pred_treat ← model_predict x;
  let b_hat := pred_ctrl in
  let s_hat := pred_treat in
  mret (b_hat, s_hat).

(** ** statsmodels: WLS *)

(** [WLS(endog, exog, weights=1.0, missing='none', hasconst=None, **kwargs)]:
    the weights are the argument named [weights]; any other keyword lands in
    [kwargs], is kept with the data and plays no part in the fit. *)
Record WLS_model := {
  endog : vector;
  exog : matrix;
  weights : vector;
  extra : list (string * list ext)
}.

Definition WLS (endog : vector) (exog : matrix) (weights : option vector)
    (kwargs : list (string * list ext)) : WLS_model :=
  {| endog := endog;
     exog := exog;
     weights := match weights with
                | Some w => w
                | None => replicate (length endog) 1%Q
                end;
     extra := kwargs |}.

(** [wls.fit().params] *)
Definition WLS_fit {M} `{Solver} (m : WLS_model) : prog M vector :=
  _ ← emit (EvLstsq (exog m) (endog m) (weights m));
  lift (lstsq (exog m) (endog m) (weights m)).

(** ** blp *)

(** [x ** (-1)] on floats: the reciprocal, [+inf] at zero. *)
Definition ext_inv (x : Q) : ext :=
  if Qeq_bool x 0 then PInf else Fin (/ x).

(** [(prop * (1 - prop)) ** (-1)] *)
Definition inv_weights (prop : vector) : list ext :=
  (λ p, ext_inv (p * (1 - p))) <$> prop.

Definition Qsum (l : vector) : Q := foldr Qplus 0%Q l.

(** [np.mean]. On an empty array numpy gives NaN; the callers here only
    subtract that scalar from the same empty array, which leaves it empty,
    so the value on [[]] is immaterial. *)
Definition mean (l : vector) : Q := (Qsum l / of_len l)%Q.

(** [np.column_stack] of one-dimensional arrays. *)
Definition column_stack (cols : list vector) : result matrix :=
  match cols with
  | [] => raise (ValueError "need at least one array to concatenate")
  | c :: _ =>
      if decide (Forall (λ c', length c' = length c) cols)
      then ok ((λ i, omap (λ c', c' !! i) cols) <$> seq 0 (length c))
      else raise (ValueError "all the input array dimensions must match")
  end.

(** [labels.index(s)] *)
Fixpoint index_of (s : string) (labels : list string) : result nat :=
  match labels with
  | [] => raise (ValueError "not in list")
  | l :: rest => if decide (l = s) then ok 0
                 else i ← index_of s rest; ok (S i)
  end.

(** [params[i]] *)
Definition item (params : vector) (i : nat) : result Q :=
  match params !! i with
  | Some v => ok v
  | None => raise (IndexError "index out of bounds")
  end.

Record blp_result := { ate : Q; het : Q }.

Definition blp {M} `{Solver} (y d prop b_hat s_hat : vector)
    (print_table : bool) : prog M blp_result :=
  let y_reg := y in
  let w_reg := inv_weights prop in
  let const := replicate (length y) 1%Q in
  d_prop ← lift (broadcast2 Qminus d prop);
  d_prop' ← lift (broadcast2 Qminus d prop);
  let s_mean := mean s_hat in
  let s_dm := (λ s, s - s_mean)%Q <$> s_hat in
  het_col ← lift (broadcast2 Qmult d_prop' s_dm);
  x_reg ← lift (column_stack [const; b_hat; d_prop; het_col]);
  let labels := ["const."; "b0"; "ate"; "het"]%string in
  let wls := WLS y_reg x_reg None [("w"%string, w_reg)] in
  params ← WLS_fit wls;
  _ ← (if print_table then emit (EvPrint labels) else mret ());
  i_ate ← lift (index_of "ate" labels);
  v_ate ← lift (item params i_ate);
  i_het ← lift (index_of "het" labels);
  v_het ← lift (item params i_het);
  mret {| ate := v_ate; het := v_het |}.

(** ** quantile_grid *)

(** [np.linspace(0, stop, num=num, endpoint=False)] *)
Definition linspace0 (stop : Q) (num : Z) : result vector :=
  if bool_decide (num < 0)%Z
  then raise (ValueError "Number of samples must be non-negative")
  else
    let step := (stop / inject_Z num)%Q in
    ok ((λ k, inject_Z k * step + 0)%Q <$> seqZ 0 num).

(** numpy's linear interpolation between two neighbours. *)
Definition lerp (a b t : Q) : Q :=
  if bool_decide (1 # 2 <= t)%Q then (b - (b - a) * (1 - t))%Q
  else (a + (b - a) * t)%Q.

(** The value of the sorted, non-empty array [s] at the quantile [p] in
    [[0, 1]], by the default (linear) method. *)
Definition quantile_sorted (s : vector) (p : Q) : Q :=
  let n := length s in
  let virtual := (p * inject_Z (Z.of_nat (n - 1)))%Q in
  let previous := Z.to_nat (Qfloor virtual) in
  let next := Nat.min (S previous) (n - 1) in
  let gamma := (virtual - inject_Z (Z.of_nat previous))%Q in
  lerp (s !!! previous) (s !!! next) gamma.

(** [np.percentile(a, q)] for an array [q] of percentages. The percentages
    are checked first; an empty [a] then fails when its last entry is
    looked up. *)
Definition percentile (a : vector) (q : vector) : result vector :=
  let qs := (λ p, p / 100)%Q <$> q in
  if decide (Forall (λ p, 0 <= p ∧ p <= 1)%Q qs) then
    match a with
    | [] => raise (IndexError
                     "index -1 is out of bounds for axis 0 with size 0")
    | _ => ok (quantile_sorted (merge_sort Qle a) <$> qs)
    end
  else raise (ValueError "Percentiles must be in the range [0, 100]").

Definition ext_le (a b : ext) : Prop :=
  match a, b with
  | Fin x, Fin y => (x <= y)%Q
  | _, PInf => True
  | PInf, Fin _ => False
  end.

#[global] Instance ext_le_dec a b : Decision (ext_le a b).
Proof. destruct a, b; simpl; apply _. Defined.

(** 1 when [bins] never decreases, -1 when it never increases, 0 otherwise. *)
Definition monotonicity (bins : list ext) : Z :=
  if decide (Sorted ext_le bins) then 1%Z
  else if decide (Sorted (flip ext_le) bins) then (-1)%Z
  else 0%Z.

(** [np.searchsorted(bins, v, side='right')] on ascending [bins]:
    the number of bins that are [<= v]. *)
Definition searchsorted_right (bins : list ext) (v : Q) : nat :=
  length (filter (λ b, ext_le b (Fin v)) bins).

(** [np.searchsorted(bins, v, side='left')] on ascending [bins]:
    the number of bins that are [< v]. *)
Definition searchsorted_left (bins : list ext) (v : Q) : nat :=
  length (filter (λ b, ¬ ext_le (Fin v) b) bins).

(** [np.digitize(x, bins)] *)
Definition digitize (x : vector) (bins : list ext) : result (list Z) :=
  let mono := monotonicity bins in
  if bool_decide (mono = 0%Z)
  then raise (ValueError "bins must be monotonically increasing or decreasing")
  else if bool_decide (mono = (-1)%Z)
  then ok ((λ v, Z.of_nat (length bins - searchsorted_left (reverse bins) v))
             <$> x)
  else ok ((λ v, Z.of_nat (searchsorted_right bins v)) <$> x).

Definition quantile_grid (x : vector) (q : Z)
  : result (list Z * vector * vector) :=
  bin_pct ← linspace0 100 q;
  bin_edges ← percentile x bin_pct;
  digits ← digitize x ((Fin <$> bin_edges) ++ [PInf]);
  let bin_indices := (λ i, i - 1)%Z <$> digits in
  ok (bin_indices, bin_edges, bin_pct).

(** ** gates *)

(** [np.random.uniform(size=n)]: [n] floats in [[0, 1)], 53 random bits each. *)
Definition random_sample {M} : prog M Q :=
  r ← next_word;
  mret (inject_Z (Z.of_nat r mod 2 ^ 53) / inject_Z (2 ^ 53))%Q.

Fixpoint uniform_draws {M} (n : nat) : prog M vector :=
  match n with
  | O => mret []
  | S n' => u ← random_sample; us ← uniform_draws n'; mret (u :: us)
  end.

Definition uniform {M} (n : nat) : prog M vector :=
  us ← uniform_draws n;
  _ ← emit (EvUniform us);
  mret us.

(** The float written [1e-16]. *)
Definition jitter_scale : Q := round64 (1 # 10 ^ 16).

(** [np.zeros((n, q))] *)
Definition zeros (n q : nat) : matrix := replicate n (replicate q 0%Q).

(** A possibly negative position on an axis of length [size]. *)
Definition norm_index (size : nat) (j : Z) : result nat :=
  if bool_decide (0 ≤ j < Z.of_nat size)%Z then ok (Z.to_nat j)
  else if bool_decide (- Z.of_nat size ≤ j < 0)%Z
  then ok (Z.to_nat (Z.of_nat size + j))
  else raise (IndexError "index out of bounds for axis 1").

(** [m[rows, cols] = v] for two index arrays; [m] has [ncols] columns. The
    positions are checked before anything is written. *)
Definition set_cells (m : matrix) (ncols : nat) (rows : list nat)
    (cols : list Z) (v : Q) : result matrix :=
  if decide (length rows = length cols) then
    cells ← mapM (λ '(i, j),
               j' ← norm_index ncols j;
               if decide (i < length m) then ok (i, j')
               else raise (IndexError "index out of bounds for axis 0"))
             (zip rows cols);
    ok (foldl (λ acc '(i, j), alter (λ row, <[j := v]> row) i acc) m cells)
  else raise (IndexError "shape mismatch: indexing arrays could not be broadcast").

(** [m * np.reshape(c, (-1, 1))] *)
Definition mul_rows (m : matrix) (c : vector) : result matrix :=
  broadcast2 (λ row ci, (λ v, v * ci)%Q <$> row) m c.

(** [np.column_stack((a, b))] of two two-dimensional arrays. *)
Definition hstack (a b : matrix) : result matrix :=
  if decide (length a = length b) then ok (zip_with app a b)
  else raise (ValueError "all the input array dimensions must match").

(** [np.sum(m, axis=0)] of an array with [ncols] columns. *)
Definition sum_axis0 (ncols : nat) (m : matrix) : vector :=
  foldr (zip_with Qplus) (replicate ncols 0%Q) m.

(** [f"{x:.2f}"] *)
Definition fmt2 (x : Q) : string :=
  let c := round_half_even (Qabs x * 100) in
  let frac := (c mod 100)%Z in
  ((if decide (x < 0)%Q then "-" else EmptyString)
   ++ pretty (c / 100)%Z ++ "."
   ++ (if bool_decide (frac < 10)%Z then "0" else EmptyString)
   ++ pretty frac)%string.

Definition gates_labels (kind : string) (bin_pct bin_edges : vector)
  : list string :=
  (λ '(p, x), kind ++ ": p=" ++ fmt2 (fdiv p 100) ++ " (" ++ fmt2 x ++ ")")%string
    <$> zip bin_pct bin_edges.

Record gates_result := {
  coef_baseline : vector;
  coef_treatment : vector;
  bin_values : vector;
  bin_count : vector
}.

Definition gates {M} `{Solver} (y d prop s_hat : vector) (q : Z)
    (print_table : bool) : prog M gates_result :=
  u ← uniform (length s_hat);
  jittered ← lift (broadcast2 fadd s_hat (fmul jitter_scale <$> u));
  '(bin_indices, bin_edges, bin_pct) ← lift (quantile_grid jittered q);
  let s_onehot := zeros (length s_hat) (length bin_edges) in
  s_onehot ← lift (set_cells s_onehot (length bin_edges)
                     (seq 0 (length s_hat)) bin_indices 1%Q);
  d_prop ← lift (broadcast2 Qminus d prop);
  s_treat ← lift (mul_rows s_onehot d_prop);
  x_reg ← lift (hstack s_onehot s_treat);
  let w_reg := inv_weights prop in
  let y_reg := y in
  let labels_baseline := gates_labels "Baseline" bin_pct bin_edges in
  let labels_treatment := gates_labels "Treatment" bin_pct bin_edges in
  let labels := labels_baseline ++ labels_treatment in
  let wls := WLS y_reg x_reg None [("w"%string, w_reg)] in
  params ← WLS_fit wls;
  _ ← (if print_table then emit (EvPrint labels) else mret ());
  mret {| coef_baseline := take (length labels_baseline) params;
          coef_treatment := drop (length labels_baseline) params;
          bin_values := bin_edges;
          bin_count := sum_axis0 (length bin_edges) s_onehot |}.

(** ** combine *)

Definition quoted (s : string) : string :=
  String "034"%char (s ++ String "034"%char EmptyString).

Inductive estimation_result :=
| BLP (r : blp_result)
| GATES (r : gates_result).

Definition combine {M} `{Model M} `{Solver} (x : matrix) (y d prop : vector)
    (second_stage : string) (q : Z) (prob_m : Q) : prog M estimation_result :=
  sample ← partition d prob_m;
  '(b_hat, s_hat) ← ml_proxy x y d sample;
  if decide (second_stage = "blp") then
    y_m ← lift (mask_index y (eq_label sample "m"));
    d_m ← lift (mask_index d (eq_label sample "m"));
    prop_m ← lift (mask_index prop (eq_label sample "m"));
    b_m ← lift (mask_index b_hat (eq_label sample "m"));
    s_m ← lift (mask_index s_hat (eq_label sample "m"));
    results ← blp y_m d_m prop_m b_m s_m false;
    mret (BLP results)
  else if decide (second_stage = "gates") then
    y_m ← lift (mask_index y (eq_label sample "m"));
    d_m ← lift (mask_index d (eq_label sample "m"));
    prop_m ← lift (mask_index prop (eq_label sample "m"));
    s_m ← lift (mask_index s_hat (eq_label sample "m"));
    results ← gates y_m d_m prop_m s_m q false;
    mret (GATES results)
  else
    lift (raise (ValueError ("Argument second_stage must be " ++ quoted "blp"
                             ++ " or " ++ quoted "gates"))).

(** ** Reference collaborators

    A least-squares solver over the rationals and two small models, used to
    run the pipeline on concrete data. *)

Module Reference.

Definition dot (a b : vector) : Q := Qred (Qsum (zip_with Qmult a b)).

Definition column (X : matrix) (j : nat) : vector := (λ row, row !!! j) <$> X.

Definition width (X : matrix) : nat :=
  match X with
  | [] => 0
  | row :: _ => length row
  end.

(** The augmented system [X'WX | X'Wy] of the weighted normal equations. *)
Definition normal_equations (X : matrix) (y w : vector) : matrix :=
  (λ j, let wxj := zip_with Qmult w (column X j) in
        ((λ k, dot wxj (column X k)) <$> seq 0 (width X)) ++ [dot wxj y])
    <$> seq 0 (width X).

Definition scale (c : Q) (r : vector) : vector := (λ v, Qred (c * v)) <$> r.

Definition axpy (c : Q) (r r' : vector) : vector :=
  zip_with (λ v v', Qred (v' - c * v)) r r'.

(** The first row at or below [from] with a non-zero entry in [col]. *)
Definition find_pivot (rows : matrix) (col from : nat) : option nat :=
  head (filter (λ i, Qeq_bool ((rows !!! i) !!! col) 0 = false)
               (seq from (length rows - from))).

(** Gauss-Jordan elimination, column by column. *)
Fixpoint eliminate (cols : list nat) (rows : matrix) : option matrix :=
  match cols with
  | [] => Some rows
  | c :: cols' =>
      match find_pivot rows c c with
      | None => None
      | Some r =>
          let rows1 := swap rows c r in
          let piv := rows1 !!! c in
          let piv' := scale (/ (piv !!! c)) piv in
          let rows2 :=
            imap (λ i row, if decide (i = c) then piv'
                           else axpy (row !!! c) piv' row) rows1 in
          eliminate cols' rows2
      end
  end.

Definition solve (X : matrix) (y w : vector) : result vector :=
  if decide (length X = length y ∧ length X = length w) then
    match eliminate (seq 0 (width X)) (normal_equations X y w) with
    | Some rows => ok ((λ row, row !!! width X) <$> rows)
    | None => raise (CollaboratorError "singular matrix")
    end
  else raise (ValueError "endog and exog matrices are different sizes").

#[global] Instance rational_solver : Solver := {| lstsq := solve |}.

(** Least squares through the origin on the first feature. An empty
    training set is accepted and gives slope 0. *)
Definition slope_fit (_ : Q) (X : matrix) (y : vector) : result Q :=
  if decide (length X = length y) then
    let x1 := column X 0 in
    let sxx := dot x1 x1 in
    ok (if Qeq_bool sxx 0 then 0%Q else Qred (dot x1 y / sxx))
  else raise (ValueError "inconsistent numbers of samples").

Definition slope_predict (b : Q) (X : matrix) : result vector :=
  ok ((λ v, Qred (b * v)) <$> column X 0).

#[global] Instance slope_model : Model Q :=
  {| fit := slope_fit; predict := slope_predict |}.

(** A model that refuses an empty training set, as scikit-learn's do. *)
Inductive strict := Strict (b : Q).

Definition strict_fit (m : strict) (X : matrix) (y : vector) : result strict :=
  match X with
  | [] => raise (ValueError "Found array with 0 sample(s)")
  | _ => let 'Strict b := m in b' ← slope_fit b X y; ok (Strict b')
  end.

#[global] Instance strict_model : Model strict :=
  {| fit := strict_fit;
     predict := λ '(Strict b) X, slope_predict b X |}.

End Reference.

(** ** Vocabulary of the statements *)

(** Row [i] is treated (control): its treatment value is 1 (0). *)
Definition treated (d : vector) (i : nat) : bool :=
  match d !! i with
  | Some v => Qeq_bool v 1
  | None => false
  end.

Definition control (d : vector) (i : nat) : bool :=
  match d !! i with
  | Some v => Qeq_bool v 0
  | None => false
  end.

(** Row [i] carries the label [s]. *)
Definition labelled (sample : list string) (s : string) (i : nat) : bool :=
  bool_decide (sample !! i = Some s).

(** The rows below [n] that satisfy [P], ascending, and their number. *)
Definition rows_where (n : nat) (P : nat → bool) : list nat :=
  filter (λ i, P i = true) (seq 0 n).

Definition count (n : nat) (P : nat → bool) : nat := length (rows_where n P).

(** The entries of [a] at the rows [idx]. *)
Definition rows_at {A} (a : list A) (idx : list nat) : list A :=
  omap (λ i, a !! i) idx.

(** No two entries of [x] are equal. *)
Definition no_ties (x : vector) : Prop :=
  ∀ i j a b, x !! i = Some a → x !! j = Some b → i ≠ j → (¬ a == b)%Q.

(** The entries never decrease (strictly increase) along the array. *)
Definition increasing (e : vector) : Prop :=
  ∀ i j a b, e !! i = Some a → e !! j = Some b → i ≤ j → (a <= b)%Q.

Definition strictly_increasing (e : vector) : Prop :=
  ∀ i j a b, e !! i = Some a → e !! j = Some b → i < j → (a < b)%Q.

(** The three outputs of [quantile_grid] on a non-empty array, in closed
    form: the probabilities, the edges, and for each score the number of
    edges at or below it, less one. *)
Definition grid_pct (q : Z) : vector :=
  (λ k, inject_Z k * (100 / inject_Z q) + 0)%Q <$> seqZ 0 q.

Definition grid_edges (x : vector) (q : Z) : vector :=
  quantile_sorted (merge_sort Qle x) <$> ((λ p, p / 100)%Q <$> grid_pct q).

Definition grid_indices (x : vector) (q : Z) : list Z :=
  (λ v, Z.of_nat (length (filter (λ e, e <= v)%Q (grid_edges x q))) - 1)%Z
    <$> x.

(** The design matrix of the best linear predictor, row by row: intercept,
    baseline proxy, [D - P], and [D - P] times the centred effect proxy. *)
Definition blp_design (d prop b_hat s_hat : vector) : matrix :=
  (λ i, [1; b_hat !!! i; d !!! i - prop !!! i;
         (d !!! i - prop !!! i) * (s_hat !!! i - mean s_hat)]%Q)
    <$> seq 0 (length d).

(** The weights the regression is meant to use: [1 / (P (1 - P))]. *)
Definition propensity_weights (prop : vector) : vector :=
  (λ p, / (p * (1 - p)))%Q <$> prop.

(** A program that ends in an exception from every world. *)
Definition always_raises {M A} (p : prog M A) : Prop :=
  ∀ w, ∃ e w', p w = (inl e, w').

(** The scores [gates] hands to [quantile_grid]: each score plus [1e-16]
    times its uniform draw, product and sum rounded to doubles. *)
Definition jittered (s_hat us : vector) : vector :=
  zip_with fadd s_hat (fmul jitter_scale <$> us).

(** Row of the indicator matrix for a score in bin [j] of [q]. *)
Definition one_hot (q : nat) (j : Z) : vector :=
  <[Z.to_nat j := 1%Q]> (replicate q 0%Q).

(** The design matrix of the group regression, row by row: the indicator
    row of the bin, then the same row times [D - P]. *)
Definition gates_design (bins : list Z) (d prop : vector) (q : nat) : matrix :=
  zip_with (λ j c, one_hot q j ++ ((λ v, v * c)%Q <$> one_hot q j))
    bins (zip_with Qminus d prop).

(** A step that leaves the model and the log alone. *)
Definition quiet {M} (w w' : world M) : Prop :=
  model w' = model w ∧ trace w' = trace w.

(** * Properties *)

(** ** Running programs *)

Lemma run_bind {M A B} (p : prog M A) (k : A → prog M B) w :
  (p ≫= k) w = match p w with
               | (inl e, w') => (inl e, w')
               | (inr a, w') => k a w'
               end.
Proof. reflexivity. Qed.

Lemma run_bind_ok {M A B} (p : prog M A) (k : A → prog M B) w a w' :
  p w = (inr a, w') → (p ≫= k) w = k a w'.
Proof. intros Hp. rewrite run_bind, Hp. reflexivity. Qed.

Lemma run_bind_raise {M A B} (p : prog M A) (k : A → prog M B) w e w' :
  p w = (inl e, w') → (p ≫= k) w = (inl e, w').
Proof. intros Hp. rewrite run_bind, Hp. reflexivity. Qed.

Lemma run_lift_ok {M A B} (r : result A) (k : A → prog M B) w a :
  r = inr a → (lift r ≫= k) w = k a w.
Proof. intros ->. reflexivity. Qed.

Lemma run_lift_raise {M A B} (r : result A) (k : A → prog M B) w e :
  r = inl e → (lift r ≫= k) w = (inl e, w).
Proof. intros ->. reflexivity. Qed.

(** ** The random source *)

Section random.
Context {M : Type}.
Implicit Types w : world M.

Lemma quiet_refl w : quiet w w.
Proof. done. Qed.

Lemma quiet_trans w1 w2 w3 : quiet w1 w2 → quiet w2 w3 → quiet w1 w3.
Proof. intros [? ?] [? ?]. split; congruence. Qed.

Lemma next_word_spec w : ∃ r w', next_word w = (inr r, w') ∧ quiet w w'.
Proof.
  unfold next_word. destruct (rng w) as [|r rest]; eauto using quiet_refl.
  eexists _, _. split; [done|]. done.
Qed.

Lemma random_interval_spec max w :
  ∃ j w', random_interval max w = (inr j, w') ∧ j ≤ max ∧ quiet w w'.
Proof.
  destruct (next_word_spec w) as (r & w' & Hr & Hq).
  exists (r mod S max), w'. split; [|split; [|done]].
  - unfold random_interval. by rewrite (run_bind_ok _ _ _ _ _ Hr).
  - pose proof (Nat.mod_upper_bound r (S max)). lia.
Qed.

Lemma swap_length {A} (x : list A) i j : length (swap x i j) = length x.
Proof.
  unfold swap. destruct (x !! i), (x !! j); try done.
  by rewrite !length_insert.
Qed.

Lemma swap_lookup {A} (x : list A) i j k :
  i < length x → j < length x →
  swap x i j !! k =
    x !! (if decide (k = i) then j else if decide (k = j) then i else k).
Proof.
  intros Hi Hj. unfold swap.
  destruct (lookup_lt_is_Some_2 x i Hi) as [xi Hxi].
  destruct (lookup_lt_is_Some_2 x j Hj) as [xj Hxj].
  rewrite Hxi, Hxj.
  destruct (decide (k = i)) as [->|Hki].
  - rewrite list_lookup_insert_eq by (by rewrite length_insert). done.
  - rewrite list_lookup_insert_ne by done.
    destruct (decide (k = j)) as [->|Hkj].
    + by rewrite list_lookup_insert_eq.
    + by rewrite list_lookup_insert_ne.
Qed.

Lemma swap_Permutation {A} (x : list A) i j : swap x i j ≡ₚ x.
Proof.
  destruct (decide (i < length x ∧ j < length x)) as [[Hi Hj]|Hout].
  - apply Permutation_inj. split; [apply swap_length|].
    exists (λ k, if decide (k = i) then j
                 else if decide (k = j) then i else k).
    split; [|intros k; by apply swap_lookup].
    intros a b. repeat case_decide; intros; subst; congruence.
  - unfold swap.
    destruct (x !! i) eqn:Hxi; [|done].
    destruct (x !! j) eqn:Hxj; [|done].
    apply lookup_lt_Some in Hxi, Hxj. lia.
Qed.

Lemma shuffle_from_spec {A} i (x : list A) w :
  ∃ x' w', shuffle_from i x w = (inr x', w') ∧ x' ≡ₚ x ∧ quiet w w'.
Proof.
  revert x w. induction i as [|i IH]; intros x w.
  - exists x, w. done.
  - destruct (random_interval_spec (S i) w) as (j & w1 & Hj & _ & Hq1).
    destruct (IH (swap x (S i) j) w1) as (x' & w2 & Hrun & Hperm & Hq2).
    exists x', w2. split; [|split].
    + simpl. by rewrite (run_bind_ok _ _ _ _ _ Hj).
    + by rewrite Hperm, swap_Permutation.
    + by eapply quiet_trans.
Qed.

Lemma permutation_spec n w :
  ∃ idx w', permutation n w = (inr idx, w') ∧ idx ≡ₚ seq 0 n ∧ quiet w w'.
Proof. apply shuffle_from_spec. Qed.

End random.

(** ** Indexing *)

Lemma take_idx_spec {A} (a : list A) (idx : list nat) :
  NoDup a → NoDup idx → Forall (λ i, i < length a) idx →
  NoDup (take_idx a idx) ∧ length (take_idx a idx) = length idx
  ∧ take_idx a idx ⊆ a.
Proof.
  intros Ha Hidx Hlt. unfold take_idx.
  induction idx as [|i idx IH]; simpl.
  { split; [constructor|]. split; [done|]. apply list_subseteq_nil. }
  apply NoDup_cons in Hidx as [Hi Hidx].
  apply Forall_cons in Hlt as [Hia Hlt].
  destruct (IH Hidx Hlt) as (IH1 & IH2 & IH3).
  destruct (lookup_lt_is_Some_2 a i Hia) as [x Hx]. rewrite Hx. simpl.
  split; [|split].
  - apply NoDup_cons. split; [|done].
    intros (j & Hj & Hxj)%list_elem_of_omap.
    assert (i = j) by (by apply (NoDup_lookup a i j x)). by subst.
  - simpl. f_equal. exact IH2.
  - intros y [->|Hy]%elem_of_cons; [|by apply IH3].
    by eapply list_elem_of_lookup_2.
Qed.

Lemma foldl_insert_spec {A} (v : A) (idx : list nat) (b : list A) :
  Forall (λ i, i < length b) idx →
  let b' := foldl (λ acc i, <[i := v]> acc) b idx in
  length b' = length b
  ∧ (∀ i, i ∈ idx → b' !! i = Some v)
  ∧ (∀ i, i ∉ idx → b' !! i = b !! i).
Proof.
  revert b. induction idx as [|j idx IH]; intros b Hlt; simpl.
  { split; [done|]. split; [|done]. by intros i ?%elem_of_nil. }
  apply Forall_cons in Hlt as [Hj Hlt].
  destruct (IH (<[j := v]> b)) as (IH1 & IH2 & IH3).
  { by rewrite length_insert. }
  rewrite length_insert in IH1. split; [done|]. split.
  - intros i Hi. destruct (decide (i ∈ idx)) as [Hin|Hnin]; [by apply IH2|].
    apply elem_of_cons in Hi as [->|?]; [|done].
    rewrite IH3 by done. by apply list_lookup_insert_eq.
  - intros i Hi. apply not_elem_of_cons in Hi as [Hij Hi].
    rewrite IH3 by done. by apply list_lookup_insert_ne.
Qed.

Lemma set_items_ok {A} (a : list A) (idx : list nat) (v : A) :
  Forall (λ i, i < length a) idx →
  ∃ a', set_items a idx v = inr a'
    ∧ length a' = length a
    ∧ (∀ i, i ∈ idx → a' !! i = Some v)
    ∧ (∀ i, i ∉ idx → a' !! i = a !! i).
Proof.
  intros Hlt. unfold set_items. rewrite decide_True by done.
  eexists. split; [done|]. by apply foldl_insert_spec.
Qed.

Lemma where_elem (mask : list bool) i :
  i ∈ where_ mask ↔ mask !! i = Some true.
Proof.
  unfold where_. rewrite list_elem_of_filter, elem_of_seq. split.
  - by intros [? _].
  - intros Hi. split; [done|]. apply lookup_lt_Some in Hi. lia.
Qed.

Lemma where_NoDup (mask : list bool) : NoDup (where_ mask).
Proof. apply NoDup_filter, NoDup_seq. Qed.

Lemma where_lt (mask : list bool) :
  Forall (λ i, i < length mask) (where_ mask).
Proof.
  apply Forall_forall. intros i Hi%where_elem. by eapply lookup_lt_Some.
Qed.

Lemma where_treated d i : i ∈ where_ (eq_scalar d 1) ↔ treated d i = true.
Proof.
  rewrite where_elem. unfold eq_scalar, treated. rewrite list_lookup_fmap.
  destruct (d !! i); simpl; [|done]. split; congruence.
Qed.

Lemma where_control d i : i ∈ where_ (eq_scalar d 0) ↔ control d i = true.
Proof.
  rewrite where_elem. unfold eq_scalar, control. rewrite list_lookup_fmap.
  destruct (d !! i); simpl; [|done]. split; congruence.
Qed.

Lemma rows_where_elem n P i : i ∈ rows_where n P ↔ P i = true ∧ i < n.
Proof.
  unfold rows_where. rewrite list_elem_of_filter, elem_of_seq.
  split; intros [? ?]; split; first [done | lia].
Qed.

Lemma rows_where_NoDup n P : NoDup (rows_where n P).
Proof. apply NoDup_filter, NoDup_seq. Qed.

(** Counting the rows that satisfy [P] is counting any duplicate-free
    list with the same members. *)
Lemma count_members n P (l : list nat) :
  NoDup l → (∀ i, i ∈ l ↔ P i = true ∧ i < n) → count n P = length l.
Proof.
  intros Hl Hmem. unfold count. apply Permutation_length.
  apply NoDup_Permutation; [apply rows_where_NoDup|done|].
  intros i. by rewrite rows_where_elem, Hmem.
Qed.

Lemma treated_lt d i : treated d i = true → i < length d.
Proof.
  unfold treated. destruct (d !! i) eqn:Hi; [|done].
  intros _. by eapply lookup_lt_Some.
Qed.

Lemma control_lt d i : control d i = true → i < length d.
Proof.
  unfold control. destruct (d !! i) eqn:Hi; [|done].
  intros _. by eapply lookup_lt_Some.
Qed.

Lemma count_treated d :
  count (length d) (treated d) = length (where_ (eq_scalar d 1)).
Proof.
  apply count_members; [apply where_NoDup|].
  intros i. rewrite where_treated. split; [|by intros [? _]].
  intros Hi. split; [done|]. by apply treated_lt.
Qed.

Lemma count_control d :
  count (length d) (control d) = length (where_ (eq_scalar d 0)).
Proof.
  apply count_members; [apply where_NoDup|].
  intros i. rewrite where_control. split; [|by intros [? _]].
  intros Hi. split; [done|]. by apply control_lt.
Qed.

Lemma treated_not_control d i : treated d i = true → control d i = false.
Proof.
  unfold treated, control. destruct (d !! i) as [v|]; [|done].
  intros H1%Qeq_bool_iff. apply not_true_is_false.
  intros H0%Qeq_bool_iff. rewrite H1 in H0. discriminate.
Qed.

(** ** choice *)

(** ** Double precision: the laws of rounding *)

Lemma pow2_pos (e : Z) : (0 < 2 ^ e)%Q.
Proof. by apply Qpower_0_lt. Qed.

Lemma pow2_plus (a b : Z) : (2 ^ (a + b) == 2 ^ a * 2 ^ b)%Q.
Proof. by apply Qpower_plus. Qed.

Lemma pow2_succ (e : Z) : (2 ^ (e + 1) == 2 * 2 ^ e)%Q.
Proof. rewrite pow2_plus. change (2 ^ 1)%Q with 2%Q. ring. Qed.

Lemma pow2_inject (k : Z) : (0 ≤ k)%Z → (inject_Z (2 ^ k) == 2 ^ k)%Q.
Proof. intros Hk. by rewrite Zpower_Qpower. Qed.

Lemma pow2_le (a b : Z) : (a ≤ b)%Z → (2 ^ a <= 2 ^ b)%Q.
Proof. intros Hab. by apply Qpower_le_compat_l. Qed.

Lemma pow2_lt_inv (a b : Z) : (2 ^ a < 2 ^ b)%Q → (a < b)%Z.
Proof. intros Hab. by apply (Qpower_lt_compat_l_inv 2). Qed.

Lemma binade_spec (x : Q) :
  (0 < x)%Q → (2 ^ binade x <= x ∧ x < 2 ^ (binade x + 1))%Q.
Proof.
  intros Hx. unfold binade.
  destruct x as [n d]. simpl Qnum. simpl Qden.
  assert (0 < n)%Z as Hn by (unfold Qlt in Hx; simpl in Hx; lia).
  set (ln := Z.log2 n). set (ld := Z.log2 (Z.pos d)).
  destruct (Z.log2_spec n Hn) as [Hn1 Hn2]. fold ln in Hn1, Hn2.
  destruct (Z.log2_spec (Z.pos d) ltac:(lia)) as [Hd1 Hd2].
  fold ld in Hd1, Hd2.
  assert (0 ≤ ln)%Z as Hln by apply Z.log2_nonneg.
  assert (0 ≤ ld)%Z as Hld by apply Z.log2_nonneg.
  rewrite Zle_Qle in Hn1, Hd1. rewrite Zlt_Qlt in Hn2, Hd2.
  rewrite pow2_inject in Hn1, Hd1 by done.
  rewrite pow2_inject in Hn2, Hd2 by lia.
  unfold Z.succ in Hn2, Hd2. rewrite pow2_succ in Hn2, Hd2.
  assert (2 ^ (ln - ld) * 2 ^ ld == 2 ^ ln)%Q as He.
  { rewrite <- pow2_plus. by replace (ln - ld + ld)%Z with ln by lia. }
  pose proof (pow2_pos (ln - ld)) as HE. pose proof (pow2_pos ld) as HL.
  pose proof (pow2_pos ln) as HA.
  assert (n # d == inject_Z n / inject_Z (Z.pos d))%Q as Hq
    by apply Qmake_Qdiv.
  assert (0 < inject_Z (Z.pos d))%Q as HD.
  { change 0%Q with (inject_Z 0). rewrite <- Zlt_Qlt. lia. }
  assert (inject_Z n == (n # d) * inject_Z (Z.pos d))%Q as Hnd.
  { rewrite Hq. field. lra. }
  set (N := inject_Z n) in *. set (D := inject_Z (Z.pos d)) in *.
  set (X := (n # d)%Q) in *.
  set (E := (2 ^ (ln - ld))%Q) in *. set (L := (2 ^ ld)%Q) in *.
  set (A := (2 ^ ln)%Q) in *.
  assert (X < 2 * E)%Q as Hup.
  { destruct (Qlt_le_dec X (2 * E)) as [|Hge]; [done|]. exfalso. nra. }
  destruct (decide (E <= X)%Q) as [Hle|Hgt].
  - split; [done|]. by rewrite pow2_succ.
  - replace (ln - ld - 1 + 1)%Z with (ln - ld)%Z by lia. fold E.
    apply Qnot_le_lt in Hgt. split; [|done].
    pose proof (pow2_succ (ln - ld - 1)) as Hhalf.
    replace (ln - ld - 1 + 1)%Z with (ln - ld)%Z in Hhalf by lia.
    fold E in Hhalf.
    destruct (Qlt_le_dec X (2 ^ (ln - ld - 1))) as [Hlt|]; [|done].
    exfalso. pose proof (pow2_pos (ln - ld - 1)). nra.
Qed.

Lemma binade_unique (x : Q) (e : Z) :
  (2 ^ e <= x)%Q → (x < 2 ^ (e + 1))%Q → binade x = e.
Proof.
  intros Hlo Hhi.
  assert (0 < x)%Q as Hx by (pose proof (pow2_pos e); lra).
  destruct (binade_spec x Hx) as [Hlo' Hhi'].
  assert (binade x < e + 1)%Z by (apply pow2_lt_inv; lra).
  assert (e < binade x + 1)%Z by (apply pow2_lt_inv; lra).
  lia.
Qed.

Lemma binade_mono (x y : Q) :
  (0 < x)%Q → (x <= y)%Q → (binade x ≤ binade y)%Z.
Proof.
  intros Hx Hxy.
  destruct (binade_spec x Hx) as [Hlo _].
  destruct (binade_spec y ltac:(lra)) as [_ Hhi].
  assert (binade x < binade y + 1)%Z by (apply pow2_lt_inv; lra).
  lia.
Qed.

Lemma binade_proper (x y : Q) :
  (0 < x)%Q → (x == y)%Q → binade x = binade y.
Proof.
  intros Hx Hxy. symmetry.
  destruct (binade_spec x Hx). apply binade_unique; lra.
Qed.

Lemma round_half_even_bounds (x : Q) :
  (Qfloor x ≤ round_half_even x ≤ Qfloor x + 1)%Z.
Proof. unfold round_half_even. repeat case_decide; try destruct (Z.even _); lia. Qed.

Lemma round_half_even_Z (z : Z) : round_half_even (inject_Z z) = z.
Proof.
  unfold round_half_even. rewrite Qfloor_Z.
  rewrite decide_True; [done|]. ring_simplify (inject_Z z - inject_Z z)%Q.
  reflexivity.
Qed.

Lemma round_half_even_proper (x y : Q) :
  (x == y)%Q → round_half_even x = round_half_even y.
Proof.
  intros Hxy. unfold round_half_even.
  rewrite (Qfloor_comp _ _ Hxy).
  repeat case_decide; try done; exfalso; lra.
Qed.

Lemma round_half_even_mono (x y : Q) :
  (x <= y)%Q → (round_half_even x ≤ round_half_even y)%Z.
Proof.
  intros Hxy.
  pose proof (Qfloor_resp_le _ _ Hxy) as Hf.
  pose proof (round_half_even_bounds x). pose proof (round_half_even_bounds y).
  destruct (decide (Qfloor x = Qfloor y)) as [Heq|Hne]; [|lia].
  unfold round_half_even in *. rewrite <- Heq in *.
  repeat case_decide; try destruct (Z.even _); try lia; exfalso; lra.
Qed.

Lemma round_half_even_nonneg (x : Q) : (0 <= x)%Q → (0 ≤ round_half_even x)%Z.
Proof.
  intros Hx. pose proof (round_half_even_bounds x).
  pose proof (Qfloor_resp_le _ _ Hx) as Hf. change (Qfloor 0) with 0%Z in Hf.
  lia.
Qed.

Lemma ulp_of_pos (x : Q) :
  (0 < x)%Q → ulp x = (2 ^ ((binade x - 52) `max` (-1074)))%Q.
Proof.
  intros Hx. unfold ulp. rewrite (binade_proper (Qabs x) x); [done| |].
  - rewrite Qabs_pos; lra.
  - apply Qabs_pos. lra.
Qed.

Lemma ulp_pos (x : Q) : (0 < ulp x)%Q.
Proof. apply pow2_pos. Qed.

Lemma ulp_proper (x y : Q) : (0 < x)%Q → (x == y)%Q → ulp x = ulp y.
Proof.
  intros Hx Hxy. unfold ulp.
  rewrite (binade_proper (Qabs x) (Qabs y)); [done| |by rewrite Hxy].
  rewrite Qabs_pos; lra.
Qed.

Lemma round64_zero (x : Q) : (x == 0)%Q → round64 x = 0%Q.
Proof.
  intros Hx. unfold round64.
  assert (x / ulp x == inject_Z 0)%Q as Hq.
  { unfold Qdiv. generalize (/ ulp x)%Q. intros u. rewrite Hx. ring. }
  rewrite (round_half_even_proper _ _ Hq), round_half_even_Z.
  change 0%Q with (Qred 0). apply Qred_complete. ring.
Qed.

(** Rounding depends on the value only, not on how the fraction is
    written. *)
Lemma round64_proper (x y : Q) : (0 <= x)%Q → (x == y)%Q → round64 x = round64 y.
Proof.
  intros Hx Hxy.
  destruct (Qeq_dec x 0) as [H0|H0].
  { rewrite (round64_zero x H0), (round64_zero y); [done|]. by rewrite <- Hxy. }
  assert (0 < x)%Q as Hpos.
  { apply Qle_lteq in Hx as [|Heq]; [done|]. by symmetry in Heq. }
  unfold round64. rewrite (ulp_proper x y Hpos Hxy).
  apply Qred_complete.
  rewrite (round_half_even_proper (x / ulp y) (y / ulp y)); [done|].
  by rewrite Hxy.
Qed.

Lemma round64_eq (x : Q) :
  (round64 x == inject_Z (round_half_even (x / ulp x)) * ulp x)%Q.
Proof. unfold round64. apply Qred_correct. Qed.

Lemma round64_nonneg (x : Q) : (0 <= x)%Q → (0 <= round64 x)%Q.
Proof.
  intros Hx. rewrite round64_eq. pose proof (ulp_pos x) as Hu.
  assert (0 <= x / ulp x)%Q as Hq.
  { apply Qle_shift_div_l; [done|]. lra. }
  apply round_half_even_nonneg in Hq. rewrite Zle_Qle in Hq.
  change (inject_Z 0) with 0%Q in Hq. nra.
Qed.

(** A value that is a whole multiple of its own spacing is a double. *)
Lemma round64_exact (x : Q) (m : Z) :
  (x == inject_Z m * ulp x)%Q → (round64 x == x)%Q.
Proof.
  intros Hx. rewrite round64_eq. pose proof (ulp_pos x) as Hu.
  assert (x / ulp x == inject_Z m)%Q as Hq.
  { rewrite Hx at 1. field. lra. }
  rewrite (round_half_even_proper _ _ Hq), round_half_even_Z. by rewrite <- Hx.
Qed.

(** Rounding never reverses the order of two non-negative values. *)
Lemma round64_mono (x y : Q) :
  (0 <= x)%Q → (x <= y)%Q → (round64 x <= round64 y)%Q.
Proof.
  intros Hx Hxy.
  destruct (Qeq_dec x 0) as [H0|H0].
  { rewrite (round64_zero x H0). apply round64_nonneg. lra. }
  assert (0 < x)%Q as Hpos.
  { apply Qle_lteq in Hx as [|Heq]; [done|]. by symmetry in Heq. }
  assert (0 < y)%Q as Hposy by lra.
  rewrite !round64_eq, !ulp_of_pos by done.
  pose proof (binade_mono x y Hpos Hxy) as Hb.
  destruct (binade_spec x Hpos) as [Hxl Hxu].
  destruct (binade_spec y Hposy) as [Hyl Hyu].
  set (kx := ((binade x - 52) `max` (-1074))%Z).
  set (ky := ((binade y - 52) `max` (-1074))%Z).
  assert (kx ≤ ky)%Z as Hk by (unfold kx, ky; lia).
  pose proof (pow2_pos kx) as Hux. pose proof (pow2_pos ky) as Huy.
  destruct (decide (kx = ky)) as [Heq|Hne].
  - rewrite Heq.
    assert (x / 2 ^ ky <= y / 2 ^ ky)%Q as Hq.
    { apply Qle_shift_div_l; [done|].
      assert (x / 2 ^ ky * 2 ^ ky == x)%Q as -> by (field; lra). done. }
    apply round_half_even_mono in Hq. rewrite Zle_Qle in Hq. nra.
  - assert (ky = binade y - 52)%Z as Hky by (unfold kx, ky in *; lia).
    assert (binade x + 1 ≤ binade y)%Z as Hbin by (unfold kx, ky in *; lia).
    (* both sides are compared with 2^(binade y) *)
    set (e := binade y) in *.
    assert (2 ^ e == inject_Z (2 ^ (e - kx)) * 2 ^ kx)%Q as Hex.
    { rewrite pow2_inject by lia. rewrite <- pow2_plus.
      by replace (e - kx + kx)%Z with e by lia. }
    assert (2 ^ e == inject_Z (2 ^ 52) * 2 ^ ky)%Q as Hey.
    { rewrite pow2_inject by lia. rewrite <- pow2_plus.
      by replace (52 + ky)%Z with e by lia. }
    assert (x <= 2 ^ e)%Q as Hxe.
    { pose proof (pow2_le (binade x + 1) e Hbin). lra. }
    assert (x / 2 ^ kx <= inject_Z (2 ^ (e - kx)))%Q as Hqx.
    { apply Qle_shift_div_r; [done|]. lra. }
    apply round_half_even_mono in Hqx. rewrite round_half_even_Z in Hqx.
    assert (inject_Z (2 ^ 52) <= y / 2 ^ ky)%Q as Hqy.
    { apply Qle_shift_div_l; [done|]. lra. }
    apply round_half_even_mono in Hqy. rewrite round_half_even_Z in Hqy.
    rewrite Zle_Qle in Hqx, Hqy.
    apply (Qle_trans _ (2 ^ e)); [rewrite Hex|rewrite Hey]; nra.
Qed.

Lemma Qred_inject_Z (z : Z) : Qred (inject_Z z) = inject_Z z.
Proof.
  unfold Qred, inject_Z.
  pose proof (Z.ggcd_gcd z 1) as Hg.
  pose proof (Z.ggcd_correct_divisors z 1) as Hd.
  destruct (Z.ggcd z 1) as [g [a b]]. simpl in *.
  rewrite Z.gcd_1_r in Hg. subst g. destruct Hd as [Ha Hb].
  f_equal; [lia|]. assert (b = 1%Z) as -> by lia. done.
Qed.

(** Whole numbers up to [2^53] are doubles. *)
Lemma round64_nat (n : nat) :
  (Z.of_nat n ≤ 2 ^ 53)%Z → round64 (inject_Z (Z.of_nat n)) = inject_Z (Z.of_nat n).
Proof.
  intros Hn. destruct (decide (n = 0)) as [->|Hn0]; [done|].
  set (z := Z.of_nat n) in *. assert (0 < z)%Z as Hz by lia.
  assert (round64 (inject_Z z) == inject_Z z)%Q as Heq.
  { destruct (Z.log2_spec z Hz) as [Hl1 Hl2]. set (l := Z.log2 z) in *.
    assert (0 ≤ l)%Z as Hl0 by apply Z.log2_nonneg.
    assert (l ≤ 53)%Z as Hl53.
    { destruct (decide (l ≤ 53)%Z); [done|]. exfalso.
      assert (2 ^ 54 ≤ 2 ^ l)%Z by (apply Z.pow_le_mono_r; lia). lia. }
    assert (binade (inject_Z z) = l) as Hb.
    { apply binade_unique.
      - rewrite <- pow2_inject by done. by rewrite <- Zle_Qle.
      - rewrite <- pow2_inject by lia. by rewrite <- Zlt_Qlt. }
    assert (ulp (inject_Z z) = 2 ^ (l - 52))%Q as Hu.
    { rewrite ulp_of_pos, Hb.
      - by replace ((l - 52) `max` (-1074))%Z with (l - 52)%Z by lia.
      - change 0%Q with (inject_Z 0). rewrite <- Zlt_Qlt. lia. }
    destruct (decide (l ≤ 52)%Z) as [Hsmall|Hbig].
    - apply (round64_exact _ (z * 2 ^ (52 - l))). rewrite Hu.
      rewrite inject_Z_mult, pow2_inject by lia.
      rewrite <- Qmult_assoc, <- pow2_plus.
      replace (52 - l + (l - 52))%Z with 0%Z by lia.
      change (2 ^ 0)%Q with 1%Q. ring.
    - assert (l = 53%Z) as Hl by lia. rewrite Hl in *.
      assert (z = 2 ^ 53)%Z as -> by lia.
      apply (round64_exact _ (2 ^ 52)). rewrite Hu. reflexivity. }
  rewrite <- (Qred_inject_Z z) at 2. unfold round64 in *.
  apply Qred_complete.
  etransitivity; [symmetry; apply Qred_correct|exact Heq].
Qed.

(** The double written 0.7 lies just below 7/10, yet ten times it rounds
    to 7; the double written 0.58 times fifty rounds to a double below 29;
    and adding [1e-16] times a draw below 1 to a score of 1 changes
    nothing. *)
Example round64_seven_tenths :
  round64 (7 # 10) = (3152519739159347 # 4503599627370496)%Q
  ∧ fmul (round64 (7 # 10)) (float_of_nat 10) = 7%Q.
Proof. split; vm_compute; reflexivity. Qed.

Example round64_fifty_eight_hundredths :
  Qfloor (fmul (round64 (58 # 100)) (float_of_nat 50)) = 28%Z
  ∧ Qfloor ((58 # 100) * 50) = 29%Z.
Proof. split; vm_compute; reflexivity. Qed.

Example jitter_absorbed :
  fadd 1 (fmul jitter_scale (9007199254740991 # 9007199254740992)) = 1%Q.
Proof. vm_compute. reflexivity. Qed.

(** ** The size of a draw *)

Lemma float_of_nat_exact (n : nat) :
  (Z.of_nat n ≤ 2 ^ 53)%Z → float_of_nat n = inject_Z (Z.of_nat n).
Proof. apply round64_nat. Qed.

Lemma fmul_nat (p : Q) (n : nat) :
  (0 <= p)%Q → (Z.of_nat n ≤ 2 ^ 53)%Z →
  fmul p (float_of_nat n) = round64 (p * inject_Z (Z.of_nat n)).
Proof. intros Hp Hn. unfold fmul. by rewrite float_of_nat_exact. Qed.

(** For a share in [0, 1] and at most [2^53] rows the size of the draw is
    between 0 and the number of rows. *)
Lemma main_size_bounds (p : Q) (rows : list nat) :
  (0 <= p <= 1)%Q → (Z.of_nat (length rows) ≤ 2 ^ 53)%Z →
  (0 ≤ main_size p rows ≤ Z.of_nat (length rows))%Z.
Proof.
  intros [Hp0 Hp1] Hn. unfold main_size, floor_int.
  rewrite fmul_nat by done. set (n := length rows) in *.
  assert (0 <= inject_Z (Z.of_nat n))%Q as Hn0.
  { change 0%Q with (inject_Z 0). rewrite <- Zle_Qle. lia. }
  split.
  - change 0%Z with (Qfloor 0). apply Qfloor_resp_le, round64_nonneg. nra.
  - rewrite <- (Qfloor_Z (Z.of_nat n)) at 2. apply Qfloor_resp_le.
    rewrite <- (round64_nat n Hn) at 2. apply round64_mono; nra.
Qed.

(** Rounding the product before the floor changes the floor by at most
    one, and only upwards. *)
Lemma main_size_near_floor (p : Q) (rows : list nat) :
  (0 <= p <= 1)%Q → (Z.of_nat (length rows) ≤ 2 ^ 53)%Z →
  let exact := Qfloor (p * inject_Z (Z.of_nat (length rows))) in
  (exact ≤ main_size p rows ≤ exact + 1)%Z.
Proof.
  intros Hp Hn exact. pose proof (main_size_bounds p rows Hp Hn) as Hb.
  destruct Hp as [Hp0 Hp1]. unfold main_size, floor_int in *.
  rewrite fmul_nat in * by done. set (n := length rows) in *.
  set (x := (p * inject_Z (Z.of_nat n))%Q) in *.
  assert (0 <= inject_Z (Z.of_nat n))%Q as Hn0.
  { change 0%Q with (inject_Z 0). rewrite <- Zle_Qle. lia. }
  assert (0 <= x)%Q as Hx0 by (unfold x; nra).
  assert (x <= inject_Z (Z.of_nat n))%Q as Hxn by (unfold x; nra).
  assert (0 ≤ exact ≤ Z.of_nat n)%Z as He.
  { unfold exact. split.
    - change 0%Z with (Qfloor 0). by apply Qfloor_resp_le.
    - rewrite <- (Qfloor_Z (Z.of_nat n)). by apply Qfloor_resp_le. }
  assert (∀ m : Z, (0 ≤ m ≤ Z.of_nat n)%Z →
            round64 (inject_Z m) = inject_Z m) as Hwhole.
  { intros m Hm. rewrite <- (Z2Nat.id m) by lia. apply round64_nat. lia. }
  split.
  - rewrite <- (Qfloor_Z exact). apply Qfloor_resp_le.
    rewrite <- (Hwhole exact He).
    apply round64_mono.
    + change 0%Q with (inject_Z 0). rewrite <- Zle_Qle. lia.
    + apply Qfloor_le.
  - destruct (decide (exact + 1 ≤ Z.of_nat n)%Z) as [Hin|Hout]; [|lia].
    rewrite <- (Qfloor_Z (exact + 1)). apply Qfloor_resp_le.
    rewrite <- (Hwhole (exact + 1)%Z) by lia.
    apply round64_mono; [done|]. apply Qlt_le_weak, Qlt_floor.
Qed.

Section choice.
Context {M : Type}.
Implicit Types w : world M.

Lemma choice_ok (a : list nat) (size : Z) w :
  NoDup a → (0 ≤ size ≤ Z.of_nat (length a))%Z →
  ∃ out w', choice a size w = (inr out, w')
    ∧ NoDup out ∧ out ⊆ a ∧ length out = Z.to_nat size
    ∧ model w' = model w
    ∧ trace w' = trace w ++ [EvChoice a size out].
Proof.
  intros Ha Hsize. unfold choice.
  assert (bool_decide (length a = 0) && negb (bool_decide (size = 0%Z))
          = false) as ->.
  { apply andb_false_iff. destruct (decide (length a = 0)) as [H0|H0].
    - right. rewrite bool_decide_eq_true_2 by lia. done.
    - left. by apply bool_decide_eq_false_2. }
  rewrite bool_decide_eq_false_2 by lia.
  rewrite bool_decide_eq_false_2 by lia.
  destruct (permutation_spec (length a) w) as (idx & w1 & Hrun & Hperm & Hq).
  rewrite (run_bind_ok _ _ _ _ _ Hrun).
  assert (NoDup idx) as Hnd by (rewrite Hperm; apply NoDup_seq).
  assert (Forall (λ i, i < length a) idx) as Hlt.
  { apply Forall_forall. intros i Hi. rewrite Hperm in Hi.
    apply elem_of_seq in Hi. lia. }
  assert (length idx = length a) as Hlen.
  { by rewrite Hperm, length_seq. }
  destruct (take_idx_spec a (take (Z.to_nat size) idx)) as (H1 & H2 & H3).
  { done. }
  { eapply sublist_NoDup; [done|apply sublist_take]. }
  { by apply Forall_take. }
  eexists _, _. split; [reflexivity|]. simpl.
  destruct Hq as [Hm Ht].
  split; [done|]. split; [done|]. split; [|split; [done|by rewrite Ht]].
  rewrite H2, length_take. lia.
Qed.

Lemma choice_inv (a : list nat) (size : Z) w out w' :
  choice a size w = (inr out, w') →
  (0 ≤ size ≤ Z.of_nat (length a))%Z.
Proof.
  unfold choice. repeat case_bool_decide; simpl;
    try (intros [=]; fail); try (rewrite ?andb_false_r; intros [=]; fail).
  all: intros _; lia.
Qed.

End choice.

(** ** partition *)

Section partition.
Context {M : Type}.
Implicit Types w : world M.

(** What a run of [partition] looks like once both sample sizes fit
    their populations. *)
Lemma partition_run (d : vector) (prob_m : Q) w :
  let rt := where_ (eq_scalar d 1) in
  let rc := where_ (eq_scalar d 0) in
  let st := main_size prob_m rt in
  let sc := main_size prob_m rc in
  (0 ≤ st ≤ Z.of_nat (length rt))%Z →
  (0 ≤ sc ≤ Z.of_nat (length rc))%Z →
  ∃ tm cm sample w',
    partition d prob_m w = (inr sample, w')
    ∧ model w' = model w
    ∧ trace w' = trace w ++ [EvChoice rt st tm; EvChoice rc sc cm]
    ∧ (NoDup tm ∧ tm ⊆ rt ∧ length tm = Z.to_nat st)
    ∧ (NoDup cm ∧ cm ⊆ rc ∧ length cm = Z.to_nat sc)
    ∧ length sample = length d
    ∧ (∀ i, i ∈ tm ++ cm → sample !! i = Some "m"%string)
    ∧ (∀ i, i < length d → i ∉ tm ++ cm → sample !! i = Some "a"%string).
Proof.
  intros rt rc st sc Hst Hsc.
  destruct (choice_ok rt st w (where_NoDup _) Hst)
    as (tm & w1 & Hrun1 & Htm1 & Htm2 & Htm3 & Hm1 & Ht1).
  destruct (choice_ok rc sc w1 (where_NoDup _) Hsc)
    as (cm & w2 & Hrun2 & Hcm1 & Hcm2 & Hcm3 & Hm2 & Ht2).
  assert (Forall (λ i, i < length (replicate (length d) "a"%string))
            (tm ++ cm)) as Hlt.
  { rewrite length_replicate. apply Forall_app. split.
    - apply Forall_forall. intros i Hi%Htm2.
      apply where_treated, treated_lt in Hi. done.
    - apply Forall_forall. intros i Hi%Hcm2.
      apply where_control, control_lt in Hi. done. }
  destruct (set_items_ok _ _ "m"%string Hlt)
    as (sample & Hset & Hlen & Hin & Hout).
  exists tm, cm, sample, w2. split.
  { unfold partition. fold rt rc st sc.
    rewrite (run_bind_ok _ _ _ _ _ Hrun1).
    rewrite (run_bind_ok _ _ _ _ _ Hrun2).
    unfold lift. by rewrite Hset. }
  split; [congruence|]. split.
  { rewrite Ht2, Ht1, <- app_assoc. done. }
  split; [done|]. split; [done|].
  rewrite length_replicate in Hlen. split; [done|]. split; [done|].
  intros i Hi Hni. rewrite Hout by done. by apply lookup_replicate_2.
Qed.

Lemma where_length (mask : list bool) : length (where_ mask) ≤ length mask.
Proof.
  unfold where_. etrans; [apply length_filter|]. by rewrite length_seq.
Qed.

Lemma arm_length (d : vector) (v : Q) :
  length (where_ (eq_scalar d v)) ≤ length d.
Proof.
  etrans; [apply where_length|]. unfold eq_scalar. by rewrite length_fmap.
Qed.

Lemma partition_ok (d : vector) (prob_m : Q) w :
  (0 <= prob_m <= 1)%Q → (Z.of_nat (length d) ≤ 2 ^ 53)%Z →
  let rt := where_ (eq_scalar d 1) in
  let rc := where_ (eq_scalar d 0) in
  let st := main_size prob_m rt in
  let sc := main_size prob_m rc in
  ∃ tm cm sample w',
    partition d prob_m w = (inr sample, w')
    ∧ model w' = model w
    ∧ trace w' = trace w ++ [EvChoice rt st tm; EvChoice rc sc cm]
    ∧ (NoDup tm ∧ tm ⊆ rt ∧ length tm = Z.to_nat st)
    ∧ (NoDup cm ∧ cm ⊆ rc ∧ length cm = Z.to_nat sc)
    ∧ length sample = length d
    ∧ (∀ i, i ∈ tm ++ cm → sample !! i = Some "m"%string)
    ∧ (∀ i, i < length d → i ∉ tm ++ cm → sample !! i = Some "a"%string).
Proof.
  intros Hp Hn rt rc st sc.
  pose proof (arm_length d 1). pose proof (arm_length d 0).
  apply partition_run; apply main_size_bounds; first [done | lia].
Qed.

(** A run that returns drew both samples within their populations. *)
Lemma partition_inv (d : vector) (prob_m : Q) w sample w' :
  partition d prob_m w = (inr sample, w') →
  let rt := where_ (eq_scalar d 1) in
  let rc := where_ (eq_scalar d 0) in
  (0 ≤ main_size prob_m rt ≤ Z.of_nat (length rt))%Z
  ∧ (0 ≤ main_size prob_m rc ≤ Z.of_nat (length rc))%Z.
Proof.
  intros Hrun rt rc. unfold partition in Hrun. fold rt rc in Hrun.
  rewrite run_bind in Hrun.
  destruct (choice rt _ w) as [[e|tm] w1] eqn:Hc1; [done|].
  rewrite run_bind in Hrun.
  destruct (choice rc _ w1) as [[e|cm] w2] eqn:Hc2; [done|].
  split; eapply choice_inv; eassumption.
Qed.

End partition.

(** Labels of a returned partition, row by row. *)
Lemma sample_label_cases (sample : list string) (n : nat) (idx : list nat) :
  length sample = n →
  (∀ i, i ∈ idx → sample !! i = Some "m"%string) →
  (∀ i, i < n → i ∉ idx → sample !! i = Some "a"%string) →
  Forall (λ s, s = "m"%string ∨ s = "a"%string) sample.
Proof.
  intros Hlen Hin Hout. apply Forall_lookup. intros i s Hi.
  destruct (decide (i ∈ idx)) as [Hm|Ha].
  - left. rewrite (Hin i Hm) in Hi. congruence.
  - right. rewrite (Hout i) in Hi; [congruence| |done].
    apply lookup_lt_Some in Hi. lia.
Qed.

Lemma count_complement n (P Q : nat → bool) :
  (∀ i, i < n → P i = negb (Q i)) → count n P + count n Q = n.
Proof.
  unfold count, rows_where. induction n as [|n IH]; intros HPQ; [done|].
  rewrite seq_S, !filter_app, !length_app. simpl.
  rewrite !filter_cons, !filter_nil.
  specialize (HPQ n (Nat.lt_succ_diag_r n)) as Hn.
  specialize (IH (λ i Hi, HPQ i (Nat.lt_lt_succ_r _ _ Hi))).
  destruct (Q n); simpl in Hn; rewrite Hn;
    repeat case_decide; try done; simpl; lia.
Qed.

Lemma where_rows_treated d :
  where_ (eq_scalar d 1) = rows_where (length d) (treated d).
Proof.
  unfold where_, rows_where, eq_scalar. rewrite length_fmap.
  apply list_filter_iff. intros i. unfold treated.
  rewrite list_lookup_fmap. destruct (d !! i); simpl; [|done].
  split; congruence.
Qed.

Lemma where_rows_control d :
  where_ (eq_scalar d 0) = rows_where (length d) (control d).
Proof.
  unfold where_, rows_where, eq_scalar. rewrite length_fmap.
  apply list_filter_iff. intros i. unfold control.
  rewrite list_lookup_fmap. destruct (d !! i); simpl; [|done].
  split; congruence.
Qed.

Lemma labelled_true sample s i :
  labelled sample s i = true ↔ sample !! i = Some s.
Proof. unfold labelled. apply bool_decide_eq_true. Qed.

(** C1, as stated, fails: the size of a draw is the floor of the product
    as rounded to a double. With [prob_m] the double written 0.7 and ten
    treated rows the product 6.999... rounds to 7.0, so seven treated rows
    are labelled main, while the floor of [prob_m * 10] is 6. *)
Lemma partition_floors_rounded_product :
  let d := [1; 0; 1; 1; 0; 1; 1; 0; 1; 1; 0; 1; 1; 1]%Q in
  let prob_m := round64 (7 # 10) in
  (0 <= prob_m <= 1)%Q
  ∧ count 14 (treated d) = 10
  ∧ Qfloor (prob_m * inject_Z (Z.of_nat (count 14 (treated d)))) = 6%Z
  ∧ ∃ sample w',
      partition d prob_m (World [7; 3; 11; 2; 5; 1; 8] () [])
      = (inr sample, w')
      ∧ count 14 (λ i, labelled sample "m" i && treated d i) = 7.
Proof.
  intros d prob_m. split; [split; vm_compute; discriminate|].
  split; [reflexivity|]. split; [vm_compute; reflexivity|].
  destruct (partition d prob_m _) as [[e|sample] w'] eqn:Hrun;
    vm_compute in Hrun; [discriminate|].
  injection Hrun as <- <-. eexists _, _. split; reflexivity.
Qed.

(** C1, amended. For a treatment vector over {0,1} with at most [2^53]
    rows and [prob_m] in [0,1], [partition] returns one label per row,
    each "m" (main) or "a" (auxiliary); the main rows are exactly the rows
    of the two draws, the others are auxiliary; the number of main treated
    rows is the floor of the double-precision product
    [prob_m * |treated|], which is floor(prob_m * |treated|) or one more,
    likewise for the control rows; and main and auxiliary rows together
    count every row once. *)
Theorem partition_stratified_cover {M} (d : vector) (prob_m : Q) (w : world M) :
  Forall (λ v, v == 0 ∨ v == 1)%Q d →
  (0 <= prob_m <= 1)%Q →
  (Z.of_nat (length d) ≤ 2 ^ 53)%Z →
  let n := length d in
  let size (P : nat → bool) :=
    Qfloor (fmul prob_m (float_of_nat (count n P))) in
  let exact (P : nat → bool) :=
    Qfloor (prob_m * inject_Z (Z.of_nat (count n P))) in
  ∃ sample w' tm cm,
    partition d prob_m w = (inr sample, w')
    ∧ trace w' = trace w
        ++ [EvChoice (rows_where n (treated d)) (size (treated d)) tm;
            EvChoice (rows_where n (control d)) (size (control d)) cm]
    ∧ length sample = n
    ∧ Forall (λ s, s = "m"%string ∨ s = "a"%string) sample
    ∧ (∀ i, i < n → (sample !! i = Some "m"%string ↔ i ∈ tm ++ cm))
    ∧ (∀ i, i < n → i ∉ tm ++ cm → sample !! i = Some "a"%string)
    ∧ Z.of_nat (count n (λ i, labelled sample "m" i && treated d i))
      = size (treated d)
    ∧ Z.of_nat (count n (λ i, labelled sample "m" i && control d i))
      = size (control d)
    ∧ (exact (treated d) ≤ size (treated d) ≤ exact (treated d) + 1)%Z
    ∧ (exact (control d) ≤ size (control d) ≤ exact (control d) + 1)%Z
    ∧ count n (treated d) + count n (control d) = n
    ∧ count n (labelled sample "m") + count n (labelled sample "a") = n
    ∧ (∀ i, ¬ (labelled sample "m" i = true ∧ labelled sample "a" i = true)).
Proof.
  intros Hd Hp Hbig n size exact.
  pose proof (arm_length d 1) as Hlt. pose proof (arm_length d 0) as Hlc.
  destruct (partition_ok d prob_m w Hp Hbig)
    as (tm & cm & sample & w' & Hrun & _ & Htr & (Htm1 & Htm2 & Htm3)
        & (Hcm1 & Hcm2 & Hcm3) & Hlen & Hin & Hout).
  pose proof (main_size_bounds prob_m (where_ (eq_scalar d 1)) Hp
                ltac:(lia)) as Hst.
  pose proof (main_size_bounds prob_m (where_ (eq_scalar d 0)) Hp
                ltac:(lia)) as Hsc.
  pose proof (main_size_near_floor prob_m (where_ (eq_scalar d 1)) Hp
                ltac:(lia)) as Hnt.
  pose proof (main_size_near_floor prob_m (where_ (eq_scalar d 0)) Hp
                ltac:(lia)) as Hnc.
  unfold main_size, floor_int in *. cbv zeta in Hnt, Hnc.
  rewrite <- !count_treated, <- !count_control in *.
  rewrite where_rows_treated, where_rows_control in Htr. fold n in Htr.
  fold n in Hst, Hsc, Htm3, Hcm3, Hnt, Hnc.
  fold (size (treated d)) in Hst, Htm3, Htr, Hnt.
  fold (size (control d)) in Hsc, Hcm3, Htr, Hnc.
  fold (exact (treated d)) in Hnt. fold (exact (control d)) in Hnc.
  assert (∀ i, i < n → sample !! i = Some "m"%string ↔ i ∈ tm ++ cm) as Hiff.
  { intros i Hi. split; [|apply Hin].
    intros Hm. destruct (decide (i ∈ tm ++ cm)) as [|Hni]; [done|].
    rewrite (Hout i Hi Hni) in Hm. discriminate. }
  exists sample, w', tm, cm.
  split; [done|]. split; [done|]. split; [done|].
  split; [by eapply sample_label_cases|].
  split; [done|]. split; [done|].
  split; [|split; [|split; [done|split; [done|split; [|split]]]]].
  - rewrite (count_members n _ tm Htm1); [lia|].
    intros i. rewrite andb_true_iff, labelled_true. split.
    + intros Hi. pose proof (Htm2 i Hi) as Ht%where_treated.
      split; [split; [|done]|by apply treated_lt].
      apply Hin, elem_of_app. by left.
    + intros [[Hm Ht] Hi]. apply Hiff in Hm; [|done].
      apply elem_of_app in Hm as [|Hc]; [done|].
      apply Hcm2, where_control in Hc.
      apply treated_not_control in Ht. congruence.
  - rewrite (count_members n _ cm Hcm1); [lia|].
    intros i. rewrite andb_true_iff, labelled_true. split.
    + intros Hi. pose proof (Hcm2 i Hi) as Hc%where_control.
      split; [split; [|done]|by apply control_lt].
      apply Hin, elem_of_app. by right.
    + intros [[Hm Hc] Hi]. apply Hiff in Hm; [|done].
      apply elem_of_app in Hm as [Ht|]; [|done].
      apply Htm2, where_treated, treated_not_control in Ht. congruence.
  - apply count_complement. intros i Hi.
    destruct (lookup_lt_is_Some_2 d i Hi) as [v Hv].
    unfold treated, control. rewrite Hv.
    rewrite Forall_lookup in Hd. destruct (Hd i v Hv) as [H0|H1].
    + rewrite (proj2 (Qeq_bool_iff v 0) H0).
      apply not_true_is_false. intros H1%Qeq_bool_iff.
      rewrite H0 in H1. discriminate.
    + rewrite (proj2 (Qeq_bool_iff v 1) H1). simpl. symmetry.
      apply negb_true_iff, not_true_is_false. intros H0%Qeq_bool_iff.
      rewrite H1 in H0. discriminate.
  - apply count_complement. intros i Hi.
    unfold labelled. destruct (decide (i ∈ tm ++ cm)) as [Hm|Ha].
    + rewrite (Hin i Hm). done.
    + rewrite (Hout i Hi Ha). done.
  - intros i [Hm Ha]. apply labelled_true in Hm, Ha. congruence.
Qed.

Lemma partition_stratified_cover_witness :
  ∃ sample w',
    partition [1; 0; 1; 1; 0; 0; 1; 0]%Q (1 # 2)
      (World [7; 3; 11; 2; 5; 1; 8] () []) = (inr sample, w')
    ∧ Z.of_nat (count 8 (λ i, labelled sample "m" i
                              && treated [1; 0; 1; 1; 0; 0; 1; 0]%Q i)) = 2%Z.
Proof.
  destruct (partition_stratified_cover [1; 0; 1; 1; 0; 0; 1; 0]%Q (1 # 2)
              (World [7; 3; 11; 2; 5; 1; 8] () []))
    as (sample & w' & tm & cm & Hrun & _ & _ & _ & _ & _ & Hcount & _).
  - repeat constructor; first [by left | by right].
  - split; discriminate.
  - vm_compute. discriminate.
  - exists sample, w'. split; [exact Hrun|exact Hcount].
Defined.

(** C10. Whenever [partition] returns, a row whose treatment value is
    neither 0 nor 1 is labelled "a": the two draws are taken from the rows
    with value exactly 1 and from the rows with value exactly 0, and only
    drawn rows are labelled "m". *)
Theorem partition_other_values_auxiliary {M} (d : vector) (prob_m : Q)
    (w w' : world M) (sample : list string) (i : nat) (v : Q) :
  partition d prob_m w = (inr sample, w') →
  d !! i = Some v → (¬ v == 1)%Q → (¬ v == 0)%Q →
  sample !! i = Some "a"%string
  ∧ ∃ st sc tm cm,
      trace w' = trace w
        ++ [EvChoice (rows_where (length d) (treated d)) st tm;
            EvChoice (rows_where (length d) (control d)) sc cm]
      ∧ (i ∉ rows_where (length d) (treated d))
      ∧ (i ∉ rows_where (length d) (control d))
      ∧ (∀ j, sample !! j = Some "m"%string → j ∈ tm ++ cm).
Proof.
  intros Hrun Hv Hn1 Hn0.
  destruct (partition_inv d prob_m w sample w' Hrun) as [Hst Hsc].
  destruct (partition_run d prob_m w Hst Hsc)
    as (tm & cm & sample' & w'' & Hrun' & _ & Htr & (_ & Htm & _)
        & (_ & Hcm & _) & Hlen & Hin & Hout).
  rewrite Hrun in Hrun'. injection Hrun' as <- <-.
  assert (i < length d) as Hi by (by eapply lookup_lt_Some).
  assert (treated d i = false) as Hnt.
  { unfold treated. rewrite Hv. apply not_true_is_false.
    by intros ?%Qeq_bool_iff. }
  assert (control d i = false) as Hnc.
  { unfold control. rewrite Hv. apply not_true_is_false.
    by intros ?%Qeq_bool_iff. }
  rewrite where_rows_treated in Htr, Htm.
  rewrite where_rows_control in Htr, Hcm.
  assert (i ∉ rows_where (length d) (treated d)) as Hirt.
  { rewrite rows_where_elem. intros [? _]. congruence. }
  assert (i ∉ rows_where (length d) (control d)) as Hirc.
  { rewrite rows_where_elem. intros [? _]. congruence. }
  split.
  - apply Hout; [done|].
    intros [Ht|Hc]%elem_of_app; [by apply Htm in Ht|by apply Hcm in Hc].
  - eexists _, _, tm, cm. split; [exact Htr|]. split; [done|].
    split; [done|]. intros j Hj.
    destruct (decide (j ∈ tm ++ cm)) as [|Hnj]; [done|].
    assert (j < length d) as Hjlt.
    { rewrite <- Hlen. by eapply lookup_lt_Some. }
    rewrite (Hout j Hjlt Hnj) in Hj. discriminate.
Qed.

Lemma partition_other_values_auxiliary_witness :
  ∃ sample w',
    partition [1; 0; 1; 1; 0; 0; 1; 2]%Q (1 # 2)
      (World [7; 3; 11; 2; 5; 1; 8] () []) = (inr sample, w')
    ∧ sample !! 7 = Some "a"%string.
Proof.
  eexists _, _. split; [vm_compute; reflexivity|].
  eapply (partition_other_values_auxiliary
            [1; 0; 1; 1; 0; 0; 1; 2]%Q (1 # 2)
            (World [7; 3; 11; 2; 5; 1; 8] () []) _ _ 7 2%Q).
  - vm_compute; reflexivity.
  - reflexivity.
  - discriminate.
  - discriminate.
Defined.

(** ** Masks *)

Lemma broadcast2_same {A B C} (f : A → B → C) (l1 : list A) (l2 : list B) :
  length l1 = length l2 → broadcast2 f l1 l2 = inr (zip_with f l1 l2).
Proof. intros Hlen. unfold broadcast2. by rewrite decide_True. Qed.

Lemma mask_index_same {A} (a : list A) (mask : list bool) :
  length mask = length a → mask_index a mask = inr (compress mask a).
Proof. intros Hlen. unfold mask_index. by rewrite decide_True. Qed.

Lemma compress_snoc {A} (mask : list bool) (a : list A) b x :
  length mask = length a →
  compress (mask ++ [b]) (a ++ [x])
  = compress mask a ++ (if b then [x] else []).
Proof.
  revert a. induction mask as [|c mask IH]; intros [|y a] Hlen;
    simplify_eq/=; [done|].
  rewrite (IH a) by done. by destruct c.
Qed.

Lemma rows_where_S n P :
  rows_where (S n) P = rows_where n P ++ (if P n then [n] else []).
Proof.
  unfold rows_where. rewrite seq_S, filter_app. f_equal. simpl.
  rewrite filter_cons, filter_nil. destruct (P n); by case_decide.
Qed.

Lemma rows_at_snoc {A} (a : list A) x (idx : list nat) :
  Forall (λ i, i < length a) idx → rows_at (a ++ [x]) idx = rows_at a idx.
Proof.
  intros Hlt. unfold rows_at. apply list_omap_ext.
  induction Hlt as [|i idx Hi _ IH]; constructor; [|done].
  by rewrite lookup_app_l.
Qed.

Lemma rows_at_app {A} (a : list A) (l1 l2 : list nat) :
  rows_at a (l1 ++ l2) = rows_at a l1 ++ rows_at a l2.
Proof. apply omap_app. Qed.

(** Indexing by a boolean mask keeps the rows the mask marks, in order. *)
Lemma compress_rows {A} (P : nat → bool) (a : list A) (mask : list bool) :
  length mask = length a →
  (∀ i, i < length a → mask !! i = Some (P i)) →
  compress mask a = rows_at a (rows_where (length a) P).
Proof.
  revert mask. induction a as [|x a IH] using rev_ind; intros mask Hlen HP.
  { destruct mask; done. }
  destruct mask as [|b mask _] using rev_ind.
  { rewrite length_app in Hlen. simpl in Hlen. lia. }
  rewrite !length_app in Hlen. simpl in Hlen.
  assert (length mask = length a) as Hlen' by lia.
  rewrite compress_snoc by done.
  rewrite length_app. simpl. rewrite Nat.add_1_r, rows_where_S.
  rewrite rows_at_app. f_equal.
  - rewrite rows_at_snoc.
    + apply IH; [done|]. intros i Hi.
      rewrite <- (HP i) by (rewrite length_app; simpl; lia).
      by rewrite lookup_app_l by lia.
    + apply Forall_forall. intros i Hi%rows_where_elem. lia.
  - specialize (HP (length a)). rewrite length_app in HP. simpl in HP.
    rewrite <- Hlen' in HP at 2. rewrite list_lookup_middle in HP by done.
    specialize (HP ltac:(lia)). injection HP as ->.
    destruct (P (length a)); simpl; [|done].
    unfold rows_at. simpl. by rewrite list_lookup_middle.
Qed.

Lemma aux_mask_lookup (sample : list string) (d : vector) (v : Q) i :
  length sample = length d → i < length d →
  zip_with andb (eq_label sample "a") (eq_scalar d v) !! i
  = Some (labelled sample "a" i
          && match d !! i with Some x => Qeq_bool x v | None => false end).
Proof.
  intros Hlen Hi. rewrite lookup_zip_with. unfold eq_label, eq_scalar.
  rewrite !list_lookup_fmap.
  destruct (lookup_lt_is_Some_2 sample i ltac:(lia)) as [s Hs].
  destruct (lookup_lt_is_Some_2 d i Hi) as [x Hx].
  rewrite Hs, Hx. simpl. unfold labelled. rewrite Hs. f_equal. f_equal.
  apply bool_decide_ext. split; congruence.
Qed.

(** ** ml_proxy *)

Section ml_proxy.
Context {M : Type} `{Model M}.
Implicit Types w : world M.

Lemma model_fit_ok X y w m' :
  fit (model w) X y = inr m' →
  model_fit X y w = (inr (), World (rng w) m' (trace w ++ [EvFit X y])).
Proof. intros Hfit. unfold model_fit. by rewrite Hfit. Qed.

Lemma model_fit_raise X y w e :
  fit (model w) X y = inl e →
  model_fit X y w
  = (inl e, World (rng w) (model w) (trace w ++ [EvFit X y])).
Proof. intros Hfit. unfold model_fit. by rewrite Hfit. Qed.

End ml_proxy.

(** C2. On a dataset of [n] rows with one label per row, when the model's
    two fits and two predictions succeed and [predict] gives one value per
    row: [ml_proxy] calls, in this order and on the one model instance,
    [fit] with exactly the rows labelled "a" whose treatment is 0 and the
    outcomes of those rows, [predict] on all rows (giving [b_hat]), [fit]
    with exactly the rows labelled "a" whose treatment is 1 and, as target,
    the outcome minus the first prediction on those rows, and [predict] on
    all rows (giving [s_hat]); it returns [(b_hat, s_hat)], each of length
    [n]. *)
Theorem ml_proxy_two_stage {M} `{Model M} (x : matrix) (y d : vector)
    (sample : list string) (w : world M) (m1 m2 : M) (b_hat s_hat : vector) :
  let n := length x in
  let aux_ctrl := rows_where n (λ i, labelled sample "a" i && control d i) in
  let aux_treat := rows_where n (λ i, labelled sample "a" i && treated d i) in
  let target := zip_with Qminus (rows_at y aux_treat) (rows_at b_hat aux_treat) in
  length y = n → length d = n → length sample = n →
  (∀ m X p, predict m X = inr p → length p = length X) →
  fit (model w) (rows_at x aux_ctrl) (rows_at y aux_ctrl) = inr m1 →
  predict m1 x = inr b_hat →
  fit m1 (rows_at x aux_treat) target = inr m2 →
  predict m2 x = inr s_hat →
  ml_proxy x y d sample w
  = (inr (b_hat, s_hat),
     World (rng w) m2
       (trace w ++ [EvFit (rows_at x aux_ctrl) (rows_at y aux_ctrl);
                    EvPredict x;
                    EvFit (rows_at x aux_treat) target;
                    EvPredict x]))
  ∧ length b_hat = n ∧ length s_hat = n.
Proof.
  intros n aux_ctrl aux_treat target Hy Hd Hs Hpred Hfit1 Hp1 Hfit2 Hp2.
  pose proof (Hpred _ _ _ Hp1) as Hb. pose proof (Hpred _ _ _ Hp2) as Hsh.
  fold n in Hb, Hsh. split; [|done].
  assert (length (eq_label sample "a") = n) as Hl1.
  { unfold eq_label. by rewrite length_fmap. }
  assert (∀ v, length (eq_scalar d v) = n) as Hl2.
  { intros v. unfold eq_scalar. by rewrite length_fmap. }
  assert (∀ v, length (zip_with andb (eq_label sample "a") (eq_scalar d v)) = n)
    as Hl3.
  { intros v. rewrite length_zip_with, Hl1, Hl2. lia. }
  assert (∀ {A} (a : list A), length a = n →
    compress (zip_with andb (eq_label sample "a") (eq_scalar d 0)) a
    = rows_at a aux_ctrl) as Hctrl.
  { intros A a Ha. unfold aux_ctrl. rewrite <- Ha. apply compress_rows.
    - by rewrite Hl3.
    - intros i Hi. rewrite aux_mask_lookup by lia. done. }
  assert (∀ {A} (a : list A), length a = n →
    compress (zip_with andb (eq_label sample "a") (eq_scalar d 1)) a
    = rows_at a aux_treat) as Htreat.
  { intros A a Ha. unfold aux_treat. rewrite <- Ha. apply compress_rows.
    - by rewrite Hl3.
    - intros i Hi. rewrite aux_mask_lookup by lia. done. }
  unfold ml_proxy.
  rewrite (run_lift_ok _ _ _ _
             (broadcast2_same andb _ _ (eq_trans Hl1 (eq_sym (Hl2 _))))).
  rewrite (run_lift_ok _ _ _ _ (mask_index_same x _ (Hl3 0%Q))).
  rewrite (run_lift_ok _ _ _ _
             (mask_index_same y _ (eq_trans (Hl3 0%Q) (eq_sym Hy)))).
  rewrite !Hctrl by done.
  rewrite (run_bind_ok _ _ _ _ _ (model_fit_ok _ _ _ _ Hfit1)).
  rewrite run_bind. unfold model_predict at 1. simpl. rewrite Hp1.
  rewrite (run_lift_ok _ _ _ _
             (broadcast2_same andb _ _ (eq_trans Hl1 (eq_sym (Hl2 _))))).
  rewrite (run_lift_ok _ _ _ _ (mask_index_same x _ (Hl3 1%Q))).
  rewrite (run_lift_ok _ _ _ _
             (mask_index_same y _ (eq_trans (Hl3 1%Q) (eq_sym Hy)))).
  rewrite (run_lift_ok _ _ _ _
             (mask_index_same b_hat _ (eq_trans (Hl3 1%Q) (eq_sym Hb)))).
  rewrite !Htreat by done.
  assert (length (rows_at y aux_treat) = length (rows_at b_hat aux_treat))
    as Hsame.
  { rewrite <- !Htreat by done. clear -Hy Hb Hl3.
    specialize (Hl3 1%Q). revert Hl3 Hy Hb. generalize n.
    generalize (zip_with andb (eq_label sample "a") (eq_scalar d 1)).
    intros mask. revert y b_hat.
    induction mask as [|b mask IH]; intros [|y0 y] [|b0 bh] k; simpl;
      intros; try lia; try done.
    destruct b; simpl; [f_equal|]; apply (IH y bh (pred k)); lia. }
  rewrite (run_lift_ok _ _ _ _ (broadcast2_same _ _ _ Hsame)).
  fold target.
  rewrite (run_bind_ok _ _ _ _ _
             (model_fit_ok _ _ (World _ m1 _) _ Hfit2)).
  rewrite run_bind. unfold model_predict. simpl. rewrite Hp2.
  simpl. rewrite <- !app_assoc. reflexivity.
Qed.

Lemma slope_predict_length (m : Q) (X : matrix) (p : vector) :
  predict m X = inr p → length p = length X.
Proof.
  simpl. unfold Reference.slope_predict, ok. intros [= <-].
  unfold Reference.column. by rewrite !length_fmap.
Qed.

Lemma ml_proxy_two_stage_witness :
  ∃ b_hat s_hat w',
    ml_proxy [[1]; [2]; [3]; [4]]%Q [2; 1; 7; 9]%Q [1; 0; 1; 0]%Q
      ["a"; "a"; "m"; "a"]%string (World [] 0%Q []) = (inr (b_hat, s_hat), w')
    ∧ length b_hat = 4 ∧ length s_hat = 4.
Proof.
  eexists _, _, _.
  eapply (ml_proxy_two_stage [[1]; [2]; [3]; [4]]%Q [2; 1; 7; 9]%Q
            [1; 0; 1; 0]%Q ["a"; "a"; "m"; "a"]%string (World [] 0%Q [])).
  - reflexivity.
  - reflexivity.
  - reflexivity.
  - exact slope_predict_length.
  - vm_compute. reflexivity.
  - vm_compute. reflexivity.
  - vm_compute. reflexivity.
  - vm_compute. reflexivity.
Defined.


(** ** Percentiles *)

Lemma lerp_eq (a b t : Q) : (lerp a b t == a + (b - a) * t)%Q.
Proof. unfold lerp. case_bool_decide; ring. Qed.

Lemma inject_nat_le (a b : nat) :
  a ≤ b ↔ (inject_Z (Z.of_nat a) <= inject_Z (Z.of_nat b))%Q.
Proof. rewrite <- Zle_Qle. lia. Qed.

Lemma inject_nat_S (a : nat) :
  (inject_Z (Z.of_nat (S a)) == inject_Z (Z.of_nat a) + 1)%Q.
Proof. rewrite Nat2Z.inj_succ. unfold Z.succ. by rewrite inject_Z_plus. Qed.

Lemma floor_nat_bounds (v : Q) :
  (0 <= v)%Q →
  let L := inject_Z (Z.of_nat (Z.to_nat (Qfloor v))) in
  (L <= v ∧ v < L + 1)%Q.
Proof.
  intros Hv L. unfold L.
  assert (0 ≤ Qfloor v)%Z as H0.
  { change 0%Z with (Qfloor 0). by apply Qfloor_resp_le. }
  rewrite Z2Nat.id by done. split; [apply Qfloor_le|].
  pose proof (Qlt_floor v) as Hlt. by rewrite inject_Z_plus in Hlt.
Qed.

Lemma lookup_total_Some (s : vector) i : i < length s → s !! i = Some (s !!! i).
Proof. apply list_lookup_lookup_total_lt. Qed.

Lemma floor_nat_le (v v' : Q) :
  (0 <= v)%Q → (v <= v')%Q → Z.to_nat (Qfloor v) ≤ Z.to_nat (Qfloor v').
Proof.
  intros Hv Hvv. apply Z2Nat.inj_le.
  - change 0%Z with (Qfloor 0). by apply Qfloor_resp_le.
  - change 0%Z with (Qfloor 0). apply Qfloor_resp_le. lra.
  - by apply Qfloor_resp_le.
Qed.

Lemma floor_nat_bound (v : Q) (k : nat) :
  (0 <= v)%Q → (v <= inject_Z (Z.of_nat k))%Q → Z.to_nat (Qfloor v) ≤ k.
Proof.
  intros Hv Hk. rewrite <- (Nat2Z.id k), <- (Qfloor_Z (Z.of_nat k)).
  by apply floor_nat_le.
Qed.

Lemma floor_nat_lt_bound (v : Q) (k : nat) :
  (0 <= v)%Q → (v < inject_Z (Z.of_nat k))%Q → Z.to_nat (Qfloor v) < k.
Proof.
  intros Hv Hk. destruct (floor_nat_bounds v Hv) as [HL _].
  assert (inject_Z (Z.of_nat (Z.to_nat (Qfloor v))) < inject_Z (Z.of_nat k))%Q
    as Hlt by lra.
  rewrite <- Zlt_Qlt in Hlt. lia.
Qed.

(** The interpolated value never decreases with the quantile. *)
Lemma quantile_sorted_mono (s : vector) (p p' : Q) :
  s ≠ [] → increasing s → (0 <= p)%Q → (p <= p')%Q → (p' <= 1)%Q →
  (quantile_sorted s p <= quantile_sorted s p')%Q.
Proof.
  intros Hne Hinc Hp0 Hpp Hp1. unfold quantile_sorted.
  assert (0 < length s) as Hn by (destruct s; [done|simpl; lia]).
  set (N := inject_Z (Z.of_nat (length s - 1))).
  assert (0 <= N)%Q as HN.
  { unfold N. change 0%Q with (inject_Z (Z.of_nat 0)). apply inject_nat_le. lia. }
  set (v := (p * N)%Q). set (v' := (p' * N)%Q).
  assert (0 <= v)%Q as Hv0 by (unfold v; nra).
  assert (v <= v')%Q as Hvv by (unfold v, v'; nra).
  assert (v' <= N)%Q as HvN by (unfold v'; nra).
  destruct (floor_nat_bounds v Hv0) as [HL1 HL2].
  destruct (floor_nat_bounds v' ltac:(lra)) as [HL1' HL2'].
  pose proof (floor_nat_le v v' Hv0 Hvv) as Hlo.
  pose proof (floor_nat_bound v' (length s - 1) ltac:(lra) HvN) as Hlo'.
  set (lo := Z.to_nat (Qfloor v)) in *. set (lo' := Z.to_nat (Qfloor v')) in *.
  set (L := inject_Z (Z.of_nat lo)) in *. set (L' := inject_Z (Z.of_nat lo')) in *.
  rewrite !lerp_eq.
  set (hi := S lo `min` (length s - 1)). set (hi' := S lo' `min` (length s - 1)).
  pose proof (Hinc lo hi _ _ (lookup_total_Some s lo ltac:(lia))
                (lookup_total_Some s hi ltac:(lia)) ltac:(lia)) as Hab.
  pose proof (Hinc lo' hi' _ _ (lookup_total_Some s lo' ltac:(lia))
                (lookup_total_Some s hi' ltac:(lia)) ltac:(lia)) as Hab'.
  destruct (decide (lo = lo')) as [Heq|Hne'].
  - subst hi hi' L L'. rewrite <- Heq in *. nra.
  - assert (hi ≤ lo') as Hhl by lia.
    pose proof (Hinc hi lo' _ _ (lookup_total_Some s hi ltac:(lia))
                  (lookup_total_Some s lo' ltac:(lia)) Hhl) as Hba.
    assert (s !!! lo + (s !!! hi - s !!! lo) * (v - L) <= s !!! hi)%Q by nra.
    assert (s !!! lo' <= s !!! lo' + (s !!! hi' - s !!! lo') * (v' - L'))%Q by nra.
    lra.
Qed.

(** ** Sorting *)

#[global] Instance Qle_total : Total Qle.
Proof. intros a b. destruct (Qlt_le_dec a b); [left; lra|by right]. Qed.

#[global] Instance Qle_trans' : Transitive Qle.
Proof. intros a b c. apply Qle_trans. Qed.

Lemma StronglySorted_increasing (s : vector) :
  StronglySorted Qle s → increasing s.
Proof.
  induction 1 as [|a s Hs IH Ha]; intros i j u v Hi Hj Hij.
  { by rewrite lookup_nil in Hi. }
  destruct i as [|i], j as [|j]; simplify_eq/=; try lia.
  - lra.
  - rewrite Forall_forall in Ha. apply Ha. by eapply list_elem_of_lookup_2.
  - eapply IH; eauto. lia.
Qed.

Lemma sort_increasing (x : vector) : increasing (merge_sort Qle x).
Proof.
  apply StronglySorted_increasing, StronglySorted_merge_sort; apply _.
Qed.

Lemma sort_length (x : vector) : length (merge_sort Qle x) = length x.
Proof. apply Permutation_length, merge_sort_Permutation. Qed.

Lemma no_ties_Permutation (x x' : vector) : x ≡ₚ x' → no_ties x' → no_ties x.
Proof.
  intros (_ & f & Hinj & Hf)%Permutation_inj Hnt i j a b Hi Hj Hij.
  rewrite Hf in Hi, Hj. eapply Hnt; eauto.
Qed.

Lemma sort_strictly_increasing (x : vector) :
  no_ties x → strictly_increasing (merge_sort Qle x).
Proof.
  intros Hnt i j a b Hi Hj Hij.
  pose proof (sort_increasing x i j a b Hi Hj ltac:(lia)) as Hle.
  pose proof (no_ties_Permutation _ _ (merge_sort_Permutation Qle x) Hnt
                i j a b Hi Hj ltac:(lia)) as Hne.
  apply Qle_lteq in Hle as [|]; done.
Qed.

(** The smallest entry sits at the quantile 0. *)
Lemma quantile_sorted_zero (s : vector) (p : Q) :
  (p == 0)%Q → (quantile_sorted s p == s !!! 0%nat)%Q.
Proof.
  intros Hp. unfold quantile_sorted.
  set (v := (p * inject_Z (Z.of_nat (length s - 1)))%Q).
  assert (v == 0)%Q as Hv by (unfold v; rewrite Hp; ring).
  assert (Qfloor v = 0%Z) as -> by (by rewrite Hv).
  rewrite lerp_eq. change (inject_Z (Z.of_nat (Z.to_nat 0))) with 0%Q.
  rewrite Hv. change (Z.to_nat 0) with 0. lra.
Qed.

Lemma sort_min (x : vector) (v : Q) :
  v ∈ x → (merge_sort Qle x !!! 0%nat <= v)%Q.
Proof.
  intros Hv. rewrite <- (merge_sort_Permutation Qle x) in Hv.
  apply list_elem_of_lookup in Hv as [j Hj].
  eapply (sort_increasing x 0 j); [|done|lia].
  apply list_lookup_lookup_total_lt. apply lookup_lt_Some in Hj. lia.
Qed.

(** ** The quantile probabilities *)

Lemma linspace0_ok (stop : Q) (q : Z) :
  (0 ≤ q)%Z →
  linspace0 stop q
  = inr ((λ k, inject_Z k * (stop / inject_Z q) + 0)%Q <$> seqZ 0 q).
Proof. intros Hq. unfold linspace0. by rewrite bool_decide_eq_false_2 by lia. Qed.

Lemma grid_fraction (k q : Z) :
  (0 ≤ k < q)%Z →
  ((inject_Z k * (100 / inject_Z q) + 0) / 100 == inject_Z k / inject_Z q)%Q.
Proof.
  intros Hk. field. intros H0. unfold Qeq in H0. simpl in H0. lia.
Qed.

Lemma grid_fraction_lt (k k' q : Z) :
  (0 ≤ k)%Z → (k < k')%Z → (k' < q)%Z →
  (inject_Z k / inject_Z q < inject_Z k' / inject_Z q)%Q.
Proof.
  intros Hk Hkk Hkq.
  assert (0 < inject_Z q)%Q as Hq.
  { change 0%Q with (inject_Z 0). rewrite <- Zlt_Qlt. lia. }
  assert (inject_Z k < inject_Z k')%Q as Hlt by (by rewrite <- Zlt_Qlt).
  apply Qlt_shift_div_l; [done|].
  unfold Qdiv. rewrite <- Qmult_assoc, (Qmult_comm (/ _)), Qmult_inv_r by lra.
  lra.
Qed.

Lemma grid_fraction_range (k q : Z) :
  (0 ≤ k < q)%Z → (0 <= inject_Z k / inject_Z q ∧ inject_Z k / inject_Z q <= 1)%Q.
Proof.
  intros Hk.
  assert (0 < inject_Z q)%Q as Hq.
  { change 0%Q with (inject_Z 0). rewrite <- Zlt_Qlt. lia. }
  assert (0 <= inject_Z k)%Q as Hk0.
  { change 0%Q with (inject_Z 0). rewrite <- Zle_Qle. lia. }
  assert (inject_Z k <= inject_Z q)%Q as Hkq by (rewrite <- Zle_Qle; lia).
  split.
  - apply Qle_shift_div_l; [done|]. lra.
  - apply Qle_shift_div_r; [done|]. lra.
Qed.

Lemma grid_pct_lookup (q : Z) (k : nat) (p : Q) :
  grid_pct q !! k = Some p →
  p = (inject_Z (Z.of_nat k) * (100 / inject_Z q) + 0)%Q
  ∧ (0 ≤ Z.of_nat k < q)%Z.
Proof.
  unfold grid_pct. rewrite list_lookup_fmap.
  destruct (seqZ 0 q !! k) as [m|] eqn:Hm; [|done].
  apply lookup_seqZ in Hm as [-> Hk]. simpl. intros [= <-].
  rewrite Z.add_0_l. split; [done|lia].
Qed.

Lemma grid_pct_length (q : Z) : length (grid_pct q) = Z.to_nat q.
Proof. unfold grid_pct. by rewrite length_fmap, length_seqZ. Qed.

Lemma grid_edges_length (x : vector) (q : Z) :
  length (grid_edges x q) = Z.to_nat q.
Proof. unfold grid_edges. by rewrite !length_fmap, grid_pct_length. Qed.

Lemma grid_edges_lookup (x : vector) (q : Z) (k : nat) (e : Q) :
  grid_edges x q !! k = Some e →
  ∃ p, grid_pct q !! k = Some p
       ∧ e = quantile_sorted (merge_sort Qle x) (p / 100).
Proof.
  unfold grid_edges. rewrite !list_lookup_fmap.
  destruct (grid_pct q !! k) as [p|]; [|done]. simpl. intros [= <-]. eauto.
Qed.

Lemma percentile_ok (x : vector) (q : Z) :
  x ≠ [] → percentile x (grid_pct q) = inr (grid_edges x q).
Proof.
  intros Hx. unfold percentile. rewrite decide_True.
  - destruct x; [done|]. reflexivity.
  - apply Forall_fmap, Forall_lookup. intros k p [-> Hk]%grid_pct_lookup.
    simpl. rewrite grid_fraction by done. by apply grid_fraction_range.
Qed.

Lemma grid_edges_increasing (x : vector) (q : Z) :
  x ≠ [] → increasing (grid_edges x q).
Proof.
  intros Hx i j a b (pi & [-> Hi]%grid_pct_lookup & ->)%grid_edges_lookup
    (pj & [-> Hj]%grid_pct_lookup & ->)%grid_edges_lookup Hij.
  assert (merge_sort Qle x ≠ []) as Hs.
  { intros Hnil. apply (f_equal length) in Hnil.
    rewrite sort_length in Hnil. by destruct x. }
  apply quantile_sorted_mono; [done|apply sort_increasing|..];
    rewrite ?grid_fraction by done; try (by apply grid_fraction_range).
  destruct (decide (i = j)) as [->|Hne]; [lra|].
  apply Qlt_le_weak, grid_fraction_lt; lia.
Qed.

(** ** digitize *)

Lemma increasing_tail (e : Q) (es : vector) :
  increasing (e :: es) → increasing es.
Proof. intros Hinc i j a b Hi Hj Hij. apply (Hinc (S i) (S j)); [done..|lia]. Qed.

Lemma bins_sorted (edges : vector) :
  increasing edges → Sorted ext_le ((Fin <$> edges) ++ [PInf]).
Proof.
  induction edges as [|e es IH]; intros Hinc; simpl.
  { repeat constructor. }
  constructor; [by eapply IH, increasing_tail|].
  destruct es as [|e' es]; simpl; constructor; simpl.
  - done.
  - apply (Hinc 0 1 e e'); [done|done|lia].
Qed.

Lemma searchsorted_right_bins (edges : vector) (v : Q) :
  searchsorted_right ((Fin <$> edges) ++ [PInf]) v
  = length (filter (λ e, e <= v)%Q edges).
Proof.
  unfold searchsorted_right. rewrite filter_app, length_app.
  rewrite filter_cons_False, filter_nil by (simpl; tauto).
  rewrite Nat.add_0_r. induction edges as [|e es IH]; [done|].
  rewrite fmap_cons, !filter_cons. simpl.
  destruct (decide (e <= v)%Q); simpl; by rewrite IH.
Qed.

Lemma digitize_ok (x edges : vector) :
  increasing edges →
  digitize x ((Fin <$> edges) ++ [PInf])
  = inr ((λ v, Z.of_nat (length (filter (λ e, e <= v)%Q edges))) <$> x).
Proof.
  intros Hinc. unfold digitize, monotonicity.
  rewrite decide_True by (by apply bins_sorted). simpl.
  unfold ok. f_equal. apply list_fmap_ext. intros _ v _.
  by rewrite searchsorted_right_bins.
Qed.

(** On an ascending array the entries at or below [v] form a prefix. *)
Lemma count_le_prefix (edges : vector) (v : Q) (k : nat) (e : Q) :
  increasing edges → edges !! k = Some e →
  (e <= v)%Q ↔ k < length (filter (λ e, e <= v)%Q edges).
Proof.
  revert k. induction edges as [|e0 es IH]; intros k Hinc Hk; [done|].
  rewrite filter_cons. destruct (decide (e0 <= v)%Q) as [Hle|Hgt].
  - destruct k as [|k]; simplify_eq/=; [split; [lia|done]|].
    rewrite (IH k) by (by eauto using increasing_tail). lia.
  - assert (Forall (λ e, ¬ (e <= v)%Q) es) as Hall.
    { apply Forall_lookup. intros j e' Hj Hle.
      pose proof (Hinc 0 (S j) e0 e' eq_refl Hj ltac:(lia)). lra. }
    assert (filter (λ e, e <= v)%Q es = []) as ->.
    { clear -Hall. induction Hall as [|e' es' He' _ IH']; [done|].
      by rewrite filter_cons_False. }
    simpl. split; [|lia]. intros Hle.
    destruct k as [|k]; simplify_eq/=; [done|].
    pose proof (Hinc 0 (S k) e0 e eq_refl Hk ltac:(lia)). lra.
Qed.

Lemma quantile_grid_run (x : vector) (q : Z) :
  x ≠ [] → (0 ≤ q)%Z →
  quantile_grid x q = inr (grid_indices x q, grid_edges x q, grid_pct q).
Proof.
  intros Hx Hq. unfold quantile_grid.
  rewrite (linspace0_ok 100 q Hq). fold (grid_pct q).
  change (percentile x (grid_pct q) ≫= (λ bin_edges,
            digitize x ((Fin <$> bin_edges) ++ [PInf]) ≫= (λ digits,
            ok ((λ i, i - 1)%Z <$> digits, bin_edges, grid_pct q)))
          = inr (grid_indices x q, grid_edges x q, grid_pct q)).
  rewrite (percentile_ok x q Hx).
  change (digitize x ((Fin <$> grid_edges x q) ++ [PInf]) ≫= (λ digits,
            ok ((λ i, i - 1)%Z <$> digits, grid_edges x q, grid_pct q))
          = inr (grid_indices x q, grid_edges x q, grid_pct q)).
  rewrite (digitize_ok x _ (grid_edges_increasing x q Hx)).
  unfold grid_indices. simpl. unfold ok. by rewrite <- list_fmap_compose.
Qed.

Lemma grid_indices_lookup (x : vector) (q : Z) (i : nat) (v : Q) (b : Z) :
  x !! i = Some v → grid_indices x q !! i = Some b →
  b = (Z.of_nat (length (filter (λ e, e <= v)%Q (grid_edges x q))) - 1)%Z.
Proof.
  intros Hv. unfold grid_indices. rewrite list_lookup_fmap, Hv. simpl.
  by intros [= <-].
Qed.

(** Every score has at least one edge at or below it, and at most [q]. *)
Lemma grid_count_range (x : vector) (q : Z) (v : Q) :
  v ∈ x → (1 ≤ q)%Z →
  1 ≤ length (filter (λ e, e <= v)%Q (grid_edges x q)) ≤ Z.to_nat q.
Proof.
  intros Hv Hq.
  assert (x ≠ []) as Hx by (intros ->; by apply elem_of_nil in Hv).
  split.
  - destruct (lookup_lt_is_Some_2 (grid_edges x q) 0) as [e0 He0].
    { rewrite grid_edges_length. lia. }
    apply Nat.le_succ_l.
    apply (count_le_prefix _ v 0 e0 (grid_edges_increasing x q Hx) He0).
    apply grid_edges_lookup in He0 as (p & [-> _]%grid_pct_lookup & ->).
    rewrite quantile_sorted_zero; [by apply sort_min|].
    simpl. field. intros H0. unfold Qeq in H0. simpl in H0. lia.
  - rewrite <- (grid_edges_length x q). apply length_filter.
Qed.

(** The interpolated value lies between the two entries around its
    position, and is the entry itself at a whole position. *)
Lemma quantile_sorted_between (s : vector) (p : Q) :
  s ≠ [] → increasing s → (0 <= p)%Q → (p <= 1)%Q →
  let N := inject_Z (Z.of_nat (length s - 1)) in
  let f := Z.to_nat (Qfloor (p * N)) in
  f ≤ length s - 1
  ∧ (s !!! f <= quantile_sorted s p)%Q
  ∧ (quantile_sorted s p <= s !!! (S f `min` (length s - 1)))%Q
  ∧ ((p * N == inject_Z (Z.of_nat f))%Q → (quantile_sorted s p == s !!! f)%Q).
Proof.
  intros Hne Hinc Hp0 Hp1 N f. unfold quantile_sorted. fold N. fold f.
  assert (0 < length s) as Hn by (destruct s; [done|simpl; lia]).
  assert (0 <= N)%Q as HN.
  { unfold N. change 0%Q with (inject_Z (Z.of_nat 0)). apply inject_nat_le. lia. }
  set (v := (p * N)%Q) in *.
  assert (0 <= v)%Q as Hv0 by (unfold v; nra).
  assert (v <= N)%Q as HvN by (unfold v; nra).
  assert (0 ≤ Qfloor v)%Z as Hf0.
  { change 0%Z with (Qfloor 0). by apply Qfloor_resp_le. }
  assert (Qfloor v ≤ Z.of_nat (length s - 1))%Z as HfN.
  { rewrite <- (Qfloor_Z (Z.of_nat (length s - 1))). by apply Qfloor_resp_le. }
  pose proof (Qfloor_le v) as Hfl. pose proof (Qlt_floor v) as Hfu.
  assert (inject_Z (Z.of_nat f) = inject_Z (Qfloor v)) as Hpr.
  { unfold f. by rewrite Z2Nat.id. }
  assert (f ≤ length s - 1) as HfN' by (unfold f; lia).
  rewrite inject_Z_plus in Hfu. change (inject_Z 1) with 1%Q in Hfu.
  rewrite <- Hpr in Hfl, Hfu.
  set (nx := S f `min` (length s - 1)).
  assert (s !!! f <= s !!! nx)%Q as Hab.
  { apply (Hinc f nx);
      [apply list_lookup_lookup_total_lt; lia..|unfold nx; lia]. }
  rewrite lerp_eq.
  set (a := s !!! f) in *. set (b := s !!! nx) in *.
  set (g := (v - inject_Z (Z.of_nat f))%Q).
  assert (0 <= g)%Q by (unfold g; lra). assert (g <= 1)%Q by (unfold g; lra).
  split; [done|]. split; [nra|]. split; [nra|].
  intros Hwhole. assert (g == 0)%Q as -> by (unfold g; lra). ring.
Qed.

Lemma grid_position (k : nat) (q : Z) (n1 : nat) :
  (0 ≤ Z.of_nat k < q)%Z →
  ((inject_Z (Z.of_nat k) * (100 / inject_Z q) + 0) / 100
   * inject_Z (Z.of_nat n1)
   == inject_Z (Z.of_nat k * Z.of_nat n1) / inject_Z q)%Q.
Proof.
  intros Hk. rewrite grid_fraction by done. rewrite inject_Z_mult. field.
  intros H0. unfold Qeq in H0. simpl in H0. lia.
Qed.

Lemma sort_nonempty (x : vector) : x ≠ [] → merge_sort Qle x ≠ [].
Proof.
  intros Hx Hnil. apply (f_equal length) in Hnil.
  rewrite sort_length in Hnil. by destruct x.
Qed.

(** Where an edge sits among the sorted scores. *)
Lemma grid_edge_between (x : vector) (q : Z) (k : nat) (e lo hi : Q) :
  x ≠ [] → grid_edges x q !! k = Some e →
  let h := Z.to_nat (Z.of_nat k * (Z.of_nat (length x) - 1) / q) in
  merge_sort Qle x !! h = Some lo →
  merge_sort Qle x !! (S h `min` (length x - 1)) = Some hi →
  (lo <= e)%Q ∧ (e <= hi)%Q
  ∧ (((Z.of_nat k * (Z.of_nat (length x) - 1)) mod q = 0)%Z → (e == lo)%Q).
Proof.
  intros Hx He h Hlo Hhi.
  apply grid_edges_lookup in He as (p & [-> Hk]%grid_pct_lookup & ->).
  set (p := ((inject_Z (Z.of_nat k) * (100 / inject_Z q) + 0) / 100)%Q).
  assert (0 <= p ∧ p <= 1)%Q as [Hp0 Hp1].
  { unfold p. rewrite grid_fraction by done. by apply grid_fraction_range. }
  destruct (quantile_sorted_between (merge_sort Qle x) p (sort_nonempty x Hx)
              (sort_increasing x) Hp0 Hp1) as (_ & Hge & Hle & Hwhole).
  rewrite sort_length in Hge, Hle, Hwhole.
  assert (0 < length x) as Hn by (destruct x; [done|simpl; lia]).
  assert (p * inject_Z (Z.of_nat (length x - 1))
          == inject_Z (Z.of_nat k * Z.of_nat (length x - 1)) / inject_Z q)%Q
    as Hpos by apply grid_position, Hk.
  assert (Qfloor (p * inject_Z (Z.of_nat (length x - 1)))
          = (Z.of_nat k * (Z.of_nat (length x) - 1) / q)%Z) as Hfloor.
  { rewrite (Qfloor_comp _ _ Hpos), <- Zdiv_Qdiv.
    assert (Z.of_nat (length x - 1) = (Z.of_nat (length x) - 1)%Z) as ->
      by lia. done. }
  rewrite Hfloor in Hge, Hle, Hwhole. fold h in Hge, Hle, Hwhole.
  rewrite (list_lookup_total_correct _ _ _ Hlo) in Hge, Hwhole.
  rewrite (list_lookup_total_correct _ _ _ Hhi) in Hle.
  split; [done|]. split; [done|].
  intros Hmod. apply Hwhole. rewrite Hpos. unfold h.
  assert (0 ≤ Z.of_nat k * (Z.of_nat (length x) - 1) / q)%Z
    by (apply Z.div_pos; [nia|lia]).
  rewrite Z2Nat.id by done.
  replace (Z.of_nat (length x - 1)) with (Z.of_nat (length x) - 1)%Z by lia.
  pose proof (Z.div_exact (Z.of_nat k * (Z.of_nat (length x) - 1)) q
                ltac:(lia)) as [_ Hex].
  rewrite (Hex Hmod) at 1. rewrite inject_Z_mult. field.
  intros H0. unfold Qeq in H0. simpl in H0. lia.
Qed.

(** C5, as stated, fails: not every [q] and not every score vector gives a
    grid. A negative [q] makes [np.linspace] raise, an empty score vector
    has no percentile, and with [q = 0] there is no bin at all, every
    observation getting the index -1. *)
Lemma quantile_grid_needs_scores_and_bins :
  quantile_grid [5; 1; 4]%Q (-1)
  = inl (ValueError "Number of samples must be non-negative")
  ∧ quantile_grid [] 2
    = inl (IndexError "index -1 is out of bounds for axis 0 with size 0")
  ∧ quantile_grid [5; 1; 4]%Q 0 = inr ([-1; -1; -1]%Z, [], []).
Proof. split; [|split]; vm_compute; reflexivity. Qed.

(** C5, amended. On a non-empty score vector and [q >= 1],
    [quantile_grid] returns: the [q] probabilities [100 k / q] for
    [k = 0, ..., q - 1], the left edges of [q] equal-width intervals of
    [0, 100); as the [q] bin edges, the percentiles of the scores at those
    probabilities; and for each observation the index [b] of the highest
    bin whose edge is at or below its score: an edge is at or below the
    score exactly when its bin is at most [b], so [b] is one of the [q]
    bins and every score at or above the last edge, however large, falls
    in the last bin. Of the percentiles: the first edge is the smallest
    score, the edges never decrease, and when [q] is a power of two (the
    positions [k (n - 1) / q] among the [n] sorted scores are then exact
    in double precision) edge [k] lies between the sorted scores at the
    whole positions around [k (n - 1) / q], and is the score at that
    position when it is whole. *)
Theorem quantile_grid_left_edges (x : vector) (q : Z) :
  x ≠ [] → (1 ≤ q)%Z →
  ∃ bin_indices bin_edges bin_pct,
    quantile_grid x q = inr (bin_indices, bin_edges, bin_pct)
    ∧ length bin_pct = Z.to_nat q
    ∧ (∀ k p, bin_pct !! k = Some p →
         (p == 100 * inject_Z (Z.of_nat k) / inject_Z q)%Q)
    ∧ percentile x bin_pct = inr bin_edges
    ∧ length bin_edges = Z.to_nat q
    ∧ (∃ e, bin_edges !! 0 = Some e
            ∧ (∀ v, v ∈ x → (e <= v)%Q) ∧ (∃ v, v ∈ x ∧ (e == v)%Q))
    ∧ increasing bin_edges
    ∧ (∀ j k e lo hi,
         (0 ≤ j)%Z → q = (2 ^ j)%Z → bin_edges !! k = Some e →
         let h := Z.to_nat (Z.of_nat k * (Z.of_nat (length x) - 1) / q) in
         merge_sort Qle x !! h = Some lo →
         merge_sort Qle x !! (S h `min` (length x - 1)) = Some hi →
         (lo <= e)%Q ∧ (e <= hi)%Q
         ∧ (((Z.of_nat k * (Z.of_nat (length x) - 1)) mod q = 0)%Z →
            (e == lo)%Q))
    ∧ length bin_indices = length x
    ∧ (∀ i v b, x !! i = Some v → bin_indices !! i = Some b →
         (∀ k e, bin_edges !! k = Some e →
            (e <= v)%Q ↔ (Z.of_nat k ≤ b)%Z)
         ∧ (0 ≤ b < q)%Z
         ∧ (∀ e, bin_edges !! (Z.to_nat q - 1) = Some e →
              (e <= v)%Q → b = (q - 1)%Z)).
Proof.
  intros Hx Hq.
  exists (grid_indices x q), (grid_edges x q), (grid_pct q).
  pose proof (grid_edges_increasing x q Hx) as Hinc.
  split; [apply quantile_grid_run; [done|lia]|].
  split; [apply grid_pct_length|]. split.
  { intros k p [-> Hk]%grid_pct_lookup. field.
    intros H0. unfold Qeq in H0. simpl in H0. lia. }
  split; [by apply percentile_ok|].
  split; [apply grid_edges_length|].
  split.
  { destruct (lookup_lt_is_Some_2 (grid_edges x q) 0) as [e He].
    { rewrite grid_edges_length. lia. }
    exists e. split; [done|].
    apply grid_edges_lookup in He as (p & [-> _]%grid_pct_lookup & ->).
    assert (quantile_sorted (merge_sort Qle x)
              ((inject_Z (Z.of_nat 0) * (100 / inject_Z q) + 0) / 100)
            == merge_sort Qle x !!! 0%nat)%Q as Hmin.
    { apply quantile_sorted_zero. simpl. field.
      intros H0. unfold Qeq in H0. simpl in H0. lia. }
    split.
    - intros v Hv. rewrite Hmin. by apply sort_min.
    - exists (merge_sort Qle x !!! 0). split; [|done].
      assert (merge_sort Qle x !!! 0 ∈ merge_sort Qle x) as Hin.
      { apply list_elem_of_lookup. exists 0.
        apply list_lookup_lookup_total_lt.
        pose proof (sort_nonempty x Hx).
        destruct (merge_sort Qle x); [done|]. simpl. lia. }
      revert Hin. generalize (merge_sort Qle x !!! 0).
      intros u Hin. by rewrite merge_sort_Permutation in Hin. }
  split; [done|].
  split.
  { intros j k e lo hi _ _ He h Hlo Hhi.
    by apply (grid_edge_between x q k e lo hi Hx He). }
  split; [unfold grid_indices; by rewrite length_fmap|].
  intros i v b Hv Hb. rewrite (grid_indices_lookup x q i v b Hv Hb).
  assert (∀ k e, grid_edges x q !! k = Some e →
    (e <= v)%Q ↔ (Z.of_nat k
       ≤ Z.of_nat (length (filter (λ e, e <= v)%Q (grid_edges x q))) - 1)%Z)
    as Hhigh.
  { intros k e He. rewrite (count_le_prefix _ v k e Hinc He). lia. }
  pose proof (grid_count_range x q v (list_elem_of_lookup_2 _ _ _ Hv) Hq)
    as Hrange.
  split; [done|]. split; [lia|].
  intros e He Hle.
  pose proof (proj1 (Hhigh _ e He) Hle) as Hk. lia.
Qed.

Lemma quantile_grid_left_edges_witness :
  ∃ bin_indices bin_edges bin_pct,
    quantile_grid [5; 1; 4; 2; 3; 9; 7]%Q 3
    = inr (bin_indices, bin_edges, bin_pct)
    ∧ length bin_pct = 3
    ∧ percentile [5; 1; 4; 2; 3; 9; 7]%Q bin_pct = inr bin_edges.
Proof.
  destruct (quantile_grid_left_edges [5; 1; 4; 2; 3; 9; 7]%Q 3)
    as (bi & be & bp & Hrun & Hlen & _ & Hpct & _).
  - discriminate.
  - lia.
  - exists bi, be, bp. split; [exact Hrun|]. split; [exact Hlen|exact Hpct].
Defined.

(** For ten groups the probabilities are 0, 10, ..., 90. *)
Example grid_pct_ten :
  Forall2 Qeq (grid_pct 10) [0; 10; 20; 30; 40; 50; 60; 70; 80; 90]%Q.
Proof. repeat constructor. Qed.

(** When the positions of the edges among the sorted scores are whole, the
    edges are scores, and distinct scores give strictly increasing edges. *)
Lemma grid_edges_whole_strict (x : vector) (q : Z) :
  2 ≤ length x → no_ties x → (1 ≤ q)%Z →
  ((Z.of_nat (length x) - 1) mod q = 0)%Z →
  strictly_increasing (grid_edges x q).
Proof.
  intros Hlen Hnt Hq Hmod i j a b Hi Hj Hij.
  assert (x ≠ []) as Hx by (intros ->; simpl in Hlen; lia).
  pose proof (lookup_lt_Some _ _ _ Hj) as Hjq. rewrite grid_edges_length in Hjq.
  apply Z.mod_divide in Hmod as [m Hm]; [|lia].
  assert (1 ≤ m)%Z as Hm1 by nia.
  assert (∀ k, k < Z.to_nat q →
    (Z.of_nat k * (Z.of_nat (length x) - 1) / q = Z.of_nat k * m)%Z
    ∧ ((Z.of_nat k * (Z.of_nat (length x) - 1)) mod q = 0)%Z) as Hpos.
  { intros k Hk. rewrite Hm.
    replace (Z.of_nat k * (m * q))%Z with (Z.of_nat k * m * q)%Z by lia.
    split; [apply Z.div_mul; lia|apply Z.mod_mul; lia]. }
  assert (∀ k e, k < Z.to_nat q → grid_edges x q !! k = Some e →
    ∃ lo, merge_sort Qle x !! Z.to_nat (Z.of_nat k * m) = Some lo
          ∧ (e == lo)%Q) as Hedge.
  { intros k e Hk He. destruct (Hpos k Hk) as [Hdiv Hwhole].
    destruct (lookup_lt_is_Some_2 (merge_sort Qle x)
                (Z.to_nat (Z.of_nat k * m))) as [lo Hlo].
    { rewrite sort_length. nia. }
    destruct (lookup_lt_is_Some_2 (merge_sort Qle x)
                (S (Z.to_nat (Z.of_nat k * m)) `min` (length x - 1)))
      as [hi Hhi].
    { rewrite sort_length. lia. }
    exists lo. split; [done|].
    apply (grid_edge_between x q k e lo hi Hx He); by rewrite ?Hdiv. }
  destruct (Hedge i a ltac:(lia) Hi) as (lo & Hlo & ->).
  destruct (Hedge j b Hjq Hj) as (lo' & Hlo' & ->).
  apply (sort_strictly_increasing x Hnt _ _ _ _ Hlo Hlo'). nia.
Qed.

(** C6, as stated, fails on a one-element score vector (which has no
    ties): both edges of [quantile_grid [5] 2] are 5. *)
Lemma quantile_grid_single_score_edges_equal :
  ¬ (∀ (x : vector) (q : Z),
       x ≠ [] → no_ties x → (2 ≤ q)%Z →
       ∃ bin_indices bin_edges bin_pct,
         quantile_grid x q = inr (bin_indices, bin_edges, bin_pct)
         ∧ strictly_increasing bin_edges
         ∧ Forall (λ b, 0 ≤ b < q)%Z bin_indices).
Proof.
  intros Hclaim.
  destruct (Hclaim [5%Q] 2%Z) as (bi & be & bp & Hrun & Hstrict & _).
  - discriminate.
  - intros [|i] [|j] a b Hi Hj Hij; simplify_eq/=.
  - lia.
  - vm_compute in Hrun. injection Hrun as <- <- <-.
    specialize (Hstrict 0 1 _ _ eq_refl eq_refl (Nat.lt_0_succ 0)).
    vm_compute in Hstrict. discriminate.
Qed.

(** C6, amended. For every non-empty score vector, with or without ties,
    and [q >= 2], the bin edges returned by [quantile_grid] never decrease
    and every bin index lies in [0, q). The edges need not strictly
    increase: a single score makes them all equal, and rounding can make
    interpolated edges between close scores equal. They do strictly
    increase for at least two scores without ties when [q] is a power of
    two that divides [n - 1]: the edges are then scores themselves, in
    double precision too. *)
Theorem quantile_grid_edges_in_order (x : vector) (q : Z) :
  x ≠ [] → (2 ≤ q)%Z →
  ∃ bin_indices bin_edges bin_pct,
    quantile_grid x q = inr (bin_indices, bin_edges, bin_pct)
    ∧ increasing bin_edges
    ∧ Forall (λ b, 0 ≤ b < q)%Z bin_indices
    ∧ (∀ e, (0 ≤ e)%Z → q = (2 ^ e)%Z →
         2 ≤ length x → no_ties x →
         ((Z.of_nat (length x) - 1) mod q = 0)%Z →
         strictly_increasing bin_edges).
Proof.
  intros Hx Hq.
  exists (grid_indices x q), (grid_edges x q), (grid_pct q).
  split; [apply quantile_grid_run; [done|lia]|].
  split; [by apply grid_edges_increasing|].
  split.
  - apply Forall_lookup. intros i b Hb.
    destruct (lookup_lt_is_Some_2 x i) as [v Hv].
    { apply lookup_lt_Some in Hb. unfold grid_indices in Hb.
      by rewrite length_fmap in Hb. }
    rewrite (grid_indices_lookup x q i v b Hv Hb).
    pose proof (grid_count_range x q v (list_elem_of_lookup_2 _ _ _ Hv)
                  ltac:(lia)).
    lia.
  - intros e _ _ Hlen Hnt Hmod.
    apply grid_edges_whole_strict; [done|done|lia|done].
Qed.

Lemma quantile_grid_edges_in_order_witness :
  ∃ bin_indices bin_edges bin_pct,
    quantile_grid [5; 1; 4]%Q 2 = inr (bin_indices, bin_edges, bin_pct)
    ∧ increasing bin_edges
    ∧ strictly_increasing bin_edges.
Proof.
  destruct (quantile_grid_edges_in_order [5; 1; 4]%Q 2)
    as (bi & be & bp & Hrun & Hinc & _ & Hstrict).
  - discriminate.
  - lia.
  - exists bi, be, bp. split; [exact Hrun|]. split; [exact Hinc|].
    apply (Hstrict 1%Z); [lia|reflexivity|simpl; lia| |reflexivity].
    intros [|[|[|i]]] [|[|[|j]]] a b Hi Hj Hij;
      simplify_eq/=; discriminate.
Defined.

(** ** blp *)

Lemma lookup_total_Some' {A} `{Inhabited A} (l : list A) i :
  i < length l → l !! i = Some (l !!! i).
Proof. apply list_lookup_lookup_total_lt. Qed.

Lemma column_stack_design (y d prop b_hat s_hat : vector) :
  length d = length y → length prop = length y →
  length b_hat = length y → length s_hat = length y →
  column_stack
    [replicate (length y) 1%Q; b_hat; zip_with Qminus d prop;
     zip_with Qmult (zip_with Qminus d prop)
       ((λ s, s - mean s_hat)%Q <$> s_hat)]
  = inr (blp_design d prop b_hat s_hat).
Proof.
  intros Hd Hp Hb Hs. unfold column_stack.
  rewrite decide_True.
  - unfold ok, blp_design. f_equal. rewrite length_replicate, Hd.
    apply list_fmap_ext. intros i ? [-> Hi]%lookup_seq. simpl.
    rewrite lookup_replicate_2 by done. simpl.
    rewrite (lookup_total_Some' b_hat i) by lia. simpl.
    rewrite !lookup_zip_with, list_lookup_fmap.
    rewrite (lookup_total_Some' d i), (lookup_total_Some' prop i),
      (lookup_total_Some' s_hat i) by lia.
    reflexivity.
  - repeat (apply Forall_cons; split); [..|apply Forall_nil];
      rewrite ?length_replicate, ?length_zip_with, ?length_fmap; lia.
Qed.

Section blp.
Context {M : Type} `{Solver}.
Implicit Types w : world M.

(** What a run of [blp] does on aligned inputs: it builds the design
    matrix, hands it to the solver with weights all equal to 1, and returns
    the third and fourth coefficients. *)
Lemma blp_run (y d prop b_hat s_hat : vector) (print_table : bool) w
    (params : vector) :
  length d = length y → length prop = length y →
  length b_hat = length y → length s_hat = length y →
  lstsq (blp_design d prop b_hat s_hat) y (replicate (length y) 1%Q)
    = inr params →
  4 ≤ length params →
  blp y d prop b_hat s_hat print_table w
  = (inr {| ate := params !!! 2; het := params !!! 3 |},
     World (rng w) (model w)
       (trace w
        ++ EvLstsq (blp_design d prop b_hat s_hat) y
             (replicate (length y) 1%Q)
        :: (if print_table
            then [EvPrint ["const."; "b0"; "ate"; "het"]%string] else []))).
Proof.
  intros Hd Hp Hb Hs Hfit Hlen. unfold blp.
  rewrite (run_lift_ok _ _ _ _
             (broadcast2_same Qminus d prop (eq_trans Hd (eq_sym Hp)))).
  rewrite (run_lift_ok _ _ _ _
             (broadcast2_same Qminus d prop (eq_trans Hd (eq_sym Hp)))).
  assert (length (zip_with Qminus d prop)
          = length ((λ s, s - mean s_hat)%Q <$> s_hat)) as Hcols.
  { rewrite length_zip_with, length_fmap. lia. }
  rewrite (run_lift_ok _ _ _ _ (broadcast2_same Qmult _ _ Hcols)).
  rewrite (run_lift_ok _ _ _ _ (column_stack_design y d prop b_hat s_hat
                                  Hd Hp Hb Hs)).
  unfold WLS_fit, WLS. simpl.
  rewrite run_bind. unfold emit at 1. simpl. rewrite Hfit.
  assert (item params 2 = inr (params !!! 2)) as Hate.
  { unfold item. by rewrite (lookup_total_Some' params 2) by lia. }
  assert (item params 3 = inr (params !!! 3)) as Hhet.
  { unfold item. by rewrite (lookup_total_Some' params 3) by lia. }
  destruct print_table.
  - rewrite run_bind. unfold emit. simpl.
    rewrite (run_lift_ok _ _ _ _ (eq_refl (inr 2))).
    rewrite (run_lift_ok _ _ _ _ Hate).
    rewrite (run_lift_ok _ _ _ _ (eq_refl (inr 3))).
    rewrite (run_lift_ok _ _ _ _ Hhet).
    by rewrite <- app_assoc.
  - rewrite run_bind. simpl.
    rewrite (run_lift_ok _ _ _ _ (eq_refl (inr 2))).
    rewrite (run_lift_ok _ _ _ _ Hate).
    rewrite (run_lift_ok _ _ _ _ (eq_refl (inr 3))).
    rewrite (run_lift_ok _ _ _ _ Hhet).
    reflexivity.
Qed.

End blp.

(** C3 (defect). [blp] computes the weights [1 / (P (1 - P))] but passes
    them to [WLS] under the keyword [w]; the regression weights are the
    keyword [weights], so the fit runs with weight 1 on every row. On the
    data below the solver is called with unit weights, and the returned
    ATE and HET are those of the unweighted fit, not those of the fit
    weighted by [1 / (P (1 - P))]. *)
Theorem blp_fit_drops_propensity_weights :
  let y := [2; 1; 7; 9; 4; 7]%Q in
  let d := [1; 0; 1; 1; 0; 0]%Q in
  let prop := [1 # 2; 1 # 2; 1 # 3; 1 # 2; 1 # 2; 1 # 4]%Q in
  let b_hat := [1; 2; 3; 4; 5; 6]%Q in
  let s_hat := [1; 3; 2; 5; 4; 7]%Q in
  let X := blp_design d prop b_hat s_hat in
  ∃ r w' unweighted weighted,
    blp y d prop b_hat s_hat false (World [] () []) = (inr r, w')
    ∧ trace w' = [EvLstsq X y [1; 1; 1; 1; 1; 1]%Q]
    ∧ propensity_weights prop = [4; 4; 9 # 2; 4; 4; 16 # 3]%Q
    ∧ lstsq X y [1; 1; 1; 1; 1; 1]%Q = inr unweighted
    ∧ lstsq X y (propensity_weights prop) = inr weighted
    ∧ ate r = unweighted !!! 2 ∧ het r = unweighted !!! 3
    ∧ ¬ (ate r == weighted !!! 2%nat)%Q ∧ ¬ (het r == weighted !!! 3%nat)%Q.
Proof.
  intros y d prop b_hat s_hat X.
  eexists _, _, _, _.
  split.
  { apply blp_run;
      [reflexivity|reflexivity|reflexivity|reflexivity
      |vm_compute; reflexivity|simpl; lia]. }
  split; [reflexivity|].
  split; [vm_compute; reflexivity|].
  split; [vm_compute; reflexivity|].
  split; [vm_compute; reflexivity|].
  split; [reflexivity|]. split; [reflexivity|].
  split; vm_compute; discriminate.
Qed.

(** ** gates *)

Lemma raises_bind {M A B} (p : prog M A) (k : A → prog M B) :
  (∀ a, always_raises (k a)) → always_raises (p ≫= k).
Proof.
  intros Hk w. rewrite run_bind. destruct (p w) as [[e|a] w1]; [eauto|].
  apply Hk.
Qed.

Section gates.
Context {M : Type} `{Solver}.
Implicit Types w : world M.

Lemma uniform_draws_ok n w :
  ∃ us w', uniform_draws n w = (inr us, w') ∧ length us = n ∧ quiet w w'.
Proof.
  revert w. induction n as [|n IH]; intros w.
  { exists [], w. done. }
  destruct (next_word_spec w) as (r & w1 & Hr & Hq1).
  destruct (IH w1) as (us & w2 & Hus & Hlen & Hq2).
  eexists (_ :: us), w2. split; [|split].
  - simpl. unfold random_sample.
    rewrite run_bind, run_bind, Hr. simpl. rewrite run_bind, Hus. done.
  - simpl. by rewrite Hlen.
  - by eapply quiet_trans.
Qed.

Lemma uniform_ok n w :
  ∃ us w', uniform n w = (inr us, w') ∧ length us = n.
Proof.
  destruct (uniform_draws_ok n w) as (us & w1 & Hus & Hlen & _).
  eexists us, _. split; [|done].
  unfold uniform. rewrite (run_bind_ok _ _ _ _ _ Hus). reflexivity.
Qed.

(** The jittered scores handed to [quantile_grid]. *)
Lemma gates_jitter (s_hat us : vector) :
  length us = length s_hat →
  broadcast2 fadd s_hat (fmul jitter_scale <$> us)
  = inr (jittered s_hat us).
Proof. intros Hlen. apply broadcast2_same. by rewrite length_fmap. Qed.

Lemma gates_negative_q (y d prop s_hat : vector) (q : Z) (pt : bool) w :
  (q < 0)%Z →
  ∃ w', gates y d prop s_hat q pt w
        = (inl (ValueError "Number of samples must be non-negative"), w').
Proof.
  intros Hq. destruct (uniform_ok (length s_hat) w) as (us & w1 & Hus & Hlen).
  exists w1. unfold gates.
  rewrite (run_bind_ok _ _ _ _ _ Hus).
  rewrite (run_lift_ok _ _ _ _ (gates_jitter s_hat us Hlen)).
  apply run_lift_raise. unfold quantile_grid, linspace0.
  by rewrite bool_decide_eq_true_2.
Qed.

Lemma gates_zero_q (y d prop s_hat : vector) (pt : bool) w :
  s_hat ≠ [] →
  ∃ w', gates y d prop s_hat 0 pt w
        = (inl (IndexError "index out of bounds for axis 1"), w').
Proof.
  intros Hs. destruct (uniform_ok (length s_hat) w) as (us & w1 & Hus & Hlen).
  exists w1. unfold gates.
  rewrite (run_bind_ok _ _ _ _ _ Hus).
  rewrite (run_lift_ok _ _ _ _ (gates_jitter s_hat us Hlen)).
  set (jit := jittered s_hat us).
  assert (length jit = length s_hat) as Hjit.
  { unfold jit, jittered. rewrite length_zip_with, length_fmap. lia. }
  assert (jit ≠ []) as Hne.
  { intros Hnil. rewrite Hnil in Hjit. by destruct s_hat. }
  rewrite (run_lift_ok _ _ _ _ (quantile_grid_run jit 0 Hne ltac:(lia))).
  assert (grid_edges jit 0 = []) as Hedges.
  { apply nil_length_inv. by rewrite grid_edges_length. }
  rewrite Hedges. apply run_lift_raise.
  unfold grid_indices. rewrite Hedges.
  destruct jit as [|v jit']; [done|]. destruct s_hat as [|s0 s']; [done|].
  unfold set_cells. simpl in Hjit. rewrite decide_True.
  - reflexivity.
  - rewrite length_seq, length_fmap. done.
Qed.

End gates.

Lemma raises_first {M A B} (p : prog M A) (k : A → prog M B) :
  always_raises p → always_raises (p ≫= k).
Proof.
  intros Hp w. destruct (Hp w) as (e & w' & Hrun).
  exists e, w'. by apply run_bind_raise.
Qed.

(** C8, as stated, fails at [q = 1]: [gates] fits a single group and
    returns. *)
Lemma gates_single_group_returns :
  (∃ r w', gates [2; 1; 7; 9; 4; 7]%Q [1; 0; 1; 1; 0; 0]%Q
             [1 # 2; 1 # 2; 1 # 3; 1 # 2; 1 # 2; 1 # 4]%Q
             [1; 3; 2; 5; 4; 7]%Q 1 false (World [3; 1; 4; 1; 5; 9] () [])
           = (inr r, w')
           ∧ length (coef_baseline r) = 1 ∧ length (coef_treatment r) = 1)
  ∧ ¬ (∃ e w', gates [2; 1; 7; 9; 4; 7]%Q [1; 0; 1; 1; 0; 0]%Q
                 [1 # 2; 1 # 2; 1 # 3; 1 # 2; 1 # 2; 1 # 4]%Q
                 [1; 3; 2; 5; 4; 7]%Q 1 false (World [3; 1; 4; 1; 5; 9] () [])
               = (inl e, w')).
Proof.
  destruct (gates _ _ _ _ 1 false _) as [[e|r] w'] eqn:Hrun;
    vm_compute in Hrun; [discriminate|].
  injection Hrun as <- <-. split.
  - eexists _, _. split; [reflexivity|]. split; reflexivity.
  - intros (e & w'' & He). discriminate.
Qed.

(** C8, amended. [gates] raises for every [q < 0] (the [ValueError] of the
    probability grid) and for [q = 0] on a non-empty score vector (an
    [IndexError] when the indicator matrix, which then has no column, is
    filled), and [combine] with second_stage = "gates" raises for every
    [q < 0]. A single group, [q = 1], is not rejected. *)
Theorem gates_rejects_nonpositive_q {M} `{Model M} `{Solver} (x : matrix)
    (y d prop s_hat : vector) (q : Z) (print_table : bool) (prob_m : Q)
    (w : world M) :
  (q ≤ 0)%Z → (q = 0%Z → s_hat ≠ []) →
  (∃ e w', gates y d prop s_hat q print_table w = (inl e, w')
     ∧ ((q < 0)%Z → e = ValueError "Number of samples must be non-negative")
     ∧ (q = 0%Z → e = IndexError "index out of bounds for axis 1"))
  ∧ ((q < 0)%Z →
     ∃ e w', combine x y d prop "gates" q prob_m w = (inl e, w')).
Proof.
  intros Hq Hs. split.
  - destruct (decide (q = 0%Z)) as [->|Hne].
    + destruct (gates_zero_q y d prop s_hat print_table w (Hs eq_refl))
        as (w' & Hrun).
      eexists _, w'. split; [exact Hrun|]. split; [lia|done].
    + destruct (gates_negative_q y d prop s_hat q print_table w ltac:(lia))
        as (w' & Hrun).
      eexists _, w'. split; [exact Hrun|]. split; [done|lia].
  - intros Hneg. revert w. change (always_raises
      (combine x y d prop "gates" q prob_m)).
    unfold combine. apply raises_bind. intros sample.
    apply raises_bind. intros [b_hat s_hat'].
    rewrite decide_False by done. rewrite decide_True by done.
    apply raises_bind. intros y_m. apply raises_bind. intros d_m.
    apply raises_bind. intros prop_m. apply raises_bind. intros s_m.
    apply raises_first. intros w.
    destruct (gates_negative_q y_m d_m prop_m s_m q false w Hneg)
      as (w' & Hrun).
    eauto.
Qed.

Lemma gates_rejects_nonpositive_q_witness :
  ∃ e w', gates [2; 1; 7]%Q [1; 0; 1]%Q [1 # 2; 1 # 2; 1 # 3]%Q
            [1; 3; 2]%Q 0 false (World [3; 1; 4] () []) = (inl e, w').
Proof.
  destruct (gates_rejects_nonpositive_q (M := unit)
              (H := {| fit := λ m _ _, inr m; predict := λ _ _, inr [] |})
              [] [2; 1; 7]%Q [1; 0; 1]%Q [1 # 2; 1 # 2; 1 # 3]%Q [1; 3; 2]%Q
              0 false 0 (World [3; 1; 4] () []))
    as [(e & w' & Hrun & _) _].
  - lia.
  - intros _. discriminate.
  - exists e, w'. exact Hrun.
Defined.

(** C4 (defect). [gates] builds the indicator matrix and the design
    [G | G (D - P)] and splits the coefficients as stated, but like [blp]
    it passes the weights to [WLS] under the keyword [w], so the fit runs
    with weight 1 on every row. On the data below the solver is called
    with unit weights and the returned coefficients are those of the
    unweighted fit, not of the fit weighted by [1 / (P (1 - P))]. *)
Theorem gates_fit_drops_propensity_weights :
  let y := [2; 1; 7; 9; 4; 7]%Q in
  let d := [1; 0; 1; 1; 0; 0]%Q in
  let prop := [1 # 2; 1 # 2; 1 # 3; 1 # 2; 1 # 2; 1 # 4]%Q in
  let s_hat := [1; 3; 2; 5; 4; 7]%Q in
  ∃ r w' us X unweighted weighted,
    gates y d prop s_hat 2 false (World [3; 1; 4; 1; 5; 9] () [])
    = (inr r, w')
    ∧ trace w' = [EvUniform us; EvLstsq X y [1; 1; 1; 1; 1; 1]%Q]
    ∧ Forall2 (Forall2 Qeq) X
        [[1; 0; 1 # 2; 0]; [1; 0; -1 # 2; 0]; [1; 0; 2 # 3; 0];
         [0; 1; 0; 1 # 2]; [0; 1; 0; -1 # 2]; [0; 1; 0; -1 # 4]]%Q
    ∧ bin_count r = [3; 3]%Q
    ∧ lstsq X y [1; 1; 1; 1; 1; 1]%Q = inr unweighted
    ∧ lstsq X y (propensity_weights prop) = inr weighted
    ∧ coef_baseline r = take 2 unweighted
    ∧ coef_treatment r = drop 2 unweighted
    ∧ ¬ (coef_baseline r !!! 0%nat == weighted !!! 0%nat)%Q
    ∧ ¬ (coef_treatment r !!! 0%nat == weighted !!! 2%nat)%Q.
Proof.
  intros y d prop s_hat.
  destruct (gates y d prop s_hat 2 false _) as [[e|r] w'] eqn:Hrun;
    vm_compute in Hrun; [discriminate|].
  injection Hrun as <- <-.
  eexists _, _, _, _, _, _. split; [reflexivity|].
  split; [reflexivity|].
  split; [repeat constructor|].
  split; [reflexivity|].
  split; [vm_compute; reflexivity|].
  split; [vm_compute; reflexivity|].
  split; [reflexivity|]. split; [reflexivity|].
  split; vm_compute; discriminate.
Qed.

(** ** combine *)

Lemma lift_inv {M A} (r : result A) (w w' : world M) (a : A) :
  lift r w = (inr a, w') → r = inr a ∧ w' = w.
Proof. unfold lift. by intros [= -> ->]. Qed.

Section combine.
Context {M : Type} `{Model M} `{Solver}.
Implicit Types w : world M.

Lemma model_fit_trace X y w r w' :
  model_fit X y w = (r, w') → trace w' = trace w ++ [EvFit X y].
Proof.
  unfold model_fit. destruct (fit (model w) X y); by intros [= <- <-].
Qed.

Lemma model_predict_trace X w r w' :
  model_predict X w = (r, w') → trace w' = trace w ++ [EvPredict X].
Proof. unfold model_predict. by intros [= <- <-]. Qed.

(** A run of [ml_proxy] that returns has logged two fits, each followed by
    a prediction on all rows. *)
Lemma ml_proxy_inv (x : matrix) (y d : vector) (sample : list string)
    w r w' :
  ml_proxy x y d sample w = (inr r, w') →
  ∃ X1 t1 X2 t2,
    trace w' = trace w
      ++ [EvFit X1 t1; EvPredict x; EvFit X2 t2; EvPredict x].
Proof.
  unfold ml_proxy. intros Hrun.
  repeat match type of Hrun with
  | (lift ?r ≫= _) ?w0 = _ =>
      rewrite run_bind in Hrun; unfold lift at 1 in Hrun;
      destruct r as [?e|?a]; [discriminate Hrun|]
  end.
  rewrite run_bind in Hrun.
  destruct (model_fit _ _ _) as [[e|[]] w1] eqn:Hfit1; [discriminate|].
  apply model_fit_trace in Hfit1.
  rewrite run_bind in Hrun.
  destruct (model_predict x _) as [[e|pred_ctrl] w2] eqn:Hp1; [discriminate|].
  apply model_predict_trace in Hp1.
  repeat match type of Hrun with
  | (lift ?r ≫= _) ?w0 = _ =>
      rewrite run_bind in Hrun; unfold lift at 1 in Hrun;
      destruct r as [?e|?a]; [discriminate Hrun|]
  end.
  rewrite run_bind in Hrun.
  destruct (model_fit _ _ _) as [[e|[]] w3] eqn:Hfit2; [discriminate|].
  apply model_fit_trace in Hfit2.
  rewrite run_bind in Hrun.
  destruct (model_predict x _) as [[e|pred_treat] w4] eqn:Hp2; [discriminate|].
  apply model_predict_trace in Hp2.
  injection Hrun as <- <-.
  eexists _, _, _, _. rewrite Hp2, Hfit2, Hp1, Hfit1, <- !app_assoc. done.
Qed.

Lemma partition_trace (d : vector) (prob_m : Q) w sample w' :
  partition d prob_m w = (inr sample, w') →
  ∃ a1 s1 o1 a2 s2 o2,
    trace w' = trace w ++ [EvChoice a1 s1 o1; EvChoice a2 s2 o2].
Proof.
  intros Hrun.
  destruct (partition_inv d prob_m w sample w' Hrun) as [Hst Hsc].
  destruct (partition_run d prob_m w Hst Hsc)
    as (tm & cm & sample' & w'' & Hrun' & _ & Htr & _).
  rewrite Hrun in Hrun'. injection Hrun' as <- <-. eauto 10.
Qed.

End combine.

(** C7, as stated, fails: with second_stage = "foo" the data are
    partitioned and the model is fitted twice before the error is raised. *)
Lemma combine_invalid_stage_fits_first :
  ∃ w' a1 s1 o1 a2 s2 o2 X1 t1 X2 t2,
    combine [[1]; [2]; [3]; [4]]%Q [2; 1; 7; 9]%Q [1; 0; 1; 0]%Q
      [1 # 2; 1 # 2; 1 # 2; 1 # 2]%Q "foo" 10 (1 # 2)
      (World [7; 3; 11] 0%Q [])
    = (inl (ValueError ("Argument second_stage must be " ++ quoted "blp"
                        ++ " or " ++ quoted "gates")), w')
    ∧ trace w' = [EvChoice a1 s1 o1; EvChoice a2 s2 o2;
                  EvFit X1 t1; EvPredict [[1]; [2]; [3]; [4]]%Q;
                  EvFit X2 t2; EvPredict [[1]; [2]; [3]; [4]]%Q]
    ∧ rng w' ≠ [7; 3; 11]
    ∧ model w' ≠ 0%Q.
Proof.
  destruct (combine _ _ _ _ "foo" _ _ _) as [r w'] eqn:Hrun.
  vm_compute in Hrun. injection Hrun as <- <-.
  eexists _, _, _, _, _, _, _, _, _, _, _.
  split; [reflexivity|]. split; [reflexivity|]. split; discriminate.
Qed.

(** C7, amended. For a second_stage that is neither "blp" nor "gates",
    [combine] partitions the data and runs both stages of [ml_proxy]
    first; an error of those steps is the error of [combine], and when
    they return, [combine] raises the invalid-argument error, after two
    draws, two fits and two predictions. It never returns a result. *)
Theorem combine_rejects_stage_after_fitting {M} `{Model M} `{Solver}
    (x : matrix) (y d prop : vector) (second_stage : string) (q : Z)
    (prob_m : Q) (w : world M) :
  second_stage ≠ "blp"%string → second_stage ≠ "gates"%string →
  let invalid := ValueError ("Argument second_stage must be " ++ quoted "blp"
                             ++ " or " ++ quoted "gates") in
  combine x y d prop second_stage q prob_m w
  = match partition d prob_m w with
    | (inl e, w1) => (inl e, w1)
    | (inr sample, w1) =>
        match ml_proxy x y d sample w1 with
        | (inl e, w2) => (inl e, w2)
        | (inr _, w2) => (inl invalid, w2)
        end
    end
  ∧ (∀ sample w1 r w2,
       partition d prob_m w = (inr sample, w1) →
       ml_proxy x y d sample w1 = (inr r, w2) →
       combine x y d prop second_stage q prob_m w = (inl invalid, w2)
       ∧ ∃ a1 s1 o1 a2 s2 o2 X1 t1 X2 t2,
           trace w2 = trace w
             ++ [EvChoice a1 s1 o1; EvChoice a2 s2 o2;
                 EvFit X1 t1; EvPredict x; EvFit X2 t2; EvPredict x]).
Proof.
  intros Hblp Hgates invalid.
  assert (combine x y d prop second_stage q prob_m w
          = match partition d prob_m w with
            | (inl e, w1) => (inl e, w1)
            | (inr sample, w1) =>
                match ml_proxy x y d sample w1 with
                | (inl e, w2) => (inl e, w2)
                | (inr _, w2) => (inl invalid, w2)
                end
            end) as Hrun.
  { unfold combine. rewrite run_bind.
    destruct (partition d prob_m w) as [[e|sample] w1]; [done|].
    rewrite run_bind.
    destruct (ml_proxy x y d sample w1) as [[e|[b_hat s_hat]] w2]; [done|].
    rewrite decide_False by done. rewrite decide_False by done.
    reflexivity. }
  split; [exact Hrun|].
  intros sample w1 r w2 Hpart Hproxy.
  rewrite Hrun, Hpart, Hproxy. split; [done|].
  destruct (partition_trace d prob_m w sample w1 Hpart)
    as (a1 & s1 & o1 & a2 & s2 & o2 & Ht1).
  destruct (ml_proxy_inv x y d sample w1 r w2 Hproxy)
    as (X1 & t1 & X2 & t2 & Ht2).
  exists a1, s1, o1, a2, s2, o2, X1, t1, X2, t2.
  rewrite Ht2, Ht1, <- app_assoc. done.
Qed.

Lemma combine_rejects_stage_after_fitting_witness :
  ∃ e w', combine [[1]; [2]; [3]; [4]]%Q [2; 1; 7; 9]%Q [1; 0; 1; 0]%Q
            [1 # 2; 1 # 2; 1 # 2; 1 # 2]%Q "foo" 10 (1 # 2)
            (World [7; 3; 11] 0%Q [])
          = (inl e, w').
Proof.
  destruct (combine_rejects_stage_after_fitting
              [[1]; [2]; [3]; [4]]%Q [2; 1; 7; 9]%Q [1; 0; 1; 0]%Q
              [1 # 2; 1 # 2; 1 # 2; 1 # 2]%Q "foo" 10 (1 # 2)
              (World [7; 3; 11] 0%Q [])) as [Hrun _].
  - discriminate.
  - discriminate.
  - rewrite Hrun. vm_compute. eexists _, _. reflexivity.
Defined.

(** ** The whole sample as main sample *)

Lemma main_size_full (rows : list nat) :
  (Z.of_nat (length rows) ≤ 2 ^ 53)%Z →
  main_size 1 rows = Z.of_nat (length rows).
Proof.
  intros Hn. unfold main_size, floor_int.
  rewrite fmul_nat by (done || discriminate).
  rewrite (round64_proper _ (inject_Z (Z.of_nat (length rows)))).
  - by rewrite round64_nat, Qfloor_Z.
  - rewrite Qmult_1_l. change 0%Q with (inject_Z 0). rewrite <- Zle_Qle. lia.
  - ring.
Qed.

Lemma NoDup_full_subset (l k : list nat) :
  NoDup l → l ⊆ k → length k ≤ length l → k ⊆ l.
Proof.
  intros Hl Hsub Hlen i Hi.
  assert (l ≡ₚ k) as Hperm.
  { apply submseteq_length_Permutation; [|done]. by apply NoDup_submseteq. }
  by rewrite Hperm.
Qed.

Lemma compress_none {A} (n : nat) (a : list A) :
  compress (replicate n false) a = [].
Proof. revert a. induction n as [|n IH]; intros [|v a]; simpl; auto. Qed.

Lemma zip_and_false (l : list bool) :
  zip_with andb (replicate (length l) false) l = replicate (length l) false.
Proof. induction l as [|b l IH]; [done|]. simpl. by rewrite IH. Qed.

Lemma no_aux_mask (n : nat) (d : vector) (v : Q) :
  length d = n →
  zip_with andb (eq_label (replicate n "m"%string) "a") (eq_scalar d v)
  = replicate n false.
Proof.
  intros <-. unfold eq_label. rewrite fmap_replicate.
  replace (bool_decide ("m"%string = "a"%string)) with false by done.
  rewrite <- (length_fmap (λ x, Qeq_bool x v) d). apply zip_and_false.
Qed.

Section full_main.
Context {M : Type} `{Model M} `{Solver}.
Implicit Types w : world M.

Lemma partition_all_main (d : vector) w :
  Forall (λ v, v == 0 ∨ v == 1)%Q d →
  (Z.of_nat (length d) ≤ 2 ^ 53)%Z →
  ∃ w1, partition d 1 w = (inr (replicate (length d) "m"%string), w1)
        ∧ model w1 = model w.
Proof.
  intros Hd Hbig.
  pose proof (arm_length d 1) as Hlt. pose proof (arm_length d 0) as Hlc.
  destruct (partition_ok d 1 w ltac:(split; discriminate) Hbig)
    as (tm & cm & sample & w1 & Hrun & Hm & _ & (Htm1 & Htm2 & Htm3)
        & (Hcm1 & Hcm2 & Hcm3) & Hlen & Hin & _).
  rewrite main_size_full, Nat2Z.id in Htm3, Hcm3 by lia.
  exists w1. split; [|done]. rewrite Hrun. do 2 f_equal.
  apply list_eq. intros i.
  destruct (decide (i < length d)) as [Hi|Hi].
  - rewrite lookup_replicate_2 by done. apply Hin, elem_of_app.
    destruct (lookup_lt_is_Some_2 d i Hi) as [v Hv].
    rewrite Forall_lookup in Hd. destruct (Hd i v Hv) as [Hv0|Hv1].
    + right. apply (NoDup_full_subset cm _ Hcm1 Hcm2 ltac:(lia)).
      apply where_control. unfold control. rewrite Hv.
      by apply Qeq_bool_iff.
    + left. apply (NoDup_full_subset tm _ Htm1 Htm2 ltac:(lia)).
      apply where_treated. unfold treated. rewrite Hv.
      by apply Qeq_bool_iff.
  - rewrite !lookup_ge_None_2; [done|rewrite length_replicate; lia|lia].
Qed.

End full_main.

(** C9, as stated, fails: with prob_m = 1 and a model that accepts an empty
    training set, the pipeline labels every row main, fits the model on no
    row at all and returns a result. *)
Lemma combine_full_main_sample_returns :
  (∃ r w', combine [[1]; [2]; [3]; [4]; [5]; [6]; [7]; [8]]%Q
             [2; 1; 7; 9; 4; 7; 15; 9]%Q [1; 0; 1; 1; 0; 0; 1; 0]%Q
             [1 # 2; 1 # 2; 1 # 3; 1 # 2; 1 # 2; 1 # 4; 1 # 2; 1 # 2]%Q
             "gates" 2 1 (World [7; 3; 11; 2; 5; 1; 8; 9; 22; 4; 6] 0%Q [])
           = (inr r, w')
           ∧ EvFit [] [] ∈ trace w')
  ∧ ¬ (∃ e w', combine [[1]; [2]; [3]; [4]; [5]; [6]; [7]; [8]]%Q
                 [2; 1; 7; 9; 4; 7; 15; 9]%Q [1; 0; 1; 1; 0; 0; 1; 0]%Q
                 [1 # 2; 1 # 2; 1 # 3; 1 # 2; 1 # 2; 1 # 4; 1 # 2; 1 # 2]%Q
                 "gates" 2 1 (World [7; 3; 11; 2; 5; 1; 8; 9; 22; 4; 6] 0%Q [])
               = (inl e, w')).
Proof.
  destruct (combine _ _ _ _ "gates" 2 1 _) as [[e|r] w'] eqn:Hrun;
    vm_compute in Hrun; [discriminate|].
  injection Hrun as <- <-. split.
  - eexists _, _. split; [reflexivity|].
    by apply (list_elem_of_lookup_2 _ 2).
  - intros (e & w'' & He). discriminate.
Qed.

(** C9, amended. For a treatment vector over {0,1} (of at most [2^53]
    rows, so that the number of rows is itself a double) and prob_m = 1,
    [partition] labels every row main, so both fits of [ml_proxy] get an
    empty training set. The code has no check of its own: when the model's
    [fit] raises on the empty set, that error is the error of [combine];
    when the model accepts it, [ml_proxy] returns and the pipeline goes on
    to the second stage. *)
Theorem combine_full_main_sample_fits_nothing {M} `{Model M} `{Solver}
    (x : matrix) (y d prop : vector) (second_stage : string) (q : Z)
    (w : world M) :
  Forall (λ v, v == 0 ∨ v == 1)%Q d →
  (Z.of_nat (length d) ≤ 2 ^ 53)%Z →
  length x = length d → length y = length d →
  ∃ w1,
    partition d 1 w = (inr (replicate (length d) "m"%string), w1)
    ∧ model w1 = model w
    ∧ (∀ e, fit (model w) [] [] = inl e →
         combine x y d prop second_stage q 1 w
         = (inl e, World (rng w1) (model w) (trace w1 ++ [EvFit [] []])))
    ∧ (∀ m1 b_hat m2 s_hat,
         fit (model w) [] [] = inr m1 → predict m1 x = inr b_hat →
         length b_hat = length d →
         fit m1 [] [] = inr m2 → predict m2 x = inr s_hat →
         ml_proxy x y d (replicate (length d) "m"%string) w1
         = (inr (b_hat, s_hat),
            World (rng w1) m2
              (trace w1 ++ [EvFit [] []; EvPredict x;
                            EvFit [] []; EvPredict x]))).
Proof.
  intros Hd Hbig Hx Hy.
  destruct (partition_all_main d w Hd Hbig) as (w1 & Hpart & Hm).
  exists w1. split; [done|]. split; [done|].
  set (n := length d) in *.
  assert (∀ v, broadcast2 andb (eq_label (replicate n "m"%string) "a")
                 (eq_scalar d v) = inr (replicate n false)) as Hmask.
  { intros v. rewrite broadcast2_same.
    - by rewrite no_aux_mask.
    - unfold eq_label, eq_scalar. by rewrite !length_fmap, length_replicate. }
  assert (∀ {A} (a : list A), length a = n →
            mask_index a (replicate n false) = inr []) as Hidx.
  { intros A a Ha. rewrite mask_index_same.
    - by rewrite compress_none.
    - by rewrite length_replicate. }
  split.
  - intros e Hfit. unfold combine.
    rewrite (run_bind_ok _ _ _ _ _ Hpart). apply run_bind_raise.
    unfold ml_proxy.
    rewrite (run_lift_ok _ _ _ _ (Hmask 0%Q)).
    rewrite (run_lift_ok _ _ _ _ (Hidx _ x Hx)).
    rewrite (run_lift_ok _ _ _ _ (Hidx _ y Hy)).
    apply run_bind_raise. rewrite <- Hm in Hfit.
    rewrite (model_fit_raise _ _ _ _ Hfit). by rewrite Hm.
  - intros m1 b_hat m2 s_hat Hfit1 Hp1 Hb Hfit2 Hp2. unfold ml_proxy.
    rewrite (run_lift_ok _ _ _ _ (Hmask 0%Q)).
    rewrite (run_lift_ok _ _ _ _ (Hidx _ x Hx)).
    rewrite (run_lift_ok _ _ _ _ (Hidx _ y Hy)).
    rewrite <- Hm in Hfit1.
    rewrite (run_bind_ok _ _ _ _ _ (model_fit_ok _ _ _ _ Hfit1)).
    rewrite run_bind. unfold model_predict at 1. simpl. rewrite Hp1.
    rewrite (run_lift_ok _ _ _ _ (Hmask 1%Q)).
    rewrite (run_lift_ok _ _ _ _ (Hidx _ x Hx)).
    rewrite (run_lift_ok _ _ _ _ (Hidx _ y Hy)).
    rewrite (run_lift_ok _ _ _ _ (Hidx _ b_hat Hb)).
    rewrite (run_lift_ok _ _ _ _ (broadcast2_same Qminus [] [] eq_refl)).
    simpl zip_with.
    rewrite (run_bind_ok _ _ _ _ _
               (model_fit_ok _ _ (World _ m1 _) _ Hfit2)).
    rewrite run_bind. unfold model_predict. simpl. rewrite Hp2.
    simpl. rewrite <- !app_assoc. reflexivity.
Qed.

Lemma combine_full_main_sample_fits_nothing_witness :
  ∃ w1, partition [1; 0; 1; 0]%Q 1 (World [7; 3; 11] 0%Q [])
        = (inr ["m"; "m"; "m"; "m"]%string, w1).
Proof.
  destruct (combine_full_main_sample_fits_nothing
              [[1]; [2]; [3]; [4]]%Q [2; 1; 7; 9]%Q [1; 0; 1; 0]%Q
              [1 # 2; 1 # 2; 1 # 2; 1 # 2]%Q "blp" 10
              (World [7; 3; 11] 0%Q [])) as (w1 & Hpart & _).
  - repeat constructor; first [by left | by right].
  - vm_compute. discriminate.
  - reflexivity.
  - reflexivity.
  - exists w1. exact Hpart.
Defined.

(** A model that rejects an empty training set, as scikit-learn's do, makes
    the same call raise the model's own error at the first fit. *)
Example combine_full_main_sample_strict_model :
  ∃ w', combine [[1]; [2]; [3]; [4]]%Q [2; 1; 7; 9]%Q [1; 0; 1; 0]%Q
          [1 # 2; 1 # 2; 1 # 2; 1 # 2]%Q "blp" 10 1
          (World [7; 3; 11] (Reference.Strict 0) [])
        = (inl (ValueError "Found array with 0 sample(s)"), w').
Proof. eexists. vm_compute. reflexivity. Qed.

(** * Further properties *)

(** ** partition: when it returns *)

Section partition_domain.
Context {M : Type}.
Implicit Types w : world M.

Lemma choice_raise (a : list nat) (size : Z) w :
  ¬ (0 ≤ size ≤ Z.of_nat (length a))%Z →
  ∃ msg, choice a size w = (inl (ValueError msg), w).
Proof.
  intros Hsize. unfold choice.
  destruct (bool_decide (length a = 0) && negb (bool_decide (size = 0%Z)));
    [by eexists|].
  case_bool_decide; [by eexists|].
  case_bool_decide; [by eexists|]. lia.
Qed.

End partition_domain.

(** X1. [partition] returns exactly when each requested main-sample size,
    the floor of the double-precision product [prob_m * arm size], lies
    between 0 and the size of its arm; in every other case it raises a
    [ValueError]. *)
Theorem partition_returns_iff {M} (d : vector) (prob_m : Q) (w : world M) :
  let n := length d in
  let fits (P : nat → bool) :=
    (0 ≤ Qfloor (fmul prob_m (float_of_nat (count n P)))
     ≤ Z.of_nat (count n P))%Z in
  ((∃ sample w', partition d prob_m w = (inr sample, w'))
   ↔ fits (treated d) ∧ fits (control d))
  ∧ ((∃ msg w', partition d prob_m w = (inl (ValueError msg), w'))
     ↔ ¬ (fits (treated d) ∧ fits (control d))).
Proof.
  intros n fits. unfold fits, n. rewrite count_treated, count_control.
  set (rt := where_ (eq_scalar d 1)). set (rc := where_ (eq_scalar d 0)).
  change (Qfloor (fmul prob_m (float_of_nat (length rt))))
    with (main_size prob_m rt).
  change (Qfloor (fmul prob_m (float_of_nat (length rc))))
    with (main_size prob_m rc).
  assert (∀ sample w', partition d prob_m w = (inr sample, w') →
    (0 ≤ main_size prob_m rt ≤ Z.of_nat (length rt))%Z
    ∧ (0 ≤ main_size prob_m rc ≤ Z.of_nat (length rc))%Z)
    as Hinv by apply partition_inv.
  assert ((0 ≤ main_size prob_m rt ≤ Z.of_nat (length rt))%Z
    ∧ (0 ≤ main_size prob_m rc ≤ Z.of_nat (length rc))%Z →
    ∃ sample w', partition d prob_m w = (inr sample, w')) as Hrun.
  { intros [Hst Hsc].
    destruct (partition_run d prob_m w Hst Hsc)
      as (tm & cm & sample & w' & Hrun & _). eauto. }
  split; [split; [intros (sample & w' & Hp); eauto|done]|].
  split.
  - intros (msg & w' & Hp) Hfit.
    destruct (Hrun Hfit) as (sample & w'' & Hp'). congruence.
  - intros Hnot. unfold partition. fold rt rc.
    destruct (decide (0 ≤ main_size prob_m rt ≤ Z.of_nat (length rt))%Z)
      as [Hst|Hst].
    + destruct (choice_ok rt _ w (where_NoDup _) Hst)
        as (tm & w1 & Hc1 & _).
      destruct (choice_raise rc (main_size prob_m rc) w1) as [msg Hc2];
        [tauto|].
      exists msg, w1.
      rewrite (run_bind_ok _ _ _ _ _ Hc1).
      by rewrite (run_bind_raise _ _ _ _ _ Hc2).
    + destruct (choice_raise rt (main_size prob_m rt) w Hst)
        as [msg Hc1].
      exists msg, w. by rewrite (run_bind_raise _ _ _ _ _ Hc1).
Qed.

(** X2. When [prob_m] is too small to fill one place in either arm (the
    double-precision product of [prob_m] and the arm size is below 1),
    nobody is drawn: every row is labelled "a" and the main sample is
    empty. *)
Theorem partition_small_share_all_auxiliary {M} (d : vector) (prob_m : Q)
    (w : world M) :
  let n := length d in
  (0 <= prob_m)%Q →
  (fmul prob_m (float_of_nat (count n (treated d))) < 1)%Q →
  (fmul prob_m (float_of_nat (count n (control d))) < 1)%Q →
  ∃ w', partition d prob_m w = (inr (replicate n "a"%string), w').
Proof.
  intros n Hp Ht Hc. unfold n in *.
  rewrite count_treated in Ht. rewrite count_control in Hc.
  assert (∀ rows : list nat,
            (fmul prob_m (float_of_nat (length rows)) < 1)%Q →
            main_size prob_m rows = 0%Z) as Hzero.
  { intros rows Hk. unfold main_size, floor_int.
    assert (0 <= fmul prob_m (float_of_nat (length rows)))%Q as Hlo.
    { unfold fmul. apply round64_nonneg.
      assert (0 <= float_of_nat (length rows))%Q as Hn0.
      { unfold float_of_nat. apply round64_nonneg.
        change 0%Q with (inject_Z 0). rewrite <- Zle_Qle. lia. }
      nra. }
    pose proof (Qfloor_resp_le _ _ Hlo) as H0.
    change (Qfloor 0) with 0%Z in H0.
    pose proof (Qfloor_le (fmul prob_m (float_of_nat (length rows)))) as Hfl.
    assert (inject_Z (Qfloor (fmul prob_m (float_of_nat (length rows))))
            < inject_Z 1)%Q
      as Hlt by (change (inject_Z 1) with 1%Q; lra).
    rewrite <- Zlt_Qlt in Hlt. lia. }
  destruct (partition_run d prob_m w) as
    (tm & cm & sample & w' & Hrun & _ & _ & (_ & _ & Htm) & (_ & _ & Hcm)
     & Hlen & _ & Hout).
  { rewrite (Hzero _ Ht). lia. }
  { rewrite (Hzero _ Hc). lia. }
  rewrite (Hzero _ Ht) in Htm. rewrite (Hzero _ Hc) in Hcm.
  apply nil_length_inv in Htm, Hcm. subst tm cm.
  exists w'. rewrite Hrun. do 2 f_equal. apply list_eq. intros i.
  destruct (decide (i < length d)) as [Hi|Hi].
  - rewrite lookup_replicate_2 by done. apply Hout; [done|].
    by intros ?%elem_of_nil.
  - rewrite !lookup_ge_None_2; [done|rewrite length_replicate; lia|lia].
Qed.

Lemma partition_small_share_all_auxiliary_witness :
  ∃ w', partition [1; 0]%Q (1 # 2) (World [4; 2] () [])
        = (inr ["a"; "a"]%string, w').
Proof.
  apply (partition_small_share_all_auxiliary [1; 0]%Q (1 # 2)
           (World [4; 2] () [])).
  - discriminate.
  - vm_compute. reflexivity.
  - vm_compute. reflexivity.
Defined.

(** ** ml_proxy: what the training sets depend on *)

Lemma compress_agree {A} (mask : list bool) (a a' : list A) :
  length a' = length a →
  (∀ i, mask !! i = Some true → a' !! i = a !! i) →
  compress mask a' = compress mask a.
Proof.
  revert a a'. induction mask as [|b mask IH]; intros [|v a] [|v' a'] Hlen Hag;
    simplify_eq/=; try done.
  assert (compress mask a' = compress mask a) as ->.
  { apply IH; [done|]. intros i Hi. apply (Hag (S i)). done. }
  destruct b; [|done]. f_equal.
  specialize (Hag 0 eq_refl). by simplify_eq/=.
Qed.

Lemma mask_index_agree {A} (mask : list bool) (a a' : list A) :
  length a' = length a →
  (∀ i, mask !! i = Some true → a' !! i = a !! i) →
  mask_index a' mask = mask_index a mask.
Proof.
  intros Hlen Hag. unfold mask_index. rewrite Hlen.
  case_decide; [|done]. by rewrite (compress_agree mask a a').
Qed.

Lemma aux_mask_true (sample : list string) (d : vector) (v : Q) i :
  zip_with andb (eq_label sample "a") (eq_scalar d v) !! i = Some true →
  sample !! i = Some "a"%string.
Proof.
  rewrite lookup_zip_with. unfold eq_label, eq_scalar.
  rewrite !list_lookup_fmap.
  destruct (sample !! i) as [s|]; [|done]. simpl.
  destruct (d !! i) as [u|]; [|done]. simpl.
  intros [= [Hs _]%andb_true_iff]. by apply bool_decide_eq_true in Hs as ->.
Qed.

Lemma bind_ext {M A B} (p : prog M A) (k k' : A → prog M B) (w : world M) :
  (∀ a w', p w = (inr a, w') → k a w' = k' a w') →
  (p ≫= k) w = (p ≫= k') w.
Proof.
  intros Hk. rewrite !run_bind. destruct (p w) as [[e|a] w']; auto.
Qed.

(** X3. The outcomes of the rows that are not labelled "a" never reach the
    model: two outcome vectors that agree on the auxiliary rows give the
    same run of [ml_proxy], with the same fits, the same predictions and
    the same result. *)
Theorem ml_proxy_ignores_main_outcomes {M} `{Model M} (x : matrix)
    (y y' d : vector) (sample : list string) (w : world M) :
  length sample = length d → length y' = length y →
  (∀ i, sample !! i = Some "a"%string → y' !! i = y !! i) →
  ml_proxy x y' d sample w = ml_proxy x y d sample w.
Proof.
  intros Hs Hlen Hag.
  assert (∀ v, broadcast2 andb (eq_label sample "a") (eq_scalar d v)
               = inr (zip_with andb (eq_label sample "a") (eq_scalar d v)))
    as Hmask.
  { intros v. apply broadcast2_same. unfold eq_label, eq_scalar.
    by rewrite !length_fmap. }
  assert (∀ v, mask_index y'
                 (zip_with andb (eq_label sample "a") (eq_scalar d v))
               = mask_index y
                   (zip_with andb (eq_label sample "a") (eq_scalar d v)))
    as Hidx.
  { intros v. apply mask_index_agree; [done|].
    intros i Hi. by eapply Hag, aux_mask_true. }
  unfold ml_proxy.
  rewrite !(run_lift_ok _ _ _ _ (Hmask 0%Q)).
  apply bind_ext. intros x_ctrl w0 _.
  rewrite (Hidx 0%Q).
  apply bind_ext. intros y_ctrl w0' _.
  apply bind_ext. intros [] w1 _.
  apply bind_ext. intros pred_ctrl w2 _.
  rewrite !(run_lift_ok _ _ _ _ (Hmask 1%Q)).
  apply bind_ext. intros x_treat w3 _.
  by rewrite (Hidx 1%Q).
Qed.

Lemma ml_proxy_ignores_main_outcomes_witness :
  ml_proxy [[1]; [2]; [3]; [4]]%Q [2; 1; 100; 9]%Q [1; 0; 1; 0]%Q
    ["a"; "a"; "m"; "a"]%string (World [] 0%Q [])
  = ml_proxy [[1]; [2]; [3]; [4]]%Q [2; 1; 7; 9]%Q [1; 0; 1; 0]%Q
      ["a"; "a"; "m"; "a"]%string (World [] 0%Q []).
Proof.
  apply (ml_proxy_ignores_main_outcomes (H := Reference.slope_model)).
  - reflexivity.
  - reflexivity.
  - intros [|[|[|[|i]]]] Hi; simplify_eq/=; reflexivity.
Defined.

(** X4. When the first [fit] raises, [ml_proxy] raises that error at once:
    that fit is the only call made to the model, no prediction and no
    second fit is attempted, and no random number is drawn. *)
Theorem ml_proxy_first_fit_error {M} `{Model M} (x : matrix) (y d : vector)
    (sample : list string) (w : world M) (e : exn) :
  let n := length x in
  let aux_ctrl := rows_where n (λ i, labelled sample "a" i && control d i) in
  length y = n → length d = n → length sample = n →
  fit (model w) (rows_at x aux_ctrl) (rows_at y aux_ctrl) = inl e →
  ∃ w',
    ml_proxy x y d sample w = (inl e, w')
    ∧ trace w'
      = trace w ++ [EvFit (rows_at x aux_ctrl) (rows_at y aux_ctrl)]
    ∧ rng w' = rng w.
Proof.
  intros n aux_ctrl Hy Hd Hs Hfit.
  exists (World (rng w) (model w)
            (trace w ++ [EvFit (rows_at x aux_ctrl) (rows_at y aux_ctrl)])).
  split; [|split; reflexivity].
  assert (length (zip_with andb (eq_label sample "a") (eq_scalar d 0)) = n)
    as Hl.
  { unfold eq_label, eq_scalar. rewrite length_zip_with, !length_fmap. lia. }
  assert (∀ {A} (a : list A), length a = n →
    compress (zip_with andb (eq_label sample "a") (eq_scalar d 0)) a
    = rows_at a aux_ctrl) as Hctrl.
  { intros A a Ha. unfold aux_ctrl. rewrite <- Ha. apply compress_rows.
    - by rewrite Hl.
    - intros i Hi. rewrite aux_mask_lookup by lia. done. }
  unfold ml_proxy.
  assert (length (eq_label sample "a") = length (eq_scalar d 0)) as Hsame.
  { unfold eq_label, eq_scalar. rewrite !length_fmap. lia. }
  rewrite (run_lift_ok _ _ _ _ (broadcast2_same andb _ _ Hsame)).
  rewrite (run_lift_ok _ _ _ _ (mask_index_same x _ Hl)).
  rewrite (run_lift_ok _ _ _ _
             (mask_index_same y _ (eq_trans Hl (eq_sym Hy)))).
  rewrite !Hctrl by done.
  apply run_bind_raise. by apply model_fit_raise.
Qed.

Lemma ml_proxy_first_fit_error_witness :
  ∃ w', ml_proxy [[1]; [2]]%Q [2; 1]%Q [1; 1]%Q ["a"; "a"]%string
          (World [] (Reference.Strict 0) [])
        = (inl (ValueError "Found array with 0 sample(s)"), w').
Proof.
  destruct (ml_proxy_first_fit_error (H := Reference.strict_model)
              [[1]; [2]]%Q [2; 1]%Q [1; 1]%Q ["a"; "a"]%string
              (World [] (Reference.Strict 0) [])
              (ValueError "Found array with 0 sample(s)"))
    as (w' & Hrun & _).
  - reflexivity.
  - reflexivity.
  - reflexivity.
  - reflexivity.
  - exists w'. exact Hrun.
Defined.

(** ** blp: outcomes *)

Lemma broadcast2_mismatch {A B C} (f : A → B → C) (l1 : list A)
    (l2 : list B) :
  length l1 ≠ length l2 → length l1 ≠ 1 → length l2 ≠ 1 →
  broadcast2 f l1 l2
  = inl (ValueError "operands could not be broadcast together").
Proof.
  intros Hne H1 H2. unfold broadcast2. rewrite decide_False by done.
  destruct l1 as [|a [|a' l1]], l2 as [|b [|b' l2]]; simpl in *;
    first [done | lia].
Qed.

(** X5. On aligned inputs [blp] calls the solver once, on the design matrix
    and with weight 1 on every row. An error of the solver is the error of
    [blp]; otherwise the table is printed when asked for, and the third
    and fourth coefficients are returned as ATE and HET, an [IndexError]
    being raised when the solver gave fewer than four coefficients. *)
Theorem blp_outcomes {M} `{Solver} (y d prop b_hat s_hat : vector)
    (print_table : bool) (w : world M) :
  length d = length y → length prop = length y →
  length b_hat = length y → length s_hat = length y →
  let X := blp_design d prop b_hat s_hat in
  let ones := replicate (length y) 1%Q in
  let called := trace w ++ [EvLstsq X y ones] in
  let printed :=
    called ++ (if print_table
               then [EvPrint ["const."; "b0"; "ate"; "het"]%string] else []) in
  blp y d prop b_hat s_hat print_table w
  = match lstsq X y ones with
    | inl e => (inl e, World (rng w) (model w) called)
    | inr params =>
        match params !! 2, params !! 3 with
        | Some a, Some h =>
            (inr {| ate := a; het := h |}, World (rng w) (model w) printed)
        | _, _ =>
            (inl (IndexError "index out of bounds"),
             World (rng w) (model w) printed)
        end
    end.
Proof.
  intros Hd Hp Hb Hs X ones called printed. unfold blp.
  rewrite (run_lift_ok _ _ _ _
             (broadcast2_same Qminus d prop (eq_trans Hd (eq_sym Hp)))).
  rewrite (run_lift_ok _ _ _ _
             (broadcast2_same Qminus d prop (eq_trans Hd (eq_sym Hp)))).
  assert (length (zip_with Qminus d prop)
          = length ((λ s, s - mean s_hat)%Q <$> s_hat)) as Hcols.
  { rewrite length_zip_with, length_fmap. lia. }
  rewrite (run_lift_ok _ _ _ _ (broadcast2_same Qmult _ _ Hcols)).
  rewrite (run_lift_ok _ _ _ _ (column_stack_design y d prop b_hat s_hat
                                  Hd Hp Hb Hs)).
  unfold WLS_fit, WLS. simpl.
  rewrite run_bind. unfold emit at 1. simpl.
  fold X ones. destruct (lstsq X y ones) as [e|params]; [done|].
  assert (∀ w0 : world M,
    (lift (index_of "ate" ["const."; "b0"; "ate"; "het"]%string)
     ≫= (λ i_ate, lift (item params i_ate)
     ≫= (λ v_ate, lift (index_of "het" ["const."; "b0"; "ate"; "het"]%string)
     ≫= (λ i_het, lift (item params i_het)
     ≫= (λ v_het, mret {| ate := v_ate; het := v_het |}))))) w0
    = match params !! 2, params !! 3 with
      | Some a, Some h => (inr {| ate := a; het := h |}, w0)
      | _, _ => (inl (IndexError "index out of bounds"), w0)
      end) as Hitems.
  { intros w0.
    rewrite (run_lift_ok _ _ _ _ (eq_refl (inr 2))).
    rewrite run_bind. unfold lift at 1, item at 1.
    destruct (params !! 2) as [a|]; [|done]. cbv beta iota delta [ok].
    rewrite (run_lift_ok _ _ _ _ (eq_refl (inr 3))).
    rewrite run_bind. unfold lift at 1, item at 1.
    destruct (params !! 3) as [h|]; done. }
  unfold printed, called. destruct print_table.
  - rewrite run_bind. unfold emit. simpl. rewrite Hitems.
    destruct (params !! 2), (params !! 3); reflexivity.
  - rewrite run_bind. simpl. rewrite Hitems, app_nil_r.
    destruct (params !! 2), (params !! 3); reflexivity.
Qed.

Lemma blp_outcomes_witness :
  ∃ r w', blp [2; 1; 7; 9; 4; 7]%Q [1; 0; 1; 1; 0; 0]%Q
            [1 # 2; 1 # 2; 1 # 3; 1 # 2; 1 # 2; 1 # 4]%Q
            [1; 2; 3; 4; 5; 6]%Q [1; 3; 2; 5; 4; 7]%Q true (World [] () [])
          = (inr r, w').
Proof.
  eexists _, _.
  rewrite (blp_outcomes (H := Reference.rational_solver)
             [2; 1; 7; 9; 4; 7]%Q [1; 0; 1; 1; 0; 0]%Q
             [1 # 2; 1 # 2; 1 # 3; 1 # 2; 1 # 2; 1 # 4]%Q
             [1; 2; 3; 4; 5; 6]%Q [1; 3; 2; 5; 4; 7]%Q true (World [] () [])
             eq_refl eq_refl eq_refl eq_refl).
  vm_compute. reflexivity.
Defined.

(** X6. Inputs whose treatment and propensity vectors have different lengths
    (neither being a single value) make [blp] raise a [ValueError] before
    the solver is called or anything is printed. *)
Theorem blp_misaligned_raises {M} `{Solver} (y d prop b_hat s_hat : vector)
    (print_table : bool) (w : world M) :
  length d ≠ length prop → length d ≠ 1 → length prop ≠ 1 →
  blp y d prop b_hat s_hat print_table w
  = (inl (ValueError "operands could not be broadcast together"), w).
Proof.
  intros Hne Hd Hp. unfold blp.
  by rewrite (run_lift_raise _ _ _ _
                (broadcast2_mismatch Qminus d prop Hne Hd Hp)).
Qed.

Lemma blp_misaligned_raises_witness :
  blp [2; 1; 7]%Q [1; 0; 1]%Q [1 # 2; 1 # 2]%Q [1; 2; 3]%Q [1; 3; 2]%Q
    false (World [] () [])
  = (inl (ValueError "operands could not be broadcast together"),
     World [] () []).
Proof.
  apply (blp_misaligned_raises (H := Reference.rational_solver)).
  - simpl. lia.
  - simpl. lia.
  - simpl. lia.
Defined.

(** ** quantile_grid: order *)

(** The largest entry sits at the quantile 1. *)
Lemma quantile_sorted_one (s : vector) :
  (quantile_sorted s 1 == s !!! (length s - 1)%nat)%Q.
Proof.
  unfold quantile_sorted.
  set (N := inject_Z (Z.of_nat (length s - 1))).
  assert (1 * N == N)%Q as Hv by ring.
  assert (Qfloor (1 * N) = Z.of_nat (length s - 1)) as ->.
  { rewrite <- (Qfloor_Z (Z.of_nat (length s - 1))). by apply Qfloor_comp. }
  rewrite Nat2Z.id, lerp_eq.
  replace (S (length s - 1) `min` (length s - 1)) with (length s - 1) by lia.
  fold N. rewrite Hv. ring.
Qed.

Lemma quantile_sorted_le_max (s : vector) (p : Q) :
  s ≠ [] → increasing s → (0 <= p)%Q → (p <= 1)%Q →
  (quantile_sorted s p <= s !!! (length s - 1)%nat)%Q.
Proof.
  intros Hs Hinc Hp0 Hp1. rewrite <- quantile_sorted_one.
  apply quantile_sorted_mono; [done|done|done|done|lra].
Qed.

Lemma sort_max (x : vector) (v : Q) :
  (∀ u, u ∈ x → (u <= v)%Q) →
  x ≠ [] →
  (merge_sort Qle x !!! (length (merge_sort Qle x) - 1)%nat <= v)%Q.
Proof.
  intros Hmax Hx. apply Hmax.
  assert (merge_sort Qle x !!! (length (merge_sort Qle x) - 1)
          ∈ merge_sort Qle x) as Hin.
  { apply list_elem_of_lookup. eexists.
    apply list_lookup_lookup_total_lt.
    rewrite sort_length. destruct x; [done|simpl; lia]. }
  revert Hin.
  generalize (merge_sort Qle x !!! (length (merge_sort Qle x) - 1)).
  intros u Hin. by rewrite merge_sort_Permutation in Hin.
Qed.

Lemma count_le_mono (edges : vector) (v v' : Q) :
  (v <= v')%Q →
  length (filter (λ e, e <= v)%Q edges)
  ≤ length (filter (λ e, e <= v')%Q edges).
Proof.
  intros Hvv. induction edges as [|e es IH]; [done|].
  rewrite !filter_cons.
  destruct (decide (e <= v)%Q), (decide (e <= v')%Q); simpl; try lia.
  lra.
Qed.

(** X7. On a non-empty score vector and [q >= 1] the bin edges never decrease
    (ties in the scores allowed), the first edge is the smallest score,
    a larger score never gets a lower bin than a smaller one, and a
    largest score is always in the last bin. *)
Theorem quantile_grid_order_preserving (x : vector) (q : Z) :
  x ≠ [] → (1 ≤ q)%Z →
  ∃ bin_indices bin_edges bin_pct,
    quantile_grid x q = inr (bin_indices, bin_edges, bin_pct)
    ∧ increasing bin_edges
    ∧ (∃ e, bin_edges !! 0 = Some e
            ∧ (∀ v, v ∈ x → (e <= v)%Q) ∧ (∃ v, v ∈ x ∧ (e == v)%Q))
    ∧ (∀ i j vi vj bi bj,
         x !! i = Some vi → x !! j = Some vj →
         bin_indices !! i = Some bi → bin_indices !! j = Some bj →
         (vi <= vj)%Q → (bi ≤ bj)%Z)
    ∧ (∀ i v b,
         x !! i = Some v → bin_indices !! i = Some b →
         (∀ u, u ∈ x → (u <= v)%Q) → b = (q - 1)%Z).
Proof.
  intros Hx Hq.
  exists (grid_indices x q), (grid_edges x q), (grid_pct q).
  pose proof (grid_edges_increasing x q Hx) as Hinc.
  assert (merge_sort Qle x ≠ []) as Hs.
  { intros Hnil. apply (f_equal length) in Hnil.
    rewrite sort_length in Hnil. by destruct x. }
  split; [apply quantile_grid_run; [done|lia]|]. split; [done|].
  split; [|split].
  - destruct (lookup_lt_is_Some_2 (grid_edges x q) 0) as [e He].
    { rewrite grid_edges_length. lia. }
    exists e. split; [done|].
    apply grid_edges_lookup in He as (p & [-> _]%grid_pct_lookup & ->).
    assert (quantile_sorted (merge_sort Qle x)
              ((inject_Z (Z.of_nat 0) * (100 / inject_Z q) + 0) / 100)
            == merge_sort Qle x !!! 0%nat)%Q as Hmin.
    { apply quantile_sorted_zero. simpl. field.
      intros H0. unfold Qeq in H0. simpl in H0. lia. }
    split.
    + intros v Hv. rewrite Hmin. by apply sort_min.
    + exists (merge_sort Qle x !!! 0). split; [|done].
      assert (merge_sort Qle x !!! 0 ∈ merge_sort Qle x) as Hin.
      { apply list_elem_of_lookup. exists 0.
        apply list_lookup_lookup_total_lt.
        destruct (merge_sort Qle x); [done|]. simpl. lia. }
      revert Hin. generalize (merge_sort Qle x !!! 0).
      intros u Hin. by rewrite merge_sort_Permutation in Hin.
  - intros i j vi vj bi bj Hvi Hvj Hbi Hbj Hle.
    rewrite (grid_indices_lookup x q i vi bi Hvi Hbi).
    rewrite (grid_indices_lookup x q j vj bj Hvj Hbj).
    pose proof (count_le_mono (grid_edges x q) vi vj Hle). lia.
  - intros i v b Hv Hb Hmax.
    rewrite (grid_indices_lookup x q i v b Hv Hb).
    pose proof (grid_count_range x q v (list_elem_of_lookup_2 _ _ _ Hv) Hq)
      as [_ Hup].
    destruct (lookup_lt_is_Some_2 (grid_edges x q) (Z.to_nat q - 1))
      as [e He].
    { rewrite grid_edges_length. lia. }
    assert (e <= v)%Q as Hev.
    { apply grid_edges_lookup in He as Hp.
      destruct Hp as (p & [-> Hk]%grid_pct_lookup & ->).
      etrans; [apply quantile_sorted_le_max; [done|apply sort_increasing|..]|].
      - rewrite grid_fraction by done. by apply grid_fraction_range.
      - rewrite grid_fraction by done. by apply grid_fraction_range.
      - by apply sort_max. }
    apply (count_le_prefix _ v _ e Hinc He) in Hev. lia.
Qed.

Lemma quantile_grid_order_preserving_witness :
  ∃ bin_indices bin_edges bin_pct,
    quantile_grid [5; 1; 5; 2; 5]%Q 4
    = inr (bin_indices, bin_edges, bin_pct)
    ∧ increasing bin_edges.
Proof.
  destruct (quantile_grid_order_preserving [5; 1; 5; 2; 5]%Q 4)
    as (bi & be & bp & Hrun & Hinc & _).
  - discriminate.
  - lia.
  - exists bi, be, bp. split; [exact Hrun|exact Hinc].
Defined.

(** ** quantile_grid: the bin of a rank *)

(** On a strictly ascending array the quantile [p] is at or below entry
    [i] exactly when its virtual position [p (n - 1)] is at or below [i]. *)
Lemma quantile_sorted_le_iff (s : vector) (p : Q) (i : nat) :
  strictly_increasing s → (0 <= p)%Q → (p <= 1)%Q → i < length s →
  (quantile_sorted s p <= s !!! i)%Q
  ↔ (p * inject_Z (Z.of_nat (length s - 1)) <= inject_Z (Z.of_nat i))%Q.
Proof.
  intros Hinc Hp0 Hp1 Hi. unfold quantile_sorted.
  set (N := inject_Z (Z.of_nat (length s - 1))).
  assert (0 <= N)%Q as HN.
  { unfold N. change 0%Q with (inject_Z (Z.of_nat 0)). apply inject_nat_le. lia. }
  set (v := (p * N)%Q).
  assert (0 <= v)%Q as Hv0 by (unfold v; nra).
  assert (v <= N)%Q as HvN by (unfold v; nra).
  assert (0 ≤ Qfloor v)%Z as Hf0.
  { change 0%Z with (Qfloor 0). by apply Qfloor_resp_le. }
  assert (Qfloor v ≤ Z.of_nat (length s - 1))%Z as HfN.
  { rewrite <- (Qfloor_Z (Z.of_nat (length s - 1))). by apply Qfloor_resp_le. }
  pose proof (Qfloor_le v) as Hfl. pose proof (Qlt_floor v) as Hfu.
  set (pr := Z.to_nat (Qfloor v)).
  assert (inject_Z (Z.of_nat pr) = inject_Z (Qfloor v)) as Hpr.
  { unfold pr. by rewrite Z2Nat.id. }
  assert (pr ≤ length s - 1) as HprN by (unfold pr; lia).
  rewrite inject_Z_plus in Hfu. change (inject_Z 1) with 1%Q in Hfu.
  rewrite <- Hpr in Hfl, Hfu.
  rewrite lerp_eq, Hpr, <- Hpr.
  set (nx := S pr `min` (length s - 1)).
  assert (∀ a b, a < length s → b < length s → a < b →
            (s !!! a < s !!! b)%Q) as Hlt.
  { intros a b Ha Hb Hab.
    apply (Hinc a b); [by apply lookup_total_Some'..|done]. }
  assert (∀ a b, a < length s → b < length s → a ≤ b →
            (s !!! a <= s !!! b)%Q) as Hle.
  { intros a b Ha Hb Hab. destruct (decide (a = b)) as [->|Hne]; [lra|].
    apply Qlt_le_weak, Hlt; [done|done|lia]. }
  assert (s !!! pr <= s !!! nx)%Q as Hab by (apply Hle; unfold nx; lia).
  destruct (lt_eq_lt_dec i pr) as [[Hip|Hip]|Hip].
  - pose proof (Hlt i pr Hi ltac:(lia) Hip) as Hsi.
    assert (inject_Z (Z.of_nat i) + 1 <= inject_Z (Z.of_nat pr))%Q as Hi1.
    { rewrite <- inject_nat_S. apply inject_nat_le. lia. }
    split; intros Hgoal; exfalso; [nra|lra].
  - subst i. destruct (decide (pr = length s - 1)) as [Hlast|Hlast].
    + assert (nx = pr) as -> by (unfold nx; lia).
      split; intros _; [|nra].
      rewrite Hlast. fold N. done.
    + assert (nx = S pr) as Hnx by (unfold nx; lia).
      pose proof (Hlt pr nx ltac:(lia) ltac:(lia) ltac:(lia)) as Hstrict.
      split; intros Hgoal; nra.
  - assert (nx = S pr) as Hnx by (unfold nx; lia).
    pose proof (Hle nx i ltac:(lia) Hi ltac:(lia)) as Hni.
    assert (inject_Z (Z.of_nat pr) + 1 <= inject_Z (Z.of_nat i))%Q as Hi1.
    { rewrite <- inject_nat_S. apply inject_nat_le. lia. }
    split; intros _; [lra|nra].
Qed.

Lemma rank_fraction (k q N i : Z) :
  (0 < q)%Z →
  (inject_Z k / inject_Z q * inject_Z N <= inject_Z i)%Q
  ↔ (k * N ≤ i * q)%Z.
Proof.
  intros Hq.
  assert (0 < inject_Z q)%Q as HqQ.
  { change 0%Q with (inject_Z 0). by rewrite <- Zlt_Qlt. }
  rewrite Zle_Qle, !inject_Z_mult. split; intros Hle.
  - assert (inject_Z k * inject_Z N
            == inject_Z k / inject_Z q * inject_Z N * inject_Z q)%Q as ->
      by (field; lra).
    by apply Qmult_le_compat_r; [|lra].
  - assert (inject_Z k / inject_Z q * inject_Z N
            == inject_Z k * inject_Z N / inject_Z q)%Q as ->
      by (field; lra).
    by apply Qle_shift_div_r.
Qed.

(** X8. For at least two scores without ties and [q] a power of two that
    divides [n - 1] (the bin edges are then sorted scores, in double
    precision too), the bins follow the ranks: the score of rank [i]
    (counting from 0 in ascending order) among [n] scores gets the bin
    [min (q - 1) (i q / (n - 1))], so each bin but the last holds
    [(n - 1) / q] scores and the last holds one more. *)
Theorem quantile_grid_bin_of_rank (x : vector) (q e : Z) :
  2 ≤ length x → no_ties x → (0 ≤ e)%Z → q = (2 ^ e)%Z →
  ((Z.of_nat (length x) - 1) mod q = 0)%Z →
  ∃ bin_indices bin_edges bin_pct,
    quantile_grid x q = inr (bin_indices, bin_edges, bin_pct)
    ∧ ∀ i j v b,
        merge_sort Qle x !! i = Some v → x !! j = Some v →
        bin_indices !! j = Some b →
        b = ((q - 1) `min` (Z.of_nat i * q / (Z.of_nat (length x) - 1)))%Z.
Proof.
  intros Hlen Hnt He Hpow _.
  assert (1 ≤ q)%Z as Hq.
  { rewrite Hpow. pose proof (Z.pow_pos_nonneg 2 e ltac:(lia) He). lia. }
  clear e He Hpow.
  assert (x ≠ []) as Hx by (intros ->; simpl in Hlen; lia).
  exists (grid_indices x q), (grid_edges x q), (grid_pct q).
  split; [apply quantile_grid_run; [done|lia]|].
  intros i j v b Hi Hj Hb.
  rewrite (grid_indices_lookup x q j v b Hj Hb).
  pose proof (grid_count_range x q v (list_elem_of_lookup_2 _ _ _ Hj) Hq)
    as [Hc1 Hcq].
  set (c := length (filter (λ e, e <= v)%Q (grid_edges x q))) in *.
  set (n1 := (Z.of_nat (length x) - 1)%Z).
  assert (∀ k, k < Z.to_nat q →
            k < c ↔ (Z.of_nat k * n1 ≤ Z.of_nat i * q)%Z) as Hedge.
  { intros k Hk.
    destruct (lookup_lt_is_Some_2 (grid_edges x q) k) as [e He].
    { by rewrite grid_edges_length. }
    unfold c.
    rewrite <- (count_le_prefix _ v k e (grid_edges_increasing x q Hx) He).
    apply grid_edges_lookup in He as (p & [-> Hkq]%grid_pct_lookup & ->).
    rewrite <- (list_lookup_total_correct _ _ _ Hi).
    rewrite quantile_sorted_le_iff.
    - rewrite grid_fraction by done. rewrite sort_length.
      replace (Z.of_nat (length x - 1)) with n1 by (unfold n1; lia).
      apply rank_fraction. lia.
    - by apply sort_strictly_increasing.
    - rewrite grid_fraction by done. by apply grid_fraction_range.
    - rewrite grid_fraction by done. by apply grid_fraction_range.
    - by apply lookup_lt_Some in Hi. }
  assert (0 < n1)%Z as Hn1 by (unfold n1; lia).
  set (F := (Z.of_nat i * q / n1)%Z).
  assert (0 ≤ F)%Z as HF0 by (apply Z.div_pos; lia).
  pose proof (Z.mul_div_le (Z.of_nat i * q) n1 Hn1) as HFl.
  pose proof (Z.mul_succ_div_gt (Z.of_nat i * q) n1 Hn1) as HFu.
  fold F in HFl, HFu.
  destruct (decide (F < q - 1)%Z) as [Hsmall|Hbig].
  - rewrite Z.min_r by lia.
    pose proof (proj2 (Hedge (Z.to_nat F) ltac:(lia))) as Hin.
    pose proof (proj1 (Hedge (S (Z.to_nat F)) ltac:(lia))) as Hout.
    rewrite Z2Nat.id in Hin by done.
    rewrite Nat2Z.inj_succ, Z2Nat.id in Hout by done.
    specialize (Hin ltac:(lia)).
    assert (¬ S (Z.to_nat F) < c) as Hnot by (intros Hlt; apply Hout in Hlt; lia).
    lia.
  - rewrite Z.min_l by lia.
    pose proof (proj2 (Hedge (Z.to_nat (q - 1)) ltac:(lia))) as Hin.
    rewrite Z2Nat.id in Hin by lia.
    assert ((q - 1) * n1 ≤ Z.of_nat i * q)%Z as Hle by nia.
    specialize (Hin Hle). lia.
Qed.

Lemma quantile_grid_bin_of_rank_witness :
  ∃ bin_indices bin_edges bin_pct,
    quantile_grid [5; 1; 4; 2; 3]%Q 2
    = inr (bin_indices, bin_edges, bin_pct)
    ∧ (∀ b, bin_indices !! 2%nat = Some b → b = 1%Z).
Proof.
  destruct (quantile_grid_bin_of_rank [5; 1; 4; 2; 3]%Q 2 1)
    as (bi & be & bp & Hrun & Hbin).
  - simpl. lia.
  - intros [|[|[|[|[|i]]]]] [|[|[|[|[|j]]]]] a b Hi Hj Hij;
      simplify_eq/=; discriminate.
  - lia.
  - reflexivity.
  - reflexivity.
  - exists bi, be, bp. split; [exact Hrun|].
    intros b Hb. exact (Hbin 3 2 4%Q b eq_refl eq_refl Hb).
Defined.

(** ** gates: the indicator matrix and the bin counts *)

Lemma cells_checked (m : matrix) (ncols : nat) (cells : list (nat * Z)) :
  Forall (λ c, c.1 < length m ∧ (0 ≤ c.2 < Z.of_nat ncols)%Z) cells →
  mapM (λ '(i, j),
          j' ← norm_index ncols j;
          if decide (i < length m) then ok (i, j')
          else raise (IndexError "index out of bounds for axis 0")) cells
  = inr ((λ c, (c.1, Z.to_nat c.2)) <$> cells).
Proof.
  induction 1 as [|[i j] cells [Hi Hj] _ IH]; [done|].
  assert (norm_index ncols j = inr (Z.to_nat j)) as Hnorm.
  { unfold norm_index. by rewrite bool_decide_eq_true_2. }
  simpl in *. rewrite IH, Hnorm. simpl. by rewrite decide_True.
Qed.

Lemma fill_rows (q : nat) (cols : list Z) (filled : matrix) :
  foldl (λ acc '(i, j), alter (λ row, <[j := 1%Q]> row) i acc)
    (filled ++ replicate (length cols) (replicate q 0%Q))
    ((λ c, (c.1, Z.to_nat c.2)) <$> zip (seq (length filled) (length cols)) cols)
  = filled ++ (one_hot q <$> cols).
Proof.
  revert filled. induction cols as [|j cols IH]; intros filled; [done|].
  simpl. rewrite alter_app_r_alt, Nat.sub_diag by done. simpl.
  change (<[Z.to_nat j:=1%Q]> (replicate q 0%Q)) with (one_hot q j).
  specialize (IH (filled ++ [one_hot q j])).
  rewrite length_app, Nat.add_1_r, <- !app_assoc in IH. simpl in IH.
  exact IH.
Qed.

(** Filling a fresh indicator matrix with one valid column per row. *)
Lemma set_cells_one_hot (q : nat) (cols : list Z) :
  Forall (λ j, 0 ≤ j < Z.of_nat q)%Z cols →
  set_cells (zeros (length cols) q) q (seq 0 (length cols)) cols 1%Q
  = inr (one_hot q <$> cols).
Proof.
  intros Hcols. unfold set_cells.
  rewrite decide_True by (by rewrite length_seq).
  rewrite cells_checked.
  - simpl. unfold ok. f_equal. apply (fill_rows q cols []).
  - apply Forall_forall. intros [i j] Hin.
    apply list_elem_of_lookup in Hin as [k Hk].
    apply lookup_zip_Some in Hk as [Hi Hj]. simpl.
    apply lookup_seq in Hi as [-> Hi]. split.
    + unfold zeros. rewrite length_replicate. lia.
    + rewrite Forall_forall in Hcols. apply Hcols.
      by eapply list_elem_of_lookup_2.
Qed.











Lemma design_rows {A B C} (f : A → list C) (g : list C → B → list C)
    (l : list A) (k : list B) :
  zip_with app (f <$> l) (zip_with g (f <$> l) k)
  = zip_with (λ j c, f j ++ g (f j) c) l k.
Proof.
  revert k. induction l as [|a l IH]; intros [|b k]; simpl; [done..|].
  by rewrite IH.
Qed.

Lemma grid_indices_range (x : vector) (q : Z) :
  (1 ≤ q)%Z →
  Forall (λ j, 0 ≤ j < Z.of_nat (Z.to_nat q))%Z (grid_indices x q).
Proof.
  intros Hq. apply Forall_forall. intros j Hj.
  apply list_elem_of_lookup in Hj as [i Hi].
  destruct (lookup_lt_is_Some_2 x i) as [v Hv].
  { apply lookup_lt_Some in Hi. unfold grid_indices in Hi.
    by rewrite length_fmap in Hi. }
  rewrite (grid_indices_lookup x q i v j Hv Hi).
  pose proof (grid_count_range x q v (list_elem_of_lookup_2 _ _ _ Hv) Hq).
  lia.
Qed.

Section gates_run.
Context {M : Type} `{Solver}.
Implicit Types w : world M.

Lemma uniform_spec n w :
  ∃ us w1, uniform n w = (inr us, w1) ∧ length us = n
           ∧ model w1 = model w ∧ trace w1 = trace w ++ [EvUniform us].
Proof.
  destruct (uniform_draws_ok n w) as (us & w0 & Hus & Hlen & Hm & Ht).
  eexists us, _. split; [|split; [done|]].
  - unfold uniform. rewrite (run_bind_ok _ _ _ _ _ Hus). reflexivity.
  - simpl. by rewrite Hm, Ht.
Qed.

(** [gates] up to the indicator matrix: the draws, the jitter, the grid
    and the filling of the matrix all succeed. *)
Lemma gates_prefix (y d prop s_hat : vector) (q : Z) (pt : bool) w us w1 :
  s_hat ≠ [] → (1 ≤ q)%Z →
  uniform (length s_hat) w = (inr us, w1) → length us = length s_hat →
  let jit := jittered s_hat us in
  let bin_edges := grid_edges jit q in
  let s_onehot := one_hot (Z.to_nat q) <$> grid_indices jit q in
  gates y d prop s_hat q pt w
  = (d_prop ← lift (broadcast2 Qminus d prop);
     s_treat ← lift (mul_rows s_onehot d_prop);
     x_reg ← lift (hstack s_onehot s_treat);
     params ← WLS_fit (WLS y x_reg None [("w"%string, inv_weights prop)]);
     _ ← (if pt
          then emit (EvPrint (gates_labels "Baseline" (grid_pct q) bin_edges
                              ++ gates_labels "Treatment" (grid_pct q)
                                   bin_edges))
          else mret ());
     mret {| coef_baseline :=
               take (length (gates_labels "Baseline" (grid_pct q) bin_edges))
                 params;
             coef_treatment :=
               drop (length (gates_labels "Baseline" (grid_pct q) bin_edges))
                 params;
             bin_values := bin_edges;
             bin_count := sum_axis0 (length bin_edges) s_onehot |}) w1.
Proof.
  intros Hs Hq Hus Hlen jit bin_edges s_onehot. unfold gates.
  rewrite (run_bind_ok _ _ _ _ _ Hus).
  rewrite (run_lift_ok _ _ _ _ (gates_jitter s_hat us Hlen)).
  fold jit.
  assert (length jit = length s_hat) as Hjit.
  { unfold jit, jittered. rewrite length_zip_with, length_fmap. lia. }
  assert (jit ≠ []) as Hne.
  { intros Hnil. rewrite Hnil in Hjit. by destruct s_hat. }
  rewrite (run_lift_ok _ _ _ _ (quantile_grid_run jit q Hne ltac:(lia))).
  cbv beta iota. fold bin_edges.
  assert (set_cells (zeros (length s_hat) (length bin_edges))
            (length bin_edges) (seq 0 (length s_hat)) (grid_indices jit q) 1%Q
          = inr s_onehot) as Hset.
  { unfold bin_edges. rewrite grid_edges_length.
    replace (length s_hat) with (length (grid_indices jit q))
      by (unfold grid_indices; by rewrite length_fmap).
    apply set_cells_one_hot. by apply grid_indices_range. }
  rewrite (run_lift_ok _ _ _ _ Hset). reflexivity.
Qed.

End gates_run.

Lemma bind_inv {M A B} (p : prog M A) (k : A → prog M B) (w w' : world M)
    (b : B) :
  (p ≫= k) w = (inr b, w') →
  ∃ a w1, p w = (inr a, w1) ∧ k a w1 = (inr b, w').
Proof. rewrite run_bind. destruct (p w) as [[e|a] w1]; [done|eauto]. Qed.

(** X9. On a non-empty score vector with one treatment and one propensity
    per score and [q >= 1], [gates] draws one uniform number per score,
    puts every score in one of the [q] bins (the highest bin whose edge is
    at or below the jittered score), then calls the solver once, on the
    design [G | G (D - P)] of those bins and with weight 1 on every row.
    An error of the solver is the error of [gates]; otherwise the table,
    with two labels per bin, is printed when asked for and the
    coefficients are split after the first [q]. *)
Theorem gates_outcomes {M} `{Solver} (y d prop s_hat : vector) (q : Z)
    (print_table : bool) (w : world M) :
  s_hat ≠ [] → (1 ≤ q)%Z →
  length d = length s_hat → length prop = length s_hat →
  ∃ us w1 bins edges labels,
    uniform (length s_hat) w = (inr us, w1) ∧ length us = length s_hat
    ∧ length bins = length s_hat
    ∧ Forall (λ j, 0 ≤ j < q)%Z bins
    ∧ length edges = Z.to_nat q
    ∧ (∀ i v b, jittered s_hat us !! i = Some v → bins !! i = Some b →
         ∀ k e, edges !! k = Some e → (e <= v)%Q ↔ (Z.of_nat k ≤ b)%Z)
    ∧ length labels = 2 * Z.to_nat q
    ∧ let k := Z.to_nat q in
      let X := gates_design bins d prop k in
      let ones := replicate (length y) 1%Q in
      let called := trace w ++ [EvUniform us; EvLstsq X y ones] in
      let printed :=
        called ++ (if print_table then [EvPrint labels] else []) in
      gates y d prop s_hat q print_table w
      = match lstsq X y ones with
        | inl e => (inl e, World (rng w1) (model w) called)
        | inr params =>
            (inr {| coef_baseline := take k params;
                    coef_treatment := drop k params;
                    bin_values := edges;
                    bin_count := sum_axis0 k (one_hot k <$> bins) |},
             World (rng w1) (model w) printed)
        end.
Proof.
  intros Hs Hq Hd Hp.
  destruct (uniform_spec (length s_hat) w) as (us & w1 & Hus & Hlen & Hm & Ht).
  set (jit := jittered s_hat us).
  assert (length jit = length s_hat) as Hjit.
  { unfold jit, jittered. rewrite length_zip_with, length_fmap. lia. }
  assert (jit ≠ []) as Hne.
  { intros Hnil. rewrite Hnil in Hjit. by destruct s_hat. }
  set (bins := grid_indices jit q). set (k := Z.to_nat q).
  assert (length bins = length s_hat) as Hbins.
  { unfold bins, grid_indices. by rewrite length_fmap. }
  pose proof (grid_indices_range jit q Hq) as Hrange. fold bins in Hrange.
  exists us, w1, bins, (grid_edges jit q),
    (gates_labels "Baseline" (grid_pct q) (grid_edges jit q)
     ++ gates_labels "Treatment" (grid_pct q) (grid_edges jit q)).
  split; [done|]. split; [done|]. split; [done|].
  split. { eapply Forall_impl; [exact Hrange|]. simpl. lia. }
  split; [apply grid_edges_length|].
  split.
  { intros i v b Hv Hb j e He.
    rewrite (grid_indices_lookup jit q i v b Hv Hb).
    rewrite (count_le_prefix _ v j e (grid_edges_increasing jit q Hne) He).
    lia. }
  split.
  { unfold gates_labels.
    rewrite length_app, !length_fmap, length_zip_with.
    rewrite grid_pct_length, grid_edges_length. lia. }
  intros k' X ones called printed. subst k'.
  rewrite (gates_prefix y d prop s_hat q print_table w us w1 Hs Hq Hus Hlen).
  fold jit. fold bins. fold k.
  rewrite (run_lift_ok _ _ _ _
             (broadcast2_same Qminus d prop (eq_trans Hd (eq_sym Hp)))).
  assert (mul_rows (one_hot k <$> bins) (zip_with Qminus d prop)
          = inr (zip_with (λ row ci, (λ v, v * ci)%Q <$> row)
                   (one_hot k <$> bins) (zip_with Qminus d prop))) as Hmul.
  { apply broadcast2_same. rewrite length_fmap, length_zip_with. lia. }
  rewrite (run_lift_ok _ _ _ _ Hmul).
  assert (hstack (one_hot k <$> bins)
            (zip_with (λ row ci, (λ v, v * ci)%Q <$> row)
               (one_hot k <$> bins) (zip_with Qminus d prop))
          = inr X) as Hstack.
  { unfold hstack. rewrite decide_True.
    - unfold ok, X, gates_design. f_equal. apply design_rows.
    - rewrite length_zip_with, !length_fmap, length_zip_with. lia. }
  rewrite (run_lift_ok _ _ _ _ Hstack).
  unfold WLS_fit, WLS. simpl.
  rewrite run_bind. unfold emit at 1. simpl.
  rewrite Hm, Ht, <- app_assoc. simpl. fold ones.
  destruct (lstsq X y ones) as [e|params]; [done|].
  unfold gates_labels at 1 2. rewrite !length_fmap, length_zip_with.
  rewrite grid_pct_length, grid_edges_length, Nat.min_id. fold k.
  unfold printed, called. destruct print_table.
  - rewrite run_bind. unfold emit. simpl. reflexivity.
  - rewrite run_bind. simpl. rewrite app_nil_r. reflexivity.
Qed.

Lemma gates_outcomes_witness :
  ∃ r w', gates [2; 1; 7; 9; 4; 7]%Q [1; 0; 1; 1; 0; 0]%Q
            [1 # 2; 1 # 2; 1 # 3; 1 # 2; 1 # 2; 1 # 4]%Q
            [1; 3; 2; 5; 4; 7]%Q 2 true (World [3; 1; 4; 1; 5; 9] () [])
          = (inr r, w').
Proof.
  destruct (gates_outcomes (H := Reference.rational_solver)
              [2; 1; 7; 9; 4; 7]%Q [1; 0; 1; 1; 0; 0]%Q
              [1 # 2; 1 # 2; 1 # 3; 1 # 2; 1 # 2; 1 # 4]%Q
              [1; 3; 2; 5; 4; 7]%Q 2 true (World [3; 1; 4; 1; 5; 9] () []))
    as (us & w1 & bins & edges & labels & _ & _ & _ & _ & _ & _ & _ & Hrun).
  - discriminate.
  - lia.
  - reflexivity.
  - reflexivity.
  - cbv zeta in Hrun.
    destruct (gates _ _ _ _ _ _ _) as [[e|r] w'] eqn:Hgates.
    + vm_compute in Hgates. discriminate.
    + by exists r, w'.
Defined.



(** ** combine: the "blp" branch *)

Section combine_blp.
Context {M : Type} `{Model M} `{Solver}.
Implicit Types w : world M.

(** A run of [blp] that returns has called the solver once, with weight 1
    on every row, and has printed only when asked to. *)
Lemma blp_inv (y d prop b_hat s_hat : vector) (print_table : bool) w r w' :
  blp y d prop b_hat s_hat print_table w = (inr r, w') →
  ∃ X, trace w' = trace w
         ++ EvLstsq X y (replicate (length y) 1%Q)
            :: (if print_table
                then [EvPrint ["const."; "b0"; "ate"; "het"]%string] else []).
Proof.
  unfold blp. intros Hrun.
  apply bind_inv in Hrun as (d_prop & w1 & [_ ->]%lift_inv & Hrun).
  apply bind_inv in Hrun as (d_prop' & w1 & [_ ->]%lift_inv & Hrun).
  apply bind_inv in Hrun as (het_col & w1 & [_ ->]%lift_inv & Hrun).
  apply bind_inv in Hrun as (x_reg & w1 & [_ ->]%lift_inv & Hrun).
  apply bind_inv in Hrun as (params & w1 & Hfit & Hrun).
  unfold WLS_fit, WLS in Hfit. simpl in Hfit.
  apply bind_inv in Hfit as ([] & w0 & Hemit & [_ ->]%lift_inv).
  unfold emit in Hemit. injection Hemit as <-.
  apply bind_inv in Hrun as ([] & w2 & Hprint & Hrun).
  apply bind_inv in Hrun as (i_ate & w3 & [_ ->]%lift_inv & Hrun).
  apply bind_inv in Hrun as (v_ate & w3 & [_ ->]%lift_inv & Hrun).
  apply bind_inv in Hrun as (i_het & w3 & [_ ->]%lift_inv & Hrun).
  apply bind_inv in Hrun as (v_het & w3 & [_ ->]%lift_inv & Hrun).
  unfold mret, prog_ret, pret in Hrun. injection Hrun as _ <-.
  exists x_reg. destruct print_table.
  - unfold emit in Hprint. injection Hprint as <-. simpl.
    by rewrite <- app_assoc.
  - unfold mret, prog_ret, pret in Hprint. injection Hprint as <-. done.
Qed.

End combine_blp.

(** X11. Whenever [combine] returns with second_stage = "blp", it has, in this
    order, drawn the two main samples, fitted and predicted twice on the
    one model, and called the solver once, with weight 1 on every row and
    with the outcomes of the rows labelled "m"; nothing is printed, and the
    result is the pair of [blp]. *)
Theorem combine_blp_pipeline {M} `{Model M} `{Solver} (x : matrix)
    (y d prop : vector) (q : Z) (prob_m : Q) (w w' : world M)
    (r : estimation_result) :
  combine x y d prop "blp" q prob_m w = (inr r, w') →
  ∃ sample w1 res a1 s1 o1 a2 s2 o2 X1 t1 X2 t2 X,
    partition d prob_m w = (inr sample, w1)
    ∧ r = BLP res
    ∧ length sample = length y
    ∧ trace w' = trace w
        ++ [EvChoice a1 s1 o1; EvChoice a2 s2 o2;
            EvFit X1 t1; EvPredict x; EvFit X2 t2; EvPredict x;
            EvLstsq X (compress (eq_label sample "m") y)
              (replicate (length (compress (eq_label sample "m") y)) 1%Q)].
Proof.
  unfold combine. intros Hrun.
  apply bind_inv in Hrun as (sample & w1 & Hpart & Hrun).
  apply bind_inv in Hrun as ([b_hat s_hat] & w2 & Hproxy & Hrun).
  rewrite decide_True in Hrun by done.
  apply bind_inv in Hrun as (y_m & w3 & [Hy ->]%lift_inv & Hrun).
  apply bind_inv in Hrun as (d_m & w3 & [_ ->]%lift_inv & Hrun).
  apply bind_inv in Hrun as (prop_m & w3 & [_ ->]%lift_inv & Hrun).
  apply bind_inv in Hrun as (b_m & w3 & [_ ->]%lift_inv & Hrun).
  apply bind_inv in Hrun as (s_m & w3 & [_ ->]%lift_inv & Hrun).
  apply bind_inv in Hrun as (res & w3 & Hblp & Hrun).
  unfold mret, prog_ret, pret in Hrun. injection Hrun as <- <-.
  destruct (partition_trace d prob_m w sample w1 Hpart)
    as (a1 & s1 & o1 & a2 & s2 & o2 & Ht1).
  destruct (ml_proxy_inv x y d sample w1 _ w2 Hproxy)
    as (X1 & t1 & X2 & t2 & Ht2).
  destruct (blp_inv _ _ _ _ _ _ _ _ _ Hblp) as (X & Ht3).
  unfold mask_index in Hy. case_decide as Hlen; [|done].
  injection Hy as <-. unfold eq_label in Hlen. rewrite length_fmap in Hlen.
  exists sample, w1, res, a1, s1, o1, a2, s2, o2, X1, t1, X2, t2, X.
  split; [done|]. split; [done|]. split; [done|].
  rewrite Ht3, Ht2, Ht1, <- !app_assoc. done.
Qed.

Lemma combine_blp_pipeline_witness :
  ∃ r w', combine [[1]; [2]; [3]; [4]; [5]; [6]; [7]; [8]; [9]; [10];
                   [11]; [12]]%Q
            [2; 1; 7; 9; 4; 7; 3; 8; 5; 6; 1; 9]%Q
            [1; 0; 1; 0; 1; 0; 1; 0; 1; 0; 1; 0]%Q
            [1 # 2; 1 # 2; 1 # 3; 1 # 2; 1 # 2; 1 # 4;
             1 # 2; 1 # 2; 1 # 3; 1 # 2; 1 # 2; 1 # 4]%Q
            "blp" 10 (5 # 6) (World [7; 3; 11; 5; 2; 8; 1; 4] 0%Q [])
          = (inr r, w')
          ∧ length (trace w') = 7.
Proof.
  destruct (combine (H := Reference.slope_model)
              (H0 := Reference.rational_solver)
              [[1]; [2]; [3]; [4]; [5]; [6]; [7]; [8]; [9]; [10];
               [11]; [12]]%Q
              [2; 1; 7; 9; 4; 7; 3; 8; 5; 6; 1; 9]%Q
              [1; 0; 1; 0; 1; 0; 1; 0; 1; 0; 1; 0]%Q
              [1 # 2; 1 # 2; 1 # 3; 1 # 2; 1 # 2; 1 # 4;
               1 # 2; 1 # 2; 1 # 3; 1 # 2; 1 # 2; 1 # 4]%Q
              "blp" 10 (5 # 6) (World [7; 3; 11; 5; 2; 8; 1; 4] 0%Q []))
    as [[e|r] w'] eqn:Hrun.
  { vm_compute in Hrun. discriminate. }
  exists r, w'. split; [reflexivity|].
  destruct (combine_blp_pipeline _ _ _ _ _ _ _ _ _ Hrun)
    as (sample & w1 & res & a1 & s1 & o1 & a2 & s2 & o2 & X1 & t1 & X2
        & t2 & X & _ & _ & _ & Htrace).
  rewrite Htrace. reflexivity.
Defined.

(** X12. With second_stage = "blp" the number of groups [q] plays no part:
    two runs of [combine] from the same state that differ only in [q]
    end in the same result and the same state. *)
Theorem combine_blp_ignores_q {M} `{Model M} `{Solver} (x : matrix)
    (y d prop : vector) (q q' : Z) (prob_m : Q) (w : world M) :
  combine x y d prop "blp" q prob_m w
  = combine x y d prop "blp" q' prob_m w.
Proof. reflexivity. Qed.
